(** * Verification of the blockstore backup engine (blockstores.go)

    A shallow embedding of package [blockstores]: the on-blockstore data
    model, the driver registry, the volume registry, the snapshot backup
    pipeline and the snapshot map merge, followed by the properties of the
    specification stated and settled against that embedding.

    Conventions.
    - Go's [uint32]/[uint64]/[int64] values are [Z]; wrap-around is written
      out where the code computes ([wrap64]).
    - [[]byte] is [list byte]; Go strings are [string].
    - [map[string]T] is [gmap string T].
    - Functions returning [error] are computations in the monad [M], which
      threads the world (local disk, remote blockstore, snapshot source,
      call log) and stops at the first error or run-time panic.
    - [Register] and [Deregister] create and delete the two local files of
      a blockstore; the properties below are about the operations on a
      registered blockstore and about the driver registry. *)

From Stdlib Require Import ZArith List Ascii String Strings.Byte DecimalString Lia Bool.
From stdpp Require Import base tactics option list sorting gmap strings.

Local Open Scope Z_scope.

(** ** Constants of the package *)

Definition BLOCKSTORE_BASE : string := "rancher-blockstore".
Definition VOLUME_DIRECTORY : string := "volume".
Definition VOLUME_CONFIG_FILE : string := "volume.cfg".
Definition SNAPSHOTS_DIRECTORY : string := "snapshots".
Definition SNAPSHOT_CONFIG_PREFIX : string := "snapshot-".
Definition BLOCKS_DIRECTORY : string := "blocks".
Definition BLOCK_SEPARATE_LAYER1 : nat := 2.
Definition BLOCK_SEPARATE_LAYER2 : nat := 4.
Definition DEFAULT_BLOCK_SIZE : Z := 2097152.
Definition PRESERVED_CHECKSUM_LENGTH : nat := 64.

(** ** Go primitives used by the package *)

(** Unsigned 64-bit wrap-around. *)
Definition wrap64 (x : Z) : Z := x mod 2 ^ 64.

Definition byte_to_Z (b : byte) : Z := Z.of_N (Byte.to_N b).

Definition byte_of_Z (z : Z) : byte :=
  match Byte.of_N (Z.to_N (z mod 256)) with
  | Some b => b
  | None => x00
  end.

(** [s[lo:hi]] on a Go string: a run-time panic ([None]) unless
    [lo <= hi <= len(s)]. *)
Definition slice (s : string) (lo hi : nat) : option string :=
  if decide (lo ≤ hi ≤ String.length s)%nat
  then Some (substring lo (hi - lo) s)
  else None.

(** [crypto/sha512]: the SHA-512 function of FIPS 180-4 on byte strings. *)
Module sha512.

Definition add64 (x y : Z) : Z := wrap64 (x + y).
Definition not64 (x : Z) : Z := Z.lxor x (2 ^ 64 - 1).
Definition shr (n x : Z) : Z := Z.shiftr x n.
Definition rotr (n x : Z) : Z :=
  Z.lor (Z.shiftr x n) (wrap64 (Z.shiftl x (64 - n))).

Definition Ch (x y z : Z) : Z := Z.lxor (Z.land x y) (Z.land (not64 x) z).
Definition Maj (x y z : Z) : Z :=
  Z.lxor (Z.lxor (Z.land x y) (Z.land x z)) (Z.land y z).
Definition Sigma0 (x : Z) : Z := Z.lxor (Z.lxor (rotr 28 x) (rotr 34 x)) (rotr 39 x).
Definition Sigma1 (x : Z) : Z := Z.lxor (Z.lxor (rotr 14 x) (rotr 18 x)) (rotr 41 x).
Definition sigma0 (x : Z) : Z := Z.lxor (Z.lxor (rotr 1 x) (rotr 8 x)) (shr 7 x).
Definition sigma1 (x : Z) : Z := Z.lxor (Z.lxor (rotr 19 x) (rotr 61 x)) (shr 6 x).

Definition K : list Z :=
  [ 0x428a2f98d728ae22; 0x7137449123ef65cd; 0xb5c0fbcfec4d3b2f; 0xe9b5dba58189dbbc;
    0x3956c25bf348b538; 0x59f111f1b605d019; 0x923f82a4af194f9b; 0xab1c5ed5da6d8118;
    0xd807aa98a3030242; 0x12835b0145706fbe; 0x243185be4ee4b28c; 0x550c7dc3d5ffb4e2;
    0x72be5d74f27b896f; 0x80deb1fe3b1696b1; 0x9bdc06a725c71235; 0xc19bf174cf692694;
    0xe49b69c19ef14ad2; 0xefbe4786384f25e3; 0x0fc19dc68b8cd5b5; 0x240ca1cc77ac9c65;
    0x2de92c6f592b0275; 0x4a7484aa6ea6e483; 0x5cb0a9dcbd41fbd4; 0x76f988da831153b5;
    0x983e5152ee66dfab; 0xa831c66d2db43210; 0xb00327c898fb213f; 0xbf597fc7beef0ee4;
    0xc6e00bf33da88fc2; 0xd5a79147930aa725; 0x06ca6351e003826f; 0x142929670a0e6e70;
    0x27b70a8546d22ffc; 0x2e1b21385c26c926; 0x4d2c6dfc5ac42aed; 0x53380d139d95b3df;
    0x650a73548baf63de; 0x766a0abb3c77b2a8; 0x81c2c92e47edaee6; 0x92722c851482353b;
    0xa2bfe8a14cf10364; 0xa81a664bbc423001; 0xc24b8b70d0f89791; 0xc76c51a30654be30;
    0xd192e819d6ef5218; 0xd69906245565a910; 0xf40e35855771202a; 0x106aa07032bbd1b8;
    0x19a4c116b8d2d0c8; 0x1e376c085141ab53; 0x2748774cdf8eeb99; 0x34b0bcb5e19b48a8;
    0x391c0cb3c5c95a63; 0x4ed8aa4ae3418acb; 0x5b9cca4f7763e373; 0x682e6ff3d6b2b8a3;
    0x748f82ee5defb2fc; 0x78a5636f43172f60; 0x84c87814a1f0ab72; 0x8cc702081a6439ec;
    0x90befffa23631e28; 0xa4506cebde82bde9; 0xbef9a3f7b2c67915; 0xc67178f2e372532b;
    0xca273eceea26619c; 0xd186b8c721c0c207; 0xeada7dd6cde0eb1e; 0xf57d4f7fee6ed178;
    0x06f067aa72176fba; 0x0a637dc5a2c898a6; 0x113f9804bef90dae; 0x1b710b35131c471b;
    0x28db77f523047d84; 0x32caab7b40c72493; 0x3c9ebe0a15c9bebc; 0x431d67c49c100d4c;
    0x4cc5d4becb3e42b6; 0x597f299cfc657e2a; 0x5fcb6fab3ad6faec; 0x6c44198c4a475817 ].

(** The eight working variables / chaining values. *)
Record digest := Digest { ha : Z; hb : Z; hc : Z; hd : Z; he : Z; hf : Z; hg : Z; hh : Z }.

Definition init : digest :=
  Digest 0x6a09e667f3bcc908 0xbb67ae8584caa73b 0x3c6ef372fe94f82b 0xa54ff53a5f1d36f1
         0x510e527fade682d1 0x9b05688c2b3e6c1f 0x1f83d9abfb41bd6b 0x5be0cd19137e2179.

(** Big-endian decoding of a run of bytes. *)
Definition be_word (bs : list byte) : Z :=
  fold_left (fun acc b => acc * 256 + byte_to_Z b) bs 0.

(** Big-endian encoding of [x] on [n] bytes. *)
Fixpoint be_bytes (n : nat) (x : Z) : list byte :=
  match n with
  | O => []
  | S n' => byte_of_Z (Z.shiftr x (8 * Z.of_nat n')) :: be_bytes n' x
  end.

(** Split one 128-byte block into sixteen 64-bit words. *)
Fixpoint words (n : nat) (bs : list byte) : list Z :=
  match n with
  | O => []
  | S n' => be_word (take 8 bs) :: words n' (drop 8 bs)
  end.

(** Message schedule, most recent word first: from W(t-1) .. W(t-16)
    compute W(t) and push it. *)
Fixpoint schedule (n : nat) (rev_w : list Z) : list Z :=
  match n with
  | O => rev_w
  | S n' =>
      let w1 := nth 1 rev_w 0 in
      let w6 := nth 6 rev_w 0 in
      let w14 := nth 14 rev_w 0 in
      let w15 := nth 15 rev_w 0 in
      let w := add64 (add64 (add64 (sigma1 w1) w6) (sigma0 w14)) w15 in
      schedule n' (w :: rev_w)
  end.

Definition round (s : digest) (kw : Z * Z) : digest :=
  let '(k, w) := kw in
  let t1 := add64 (add64 (add64 (add64 (hh s) (Sigma1 (he s))) (Ch (he s) (hf s) (hg s))) k) w in
  let t2 := add64 (Sigma0 (ha s)) (Maj (ha s) (hb s) (hc s)) in
  Digest (add64 t1 t2) (ha s) (hb s) (hc s) (add64 (hd s) t1) (he s) (hf s) (hg s).

Definition compress (h : digest) (blk : list byte) : digest :=
  let w := rev (schedule 64 (rev (words 16 blk))) in
  let s := fold_left round (combine K w) h in
  Digest (add64 (ha h) (ha s)) (add64 (hb h) (hb s)) (add64 (hc h) (hc s))
         (add64 (hd h) (hd s)) (add64 (he h) (he s)) (add64 (hf h) (hf s))
         (add64 (hg h) (hg s)) (add64 (hh h) (hh s)).

(** Padding: 0x80, zeros up to 112 mod 128, then the bit length on 128 bits. *)
Definition pad (msg : list byte) : list byte :=
  let len := Z.of_nat (length msg) in
  let k := Z.to_nat ((111 - len) mod 128) in
  msg ++ [x80] ++ replicate k x00 ++ be_bytes 16 (8 * len).

Fixpoint blocks (n : nat) (h : digest) (bs : list byte) : digest :=
  match n with
  | O => h
  | S n' => blocks n' (compress h (take 128 bs)) (drop 128 bs)
  end.

Definition checkSum (msg : list byte) : digest :=
  let p := pad msg in
  blocks (length p / 128) init p.

(** [sha512.Sum512(data)]: the 64-byte checksum. *)
Definition Sum512 (data : list byte) : list byte :=
  let d := checkSum data in
  be_bytes 8 (ha d) ++ be_bytes 8 (hb d) ++ be_bytes 8 (hc d) ++ be_bytes 8 (hd d) ++
  be_bytes 8 (he d) ++ be_bytes 8 (hf d) ++ be_bytes 8 (hg d) ++ be_bytes 8 (hh d).

End sha512.

(** [encoding/hex]. *)
Module hex.

Definition hextable : string := "0123456789abcdef".

Definition digit (i : Z) : ascii :=
  match String.get (Z.to_nat i) hextable with
  | Some c => c
  | None => "0"%char
  end.

(** [hex.EncodeToString]: two characters per byte, high nibble first. *)
Fixpoint EncodeToString (src : list byte) : string :=
  match src with
  | [] => EmptyString
  | v :: rest =>
      String (digit (Z.shiftr (byte_to_Z v) 4))
        (String (digit (Z.land (byte_to_Z v) 0x0f)) (EncodeToString rest))
  end.

End hex.

Definition bytes_of_string (s : string) : list byte := list_byte_of_string s.

(** [path/filepath] on a slash-separated file system. *)
Module filepath.

Definition Separator : ascii := "/".

(** The elements of a path: the runs between separators. *)
Fixpoint split (s : string) : list string :=
  match s with
  | EmptyString => [EmptyString]
  | String c rest =>
      if Ascii.eqb c Separator then EmptyString :: split rest
      else match split rest with
           | [] => [String c EmptyString]
           | h :: t => String c h :: t
           end
  end.

(** [strings.Join(elems, "/")]. *)
Fixpoint join (elems : list string) : string :=
  match elems with
  | [] => EmptyString
  | e :: rest =>
      match rest with
      | [] => e
      | _ :: _ => e +:+ "/" +:+ join rest
      end
  end.

Definition rooted (path : string) : bool :=
  match path with
  | String c _ => Ascii.eqb c Separator
  | EmptyString => false
  end.

(** One element of the path against the elements kept so far (innermost
    first): empty and [.] elements vanish, [..] cancels the element
    before it, is dropped at the root, and is kept at the start of a
    relative path. *)
Definition cleanStep (isRooted : bool) (kept : list string) (e : string) : list string :=
  if decide (e = EmptyString ∨ e = ".") then kept
  else if decide (e = "..") then
    match kept with
    | top :: below => if decide (top = "..") then e :: kept else below
    | [] => if isRooted then [] else [e]
    end
  else e :: kept.

(** [filepath.Clean]: the shortest equivalent path. *)
Definition Clean (path : string) : string :=
  let kept := rev (fold_left (cleanStep (rooted path)) (split path) []) in
  if rooted path then "/" +:+ join kept
  else match kept with
       | [] => "."
       | _ :: _ => join kept
       end.

(** [filepath.Join]: leading empty elements are ignored, the rest is
    joined with separators and cleaned. *)
Fixpoint Join (elem : list string) : string :=
  match elem with
  | [] => EmptyString
  | e :: rest => if decide (e = EmptyString) then Join rest else Clean (join elem)
  end.

End filepath.

(** ** Data model

    A Go map that is [nil] and one that is empty are both the empty
    [gmap]: the records this package stores are made by [Register] with
    [make], and their JSON text decodes to a non-nil map. *)

Record Volume := mkVolume {
  Size : Z;                 (* uint64 *)
  Base : string;
  LastSnapshotId : string;
}.

Record BlockStore := mkBlockStore {
  Kind : string;
  BlockSize : Z;            (* uint32 *)
  Volumes : gmap string Volume;
}.

Record BlockMapping := mkBlockMapping {
  Offset : Z;               (* uint64 *)
  Block : string;
}.

Record SnapshotMap := mkSnapshotMap {
  Id : string;
  Blocks : list BlockMapping;
}.

(** Package [metadata]: the delta description filled in by the snapshot
    source. Only its type declarations are used by this package. (The
    field [Mappings] of the struct [Mappings] is [Mappings_] here.) *)
Module metadata.
Record Mapping := mkMapping {
  Offset : Z;             (* uint64 *)
  Size : Z;               (* uint64 *)
}.
Record Mappings := mkMappings {
  Mappings_ : list Mapping;
  BlockSize : Z;          (* uint32 *)
}.
End metadata.

(** ** Path helpers *)

Definition getDriverConfigFilename (root kind id : string) : string :=
  filepath.Join [root; id +:+ "-" +:+ kind +:+ ".cfg"].

Definition getConfigFilename (root id : string) : string :=
  filepath.Join [root; id +:+ ".cfg"].

Definition getVolumePath (volumeId : string) : string :=
  filepath.Join [BLOCKSTORE_BASE; VOLUME_DIRECTORY; volumeId].

Definition getSnapshotsPath (volumeId : string) : string :=
  filepath.Join [getVolumePath volumeId; SNAPSHOTS_DIRECTORY].

(** The two slice expressions panic on a checksum that is too short;
    [None] is that panic. *)
Definition getBlockPathAndFileName (volumeId checksum : string) : option (string * string) :=
  blockSubDirLayer1 ← slice checksum 0 BLOCK_SEPARATE_LAYER1;
  blockSubDirLayer2 ← slice checksum BLOCK_SEPARATE_LAYER1 BLOCK_SEPARATE_LAYER2;
  let path := filepath.Join [getVolumePath volumeId; BLOCKS_DIRECTORY;
                             blockSubDirLayer1; blockSubDirLayer2] in
  let fileName := checksum +:+ ".blk" in
  Some (path, fileName).

Definition getSnapshotConfigName (id : string) : string :=
  SNAPSHOT_CONFIG_PREFIX +:+ id +:+ ".cfg".

(** The digest of one block, as [BackupSnapshot] computes it:
    [hex.EncodeToString(checksumBytes[:])[:PRESERVED_CHECKSUM_LENGTH]]. *)
Definition blockChecksum (block : list byte) : option string :=
  let checksumBytes := sha512.Sum512 block in
  slice (hex.EncodeToString checksumBytes) 0 PRESERVED_CHECKSUM_LENGTH.

(** ** Snapshot map merge *)

(** The [for d, l := 0, 0; d < len(..) && l < len(..); ] loop. [fuel]
    bounds the number of iterations; each one advances [d] or [l]. *)
Fixpoint mergeLoop (fuel : nat) (deltaBlocks lastBlocks : list BlockMapping)
    (d l : nat) (sBlocks : list BlockMapping) : list BlockMapping :=
  match fuel with
  | O => sBlocks
  | S fuel' =>
      match deltaBlocks !! d, lastBlocks !! l with
      | Some dB, Some lB =>
          if Offset dB =? Offset lB then
            mergeLoop fuel' deltaBlocks lastBlocks (S d) (S l) (sBlocks ++ [dB])
          else if Offset dB <? Offset lB then
            mergeLoop fuel' deltaBlocks lastBlocks (S d) l (sBlocks ++ [dB])
          else
            mergeLoop fuel' deltaBlocks lastBlocks d (S l) (sBlocks ++ [lB])
      | _, _ => sBlocks
      end
  end.

Definition mergeSnapshotMap (snapshotId : string) (deltaMap lastMap : SnapshotMap) : SnapshotMap :=
  if decide (length (Blocks lastMap) = 0)%nat then
    mkSnapshotMap snapshotId (Blocks deltaMap)
  else
    mkSnapshotMap snapshotId
      (mergeLoop (length (Blocks deltaMap) + length (Blocks lastMap))
                 (Blocks deltaMap) (Blocks lastMap) 0 0 []).

(** ** Effects *)

(** How a call ends: a value, a returned [error] (its message), or a
    run-time panic. *)
Inductive outcome (A : Type) : Type :=
| Ok (a : A)
| Err (e : string)
| Panic.
Arguments Ok {A} a.
Arguments Err {A} e.
Arguments Panic {A}.

(** The [BlockStoreDriver] interface over a remote store with states [R].
    Every method is a remote call and may change the store. [Read] returns
    the bytes it puts into the caller's buffer. ([Kind] and [CopyToPath]
    are never called by this package.) *)
Record BlockStoreDriver (R : Type) := mkBlockStoreDriver {
  FileExists : string → string → R → bool * R;
  FileSize : string → string → R → Z * R;
  MkDirAll : string → R → option string * R;
  RemoveAll : string → R → option string * R;
  Read : string → string → list byte → R → (option string * list byte) * R;
  Write : list byte → string → string → R → option string * R;
}.
Arguments FileExists {R}.
Arguments FileSize {R}.
Arguments MkDirAll {R}.
Arguments RemoveAll {R}.
Arguments Read {R}.
Arguments Write {R}.

(** The part of [drivers.Driver] (the local snapshot source, with states
    [S]) that the backup uses. [ReadSnapshot] returns the bytes it puts
    into the caller's buffer. *)
Record Driver (S : Type) := mkDriver {
  CompareSnapshot : string → string → string → S → (option string * metadata.Mappings) * S;
  ReadSnapshot : string → string → Z → list byte → S → (option string * list byte) * S;
}.
Arguments CompareSnapshot {S}.
Arguments ReadSnapshot {S}.

Definition InitFunc (R : Type) : Type :=
  string → string → option (gmap string string) → string + BlockStoreDriver R.

(** [encoding/json] at the three types the package serialises. *)
Class JSON := mkJSON {
  Marshal_Volume : Volume → string + list byte;
  Marshal_SnapshotMap : SnapshotMap → string + list byte;
  Unmarshal_SnapshotMap : list byte → string + SnapshotMap;
}.

(** What a callee can do to a buffer it was handed: overwrite its bytes in
    place, never change its length. *)
Definition fill (buf data : list byte) : list byte :=
  take (length buf) (data ++ drop (length data) buf).

(** The calls the package makes, in order (a ghost log used to state
    ordering properties). *)
Inductive Event : Type :=
| ELoadConfig (file : string)
| ESaveConfig (file : string) (b : BlockStore) (err : option string)
| EFileExists (path name : string) (r : bool)
| EFileSize (path name : string) (r : Z)
| EMkDirAll (dir : string) (err : option string)
| ERemoveAll (name : string) (err : option string)
| ERead (path name : string) (err : option string)
| EWrite (data : list byte) (path name : string) (err : option string)
| ECompareSnapshot (snapshotId lastSnapshotId volumeId : string) (err : option string)
| EReadSnapshot (snapshotId volumeId : string) (offset : Z) (err : option string).

Section Engine.

Context {R Src : Type} {json : JSON}.

(** The world the package runs in. *)
Record World := mkWorld {
  initializers : gmap string (InitFunc R);   (* the package variable *)
  disk : gmap string BlockStore;             (* local config files, by name *)
  diskFault : string → option string;        (* files that cannot be written *)
  remote : R;
  source : Src;
  calls : list Event;
}.

Definition set_initializers (i : gmap string (InitFunc R)) (w : World) : World :=
  mkWorld i (disk w) (diskFault w) (remote w) (source w) (calls w).
Definition set_disk (d : gmap string BlockStore) (w : World) : World :=
  mkWorld (initializers w) d (diskFault w) (remote w) (source w) (calls w).
Definition set_remote (r : R) (w : World) : World :=
  mkWorld (initializers w) (disk w) (diskFault w) r (source w) (calls w).
Definition set_source (s : Src) (w : World) : World :=
  mkWorld (initializers w) (disk w) (diskFault w) (remote w) s (calls w).
Definition record (e : Event) (w : World) : World :=
  mkWorld (initializers w) (disk w) (diskFault w) (remote w) (source w) (calls w ++ [e]).

Definition M (A : Type) : Type := World → outcome A * World.

Global Instance M_ret : MRet M := λ A a w, (Ok a, w).
Global Instance M_bind : MBind M := λ A B f m w,
  match m w with
  | (Ok a, w') => f a w'
  | (Err e, w') => (Err e, w')
  | (Panic, w') => (Panic, w')
  end.

Definition fail {A} (e : string) : M A := λ w, (Err e, w).
Definition panic {A} : M A := λ w, (Panic, w).

(** [return err] when [err != nil]. *)
Definition check (err : option string) : M unit :=
  match err with
  | Some e => fail e
  | None => mret tt
  end.

(** A value whose computation panics when it is [None]. *)
Definition orPanic {A} (o : option A) : M A :=
  match o with
  | Some a => mret a
  | None => panic
  end.

(** *** Calls to the collaborators *)

Definition callFileExists (drv : BlockStoreDriver R) (path name : string) : M bool := λ w,
  let '(r, st) := FileExists drv path name (remote w) in
  (Ok r, record (EFileExists path name r) (set_remote st w)).

Definition callFileSize (drv : BlockStoreDriver R) (path name : string) : M Z := λ w,
  let '(r, st) := FileSize drv path name (remote w) in
  (Ok r, record (EFileSize path name r) (set_remote st w)).

Definition callMkDirAll (drv : BlockStoreDriver R) (dir : string) : M unit := λ w,
  let '(err, st) := MkDirAll drv dir (remote w) in
  check err (record (EMkDirAll dir err) (set_remote st w)).

Definition callRemoveAll (drv : BlockStoreDriver R) (name : string) : M unit := λ w,
  let '(err, st) := RemoveAll drv name (remote w) in
  check err (record (ERemoveAll name err) (set_remote st w)).

Definition callRead (drv : BlockStoreDriver R) (path name : string) (data : list byte)
    : M (list byte) := λ w,
  let '((err, bytes), st) := Read drv path name data (remote w) in
  (check err ;; mret (fill data bytes)) (record (ERead path name err) (set_remote st w)).

Definition callWrite (drv : BlockStoreDriver R) (data : list byte) (path name : string)
    : M unit := λ w,
  let '(err, st) := Write drv data path name (remote w) in
  check err (record (EWrite data path name err) (set_remote st w)).

Definition callCompareSnapshot (sDriver : Driver Src) (snapshotId lastSnapshotId volumeId : string)
    : M metadata.Mappings := λ w,
  let '((err, delta), st) := CompareSnapshot sDriver snapshotId lastSnapshotId volumeId (source w) in
  (check err ;; mret delta)
    (record (ECompareSnapshot snapshotId lastSnapshotId volumeId err) (set_source st w)).

Definition callReadSnapshot (sDriver : Driver Src) (snapshotId volumeId : string) (offset : Z)
    (block : list byte) : M (list byte) := λ w,
  let '((err, bytes), st) := ReadSnapshot sDriver snapshotId volumeId offset block (source w) in
  (check err ;; mret (fill block bytes))
    (record (EReadSnapshot snapshotId volumeId offset err) (set_source st w)).

(** Modelled from the spec: [utils.LoadConfig] and [utils.SaveConfig],
    whose package is not among the sources. The specification has the
    blockstore record stored locally in one file and persisted as a
    whole: loading fails when the file is missing, saving either fails
    and leaves the file as it was or replaces the record. *)
Definition LoadConfig (file : string) : M BlockStore := λ w,
  match disk w !! file with
  | Some b => (Ok b, record (ELoadConfig file) w)
  | None => (Err ("open " +:+ file +:+ ": no such file or directory"),
             record (ELoadConfig file) w)
  end.

Definition SaveConfig (file : string) (b : BlockStore) : M unit := λ w,
  match diskFault w file with
  | Some e => (Err e, record (ESaveConfig file b (Some e)) w)
  | None => (Ok tt, record (ESaveConfig file b None) (set_disk (<[file := b]> (disk w)) w))
  end.

Definition jsonMarshal {A} (marshal : A → string + list byte) (v : A) : M (list byte) :=
  match marshal v with
  | inl e => fail e
  | inr j => mret j
  end.

(** *** Driver registry *)

Definition RegisterDriver (kind : string) (initFunc : InitFunc R) : M unit := λ w,
  match initializers w !! kind with
  | Some _ => (Err (kind +:+ " has already been registered"), w)
  | None => (Ok tt, set_initializers (<[kind := initFunc]> (initializers w)) w)
  end.

Definition GetBlockStoreDriver (kind configFile id : string)
    (config : option (gmap string string)) : M (BlockStoreDriver R) := λ w,
  match (initializers w !! kind : option (InitFunc R)) with
  | None => (Err ("Driver " +:+ kind +:+ " is not supported!"), w)
  | Some init =>
      match init configFile id config with
      | inl e => (Err e, w)
      | inr drv => (Ok drv, w)
      end
  end.

(** *** Volume registry *)

Definition AddVolume (root id volumeId base : string) (size : Z) : M unit :=
  let configFile := getConfigFilename root id in
  b ← LoadConfig configFile;
  match Volumes b !! volumeId with
  | Some _ => fail ("volume " +:+ volumeId +:+ " already exists in blockstore " +:+ id)
  | None =>
      let driverConfigFile := getDriverConfigFilename root (Kind b) id in
      driver ← GetBlockStoreDriver (Kind b) driverConfigFile id None;
      let volumeDir := filepath.Join [BLOCKSTORE_BASE; VOLUME_DIRECTORY; volumeId] in
      callMkDirAll driver volumeDir ;;
      let volume := mkVolume size base EmptyString in
      let b := mkBlockStore (Kind b) (BlockSize b) (<[volumeId := volume]> (Volumes b)) in
      SaveConfig configFile b ;;
      j ← jsonMarshal Marshal_Volume volume;
      let volumePath := getVolumePath volumeId in
      let volumeFile := VOLUME_CONFIG_FILE in
      existed ← callFileExists driver volumePath volumeFile;
      if (existed : bool) then fail "volume config file already existed in blockstore"
      else callWrite driver j volumePath volumeFile
  end.

Definition RemoveVolume (root id volumeId : string) : M unit :=
  let configFile := getConfigFilename root id in
  b ← LoadConfig configFile;
  match Volumes b !! volumeId with
  | None => fail ("volume " +:+ volumeId +:+ " doesn't exist in blockstore " +:+ id)
  | Some _ =>
      let driverConfigFile := getDriverConfigFilename root (Kind b) id in
      driver ← GetBlockStoreDriver (Kind b) driverConfigFile id None;
      let volumeDir := filepath.Join [BLOCKSTORE_BASE; VOLUME_DIRECTORY; volumeId] in
      callRemoveAll driver volumeDir ;;
      let b := mkBlockStore (Kind b) (BlockSize b) (delete volumeId (Volumes b)) in
      SaveConfig configFile b
  end.

(** *** Snapshot backup *)

(** The inner loop over the blocks of one extent [d]: [n] iterations are
    left and [i] is the loop counter. A dedup hit [continue]s. *)
Fixpoint backupBlocks (bsDriver : BlockStoreDriver R) (sDriver : Driver Src)
    (snapshotId volumeId : string) (d : metadata.Mapping) (deltaBlockSize : Z)
    (n : nat) (i : Z) (block : list byte) (blocks : list BlockMapping)
    : M (list BlockMapping) :=
  match n with
  | O => mret blocks
  | S n' =>
      let offset := wrap64 (metadata.Offset d + i * deltaBlockSize) in
      block ← callReadSnapshot sDriver snapshotId volumeId offset block;
      checksum ← orPanic (blockChecksum block);
      '(path, fileName) ← orPanic (getBlockPathAndFileName volumeId checksum);
      size ← callFileSize bsDriver path fileName;
      if 0 <=? size then
        backupBlocks bsDriver sDriver snapshotId volumeId d deltaBlockSize n' (i + 1) block blocks
      else
        callMkDirAll bsDriver path ;;
        callWrite bsDriver block path fileName ;;
        let blockMapping := mkBlockMapping offset checksum in
        backupBlocks bsDriver sDriver snapshotId volumeId d deltaBlockSize n' (i + 1) block
          (blocks ++ [blockMapping])
  end.

(** The outer loop over the dirty extents. The loop bound
    [d.Size/uint64(delta.BlockSize)] panics on a zero block size. *)
Fixpoint backupExtents (bsDriver : BlockStoreDriver R) (sDriver : Driver Src)
    (snapshotId volumeId : string) (blockSize deltaBlockSize : Z)
    (mappings : list metadata.Mapping) (blocks : list BlockMapping)
    : M (list BlockMapping) :=
  match mappings with
  | [] => mret blocks
  | d :: rest =>
      let block := replicate (Z.to_nat blockSize) x00 in
      count ← (if deltaBlockSize =? 0 then panic
               else mret (metadata.Size d / deltaBlockSize));
      blocks ← backupBlocks bsDriver sDriver snapshotId volumeId d deltaBlockSize
                 (Z.to_nat count) 0 block blocks;
      backupExtents bsDriver sDriver snapshotId volumeId blockSize deltaBlockSize rest blocks
  end.

(** Loading the manifest of the last snapshot, when there is one. *)
Definition loadLastSnapshotMap (bsDriver : BlockStoreDriver R)
    (volumeId lastSnapshotId : string) : M SnapshotMap :=
  if decide (lastSnapshotId ≠ EmptyString) then
    let path := getSnapshotsPath volumeId in
    let fileName := getSnapshotConfigName lastSnapshotId in
    fileSize ← callFileSize bsDriver path fileName;
    if fileSize <? 0 then
      fail ("Last snapshot " +:+ lastSnapshotId +:+ " doesn't existed in blockstore")
    else
      let data := replicate (Z.to_nat fileSize) x00 in
      data ← callRead bsDriver path fileName data;
      match Unmarshal_SnapshotMap data with
      | inl e => fail e
      | inr lastSnapshotMap => mret lastSnapshotMap
      end
  else mret (mkSnapshotMap EmptyString []).

Definition BackupSnapshot (root snapshotId volumeId blockstoreId : string)
    (sDriver : Driver Src) : M unit :=
  let configFile := getConfigFilename root blockstoreId in
  b ← LoadConfig configFile;
  let driverConfigFile := getDriverConfigFilename root (Kind b) blockstoreId in
  bsDriver ← GetBlockStoreDriver (Kind b) driverConfigFile blockstoreId None;
  match Volumes b !! volumeId with
  | None => fail ("cannot find volume " +:+ volumeId +:+ " in blockstore " +:+ blockstoreId)
  | Some volume =>
      let lastSnapshotId := LastSnapshotId volume in
      lastSnapshotMap ← loadLastSnapshotMap bsDriver volumeId lastSnapshotId;
      delta ← callCompareSnapshot sDriver snapshotId lastSnapshotId volumeId;
      if decide (metadata.BlockSize delta ≠ BlockSize b) then
        fail "Currently doesn't support different block sizes between blockstore and driver"
      else
        blocks ← backupExtents bsDriver sDriver snapshotId volumeId (BlockSize b)
                   (metadata.BlockSize delta) (metadata.Mappings_ delta) [];
        let snapshotDeltaMap := mkSnapshotMap EmptyString blocks in
        let snapshotMap := mergeSnapshotMap snapshotId snapshotDeltaMap lastSnapshotMap in
        let path := getSnapshotsPath volumeId in
        let fileName := getSnapshotConfigName snapshotId in
        existed ← callFileExists bsDriver path fileName;
        (if (existed : bool) then callRemoveAll bsDriver (filepath.Join [path; fileName])
         else mret tt) ;;
        j ← jsonMarshal Marshal_SnapshotMap snapshotMap;
        callWrite bsDriver j path fileName ;;
        (* [volume] is a copy of the map entry: the assignment does not
           reach [b.Volumes]. *)
        let volume := mkVolume (Size volume) (Base volume) snapshotId in
        SaveConfig configFile b
  end.

(** *** The mutating entry points as one type of operation *)

Inductive Op : Type :=
| OpAddVolume (root id volumeId base : string) (size : Z)
| OpRemoveVolume (root id volumeId : string)
| OpBackupSnapshot (root snapshotId volumeId blockstoreId : string) (sDriver : Driver Src).

Definition exec (op : Op) : M unit :=
  match op with
  | OpAddVolume root id volumeId base size => AddVolume root id volumeId base size
  | OpRemoveVolume root id volumeId => RemoveVolume root id volumeId
  | OpBackupSnapshot root snapshotId volumeId blockstoreId sDriver =>
      BackupSnapshot root snapshotId volumeId blockstoreId sDriver
  end.

(** A caller issuing operations one after the other, whatever each returns. *)
Fixpoint execAll (ops : list Op) (w : World) : World :=
  match ops with
  | [] => w
  | op :: rest => execAll rest (exec op w).2
  end.

End Engine.

(** ** Definitions used to state the properties *)

(** What the loop appends from position [(d, l)] on, by recursion on the
    remainders of the two block lists. *)
Fixpoint mergeRest (ds : list BlockMapping) : list BlockMapping → list BlockMapping :=
  fix inner (ls : list BlockMapping) : list BlockMapping :=
    match ds, ls with
    | dB :: ds', lB :: ls' =>
        if Offset dB =? Offset lB then dB :: mergeRest ds' ls'
        else if Offset dB <? Offset lB then dB :: mergeRest ds' ls
        else lB :: inner ls'
    | _, _ => []
    end.

(** Strictly increasing offsets: the order of a manifest. *)
Definition ascending (bs : list BlockMapping) : Prop :=
  StronglySorted Z.lt (Offset <$> bs).

(** Is this call a save of a local blockstore record? *)
Definition is_save (e : Event) : bool :=
  match e with
  | ESaveConfig _ _ _ => true
  | _ => false
  end.

(** Does this call touch a block: read it from the source, or create a
    directory or an object on the remote side? *)
Definition touches_block (e : Event) : bool :=
  match e with
  | EReadSnapshot _ _ _ _ | EMkDirAll _ _ | EWrite _ _ _ _ => true
  | _ => false
  end.

(** The persisted last snapshot id of a volume, read off the local disk. *)
Definition persistedLastSnapshotId (d : gmap string BlockStore) (configFile volumeId : string)
    : option string :=
  b ← d !! configFile; v ← Volumes b !! volumeId; Some (LastSnapshotId v).

(** ** Relations between the world before and after a run *)

(** In a run of calls, every save of the local record comes directly
    after a successful write of [name] under [path]. *)
Definition follows_write (path name : string) (evs : list Event) : Prop :=
  ∀ i f b err, evs !! i = Some (ESaveConfig f b err) →
    ∃ i' j, i = Datatypes.S i' ∧ evs !! i' = Some (EWrite j path name None).

Section Relations.

Context {R Src : Type}.

(** [m] relates every world to the world it leaves. *)
Definition keeps {A} (I : @World R Src → @World R Src → Prop) (m : @M R Src A) : Prop :=
  ∀ w, I w (m w).2.

(** A relation that holds across doing nothing, composes, and holds
    across every logged call that is not a save of the local record. *)
Class Frame (I : @World R Src → @World R Src → Prop) : Prop := {
  frame_refl : ∀ w, I w w;
  frame_trans : ∀ w1 w2 w3, I w1 w2 → I w2 w3 → I w1 w3;
  frame_remote : ∀ w e st, is_save e = false → I w (record e (set_remote st w));
  frame_source : ∀ w e st, is_save e = false → I w (record e (set_source st w));
  frame_record : ∀ w e, is_save e = false → I w (record e w);
}.

(** [m] returns a value or an error, never a run-time panic. *)
Definition never_panics {A} (m : @M R Src A) : Prop :=
  ∀ w, (m w).1 ≠ Panic.

(** The calls made since [w] all satisfy [P]. *)
Definition logged (P : Event → Prop) (w w' : @World R Src) : Prop :=
  ∃ evs, calls w' = calls w ++ evs ∧ Forall P evs.

(** The local disk is as in [w], or differs by one record [b] with
    [P b] stored in [file]. *)
Definition saved (file : string) (P : BlockStore → Prop) (w w' : @World R Src) : Prop :=
  disk w' = disk w ∨ ∃ b, P b ∧ disk w' = <[file := b]> (disk w).

(** Since [w], every save came directly after a successful write of
    [name] under [path]. *)
Definition ordered (path name : string) (w w' : @World R Src) : Prop :=
  ∃ evs, calls w' = calls w ++ evs ∧ follows_write path name evs.

(** Both relations at once. *)
Definition both (I1 I2 : @World R Src → @World R Src → Prop) (w w' : @World R Src) : Prop :=
  I1 w w' ∧ I2 w w'.

(** From the world before an operation to the world after it: block
    sizes on the local disk are as they were, and every save made in
    between wrote a block size that was on the disk, in that file. *)
Definition block_sizes_kept (w w' : @World R Src) : Prop :=
  (∀ f b', disk w' !! f = Some b' → ∃ b, disk w !! f = Some b ∧ BlockSize b' = BlockSize b) ∧
  ∃ evs, calls w' = calls w ++ evs ∧
    ∀ f b' err, ESaveConfig f b' err ∈ evs →
      ∃ b, disk w !! f = Some b ∧ BlockSize b' = BlockSize b.

End Relations.

(** Every character of [s] satisfies [p]. *)
Fixpoint all_chars (p : ascii → bool) (s : string) : bool :=
  match s with
  | EmptyString => true
  | String c rest => p c && all_chars p rest
  end.

Definition is_lower_hex (c : ascii) : bool :=
  let n := N_of_ascii c in
  ((48 <=? n) && (n <=? 57) || (97 <=? n) && (n <=? 102))%N.

Definition not_separator (c : ascii) : bool := negb (Ascii.eqb c filepath.Separator).

(** An identifier in the sense of the data model: no path separator. *)
Definition identifier (s : string) : Prop := all_chars not_separator s = true.

(** A path element that [filepath.Clean] keeps as it is. *)
Definition plain (e : string) : Prop :=
  e ≠ EmptyString ∧ e ≠ "." ∧ e ≠ ".." ∧ all_chars not_separator e = true.

(** The digest in the words of the specification: the lower-case
    hexadecimal rendering of SHA-512, cut to its first 64 characters; and
    the rendering of the 256-bit prefix of SHA-512. *)
Definition lower_hex_digit (n : N) : ascii :=
  if (n <? 10)%N then ascii_of_N (48 + n) else ascii_of_N (87 + n).

Definition lower_hex (bs : list byte) : string :=
  fold_right (λ b s, String (lower_hex_digit (Byte.to_N b / 16))
                       (String (lower_hex_digit (Byte.to_N b mod 16)) s))
             EmptyString bs.

Definition spec_digest (block : list byte) : string :=
  substring 0 64 (lower_hex (sha512.Sum512 block)).

Definition spec_digest_256 (block : list byte) : string :=
  lower_hex (take 32 (sha512.Sum512 block)).

(** ** In-memory collaborators

    Reference implementations of the two driver interfaces and of the
    serialisation, used to run the package on concrete worlds. *)
Module Testbed.

(** A remote store: file contents by cleaned full name. *)
Abbreviation Store := (gmap string (list byte)).

Definition fullName (path name : string) : string := filepath.Join [path; name].

Definition memDriver : BlockStoreDriver Store :=
  {| FileExists path name st := (bool_decide (is_Some (st !! fullName path name)), st);
     FileSize path name st :=
       (match st !! fullName path name with
        | Some data => Z.of_nat (length data)
        | None => -1
        end, st);
     MkDirAll dir st := (None, st);
     RemoveAll name st :=
       (None, filter (λ kv, ¬ (kv.1 = filepath.Clean name
                               ∨ String.prefix (filepath.Clean name +:+ "/") kv.1 = true)) st);
     Read path name data st :=
       (match st !! fullName path name with
        | Some content =>
            if decide (length content = length data) then (None, content)
            else (Some "read: buffer and file differ in size", [])
        | None => (Some "read: no such file", [])
        end, st);
     Write data path name st := (None, <[fullName path name := data]> st) |}.

Definition memInit : InitFunc Store := λ _ _ _, inr memDriver.

(** A snapshot source that answers every comparison with [delta] and
    every read with [content offset len]. *)
Definition tableSource (delta : metadata.Mappings) (content : Z → nat → list byte)
    : Driver unit :=
  {| CompareSnapshot _ _ _ s := ((None, delta), s);
     ReadSnapshot _ _ offset buf s := ((None, content offset (length buf)), s) |}.

Definition zeros (_ : Z) (len : nat) : list byte := replicate len x00.

(** JSON text for the two record types, and a reader for exactly the
    text the writer produces (identifiers and digests without quotes or
    escapes). *)
Definition dq : string := String (ascii_of_nat 34) EmptyString.

Definition quoted (s : string) : string := dq +:+ s +:+ dq.

Definition field (name value : string) : string := quoted name +:+ ":" +:+ value.

Definition decimal (z : Z) : string := NilZero.string_of_uint (N.to_uint (Z.to_N z)).

Definition encodeBlockMapping (m : BlockMapping) : string :=
  "{" +:+ field "Offset" (decimal (Offset m)) +:+ "," +:+ field "Block" (quoted (Block m)) +:+ "}".

Fixpoint commaSep (items : list string) : string :=
  match items with
  | [] => EmptyString
  | x :: rest =>
      match rest with
      | [] => x
      | _ :: _ => x +:+ "," +:+ commaSep rest
      end
  end.

Definition encodeSnapshotMap (m : SnapshotMap) : string :=
  "{" +:+ field "Id" (quoted (Id m)) +:+ "," +:+
  field "Blocks" ("[" +:+ commaSep (encodeBlockMapping <$> Blocks m) +:+ "]") +:+ "}".

Definition encodeVolume (v : Volume) : string :=
  "{" +:+ field "Size" (decimal (Size v)) +:+ "," +:+ field "Base" (quoted (Base v)) +:+ "," +:+
  field "LastSnapshotId" (quoted (LastSnapshotId v)) +:+ "}".

Fixpoint expect (lit s : string) : option string :=
  match lit with
  | EmptyString => Some s
  | String c lit' =>
      match s with
      | String c' s' => if Ascii.eqb c c' then expect lit' s' else None
      | EmptyString => None
      end
  end.

Fixpoint untilQuote (s : string) : option (string * string) :=
  match s with
  | EmptyString => None
  | String c s' =>
      if Ascii.eqb c (ascii_of_nat 34) then Some (EmptyString, s')
      else '(a, r) ← untilQuote s'; Some (String c a, r)
  end.

Definition is_digit (c : ascii) : bool :=
  ((48 <=? N_of_ascii c) && (N_of_ascii c <=? 57))%N.

Fixpoint spanDigits (s : string) : string * string :=
  match s with
  | EmptyString => (EmptyString, EmptyString)
  | String c s' =>
      if is_digit c then let '(a, r) := spanDigits s' in (String c a, r)
      else (EmptyString, s)
  end.

Definition parseNumber (s : string) : option (Z * string) :=
  let '(ds, r) := spanDigits s in
  n ← NilZero.uint_of_string ds;
  if decide (ds = EmptyString) then None else Some (Z.of_uint n, r).

Definition parseBlockMapping (s : string) : option (BlockMapping * string) :=
  s ← expect ("{" +:+ quoted "Offset" +:+ ":") s;
  '(off, s) ← parseNumber s;
  s ← expect ("," +:+ quoted "Block" +:+ ":" +:+ dq) s;
  '(blk, s) ← untilQuote s;
  s ← expect "}" s;
  Some (mkBlockMapping off blk, s).

Fixpoint parseBlockMappings (fuel : nat) (s : string) : option (list BlockMapping * string) :=
  match fuel with
  | O => None
  | S fuel' =>
      '(m, s) ← parseBlockMapping s;
      match expect "," s with
      | Some s' => '(rest, s'') ← parseBlockMappings fuel' s'; Some (m :: rest, s'')
      | None => s' ← expect "]" s; Some ([m], s')
      end
  end.

Definition decodeSnapshotMap (s : string) : option SnapshotMap :=
  s ← expect ("{" +:+ quoted "Id" +:+ ":" +:+ dq) s;
  '(id, s) ← untilQuote s;
  s ← expect ("," +:+ quoted "Blocks" +:+ ":[") s;
  '(blocks, s) ← match expect "]" s with
                 | Some s' => Some ([], s')
                 | None => parseBlockMappings (String.length s) s
                 end;
  s ← expect "}" s;
  if decide (s = EmptyString) then Some (mkSnapshotMap id blocks) else None.

Global Instance textJSON : JSON :=
  {| Marshal_Volume v := inr (list_byte_of_string (encodeVolume v));
     Marshal_SnapshotMap m := inr (list_byte_of_string (encodeSnapshotMap m));
     Unmarshal_SnapshotMap data :=
       match decodeSnapshotMap (string_of_list_byte data) with
       | Some m => inr m
       | None => inl "invalid character in snapshot map"
       end |}.

(** A world with one registered in-memory blockstore kind. *)
Definition world (d : gmap string BlockStore) (st : Store) : @World Store unit :=
  mkWorld {[ "mem" := memInit ]} d (λ _, None) st tt [].

(** Sample worlds: the record of blockstore [bs1] under [/root]. *)
Definition configFile : string := getConfigFilename "/root" "bs1".

(** Freshly registered, nothing remote. *)
Definition registeredWorld : @World Store unit :=
  world {[ configFile := mkBlockStore "mem" DEFAULT_BLOCK_SIZE ∅ ]} ∅.

(** Freshly registered, while the remote side already holds a
    configuration of volume [vol1] written by someone else. *)
Definition occupiedWorld : @World Store unit :=
  world {[ configFile := mkBlockStore "mem" DEFAULT_BLOCK_SIZE ∅ ]}
        {[ "rancher-blockstore/volume/vol1/volume.cfg" :=
             list_byte_of_string (encodeVolume (mkVolume 6291456 EmptyString "snap9")) ]}.

(** Volume [vol1] points at snapshot [snap0], whose manifest is not there. *)
Definition brokenChainWorld : @World Store unit :=
  world {[ configFile := mkBlockStore "mem" DEFAULT_BLOCK_SIZE
                           {[ "vol1" := mkVolume 6291456 EmptyString "snap0" ]} ]} ∅.

(** A blockstore with 4-byte blocks and a 12-byte volume of zeros. *)
Definition smallWorld : @World Store unit :=
  world {[ configFile := mkBlockStore "mem" 4
                           {[ "vol1" := mkVolume 12 EmptyString EmptyString ]} ]} ∅.

Definition smallSource : Driver unit :=
  tableSource (metadata.mkMappings [metadata.mkMapping 0 12] 4) zeros.

(** A source without changes. *)
Definition idleSource : Driver unit :=
  tableSource (metadata.mkMappings [] DEFAULT_BLOCK_SIZE) zeros.

End Testbed.

(** ** The record and the volume an operation works on *)

Section Targets.

Context {Src : Type}.

(** The local record file the operation loads and saves. *)
Definition op_record (op : @Op Src) : string :=
  match op with
  | OpAddVolume root id _ _ _ => getConfigFilename root id
  | OpRemoveVolume root id _ => getConfigFilename root id
  | OpBackupSnapshot root _ _ blockstoreId _ => getConfigFilename root blockstoreId
  end.

(** The volume the operation names. *)
Definition op_volume (op : @Op Src) : string :=
  match op with
  | OpAddVolume _ _ volumeId _ _ => volumeId
  | OpRemoveVolume _ _ volumeId => volumeId
  | OpBackupSnapshot _ _ volumeId _ _ => volumeId
  end.

End Targets.

(** ** The remote side of a backup, read off the call log *)

(** What a backup of snapshot [snapshotId] of volume [volumeId] with
    blocks of [blockSize] bytes may do on the remote side: write the
    manifest of that snapshot, or a block of exactly [blockSize] bytes at
    the location derived from its own digest; create the directory of a
    block location; remove the manifest of that snapshot. *)
Definition backup_footprint (blockSize : Z) (snapshotId volumeId : string) (e : Event) : Prop :=
  match e with
  | EWrite data path name _ =>
      (path = getSnapshotsPath volumeId ∧ name = getSnapshotConfigName snapshotId) ∨
      (length data = Z.to_nat blockSize ∧
       ∃ c, blockChecksum data = Some c ∧ getBlockPathAndFileName volumeId c = Some (path, name))
  | EMkDirAll dir _ =>
      ∃ c name, getBlockPathAndFileName volumeId c = Some (dir, name)
  | ERemoveAll name _ =>
      name = filepath.Join [getSnapshotsPath volumeId; getSnapshotConfigName snapshotId]
  | _ => True
  end.

(** The entries of the blocks uploaded in a run of calls: one for each
    successful write, made of the offset of the last block read before it
    ([offset] when there was none) and the digest of the bytes written. *)
Fixpoint uploaded (offset : Z) (evs : list Event) : list BlockMapping :=
  match evs with
  | [] => []
  | EReadSnapshot _ _ o _ :: rest => uploaded o rest
  | EWrite data _ _ None :: rest =>
      match blockChecksum data with
      | Some c => mkBlockMapping offset c :: uploaded offset rest
      | None => uploaded offset rest
      end
  | _ :: rest => uploaded offset rest
  end.

(** ** Registration of a blockstore *)

Section LocalRoot.

Context {R Src : Type}.

(** The local root as [Register] and [Deregister] see it. Beside the
    blockstore records of [World] it holds the config files that the
    driver constructors keep there; this package only tests for them and
    removes them. What a constructor that was called with a config does
    to these files is its own business: [constructed kind configFile] is
    any function on the set of their names. [rmFault] names the files
    that [rm -f] fails on. *)
Record Host := mkHost {
  world : @World R Src;
  driverFiles : gset string;
  constructed : string → string → gset string → gset string;
  rmFault : string → option string;
}.

Definition set_world (w : @World R Src) (h : Host) : Host :=
  mkHost w (driverFiles h) (constructed h) (rmFault h).

(** [_, err := os.Stat(name); err == nil]: there is a file of that name,
    a driver config file or a record. *)
Definition osStat (name : string) (h : Host) : bool :=
  bool_decide (name ∈ driverFiles h ∨ is_Some (disk (world h) !! name)).

(** [exec.Command("rm", "-f", name).Run()]: the file is gone afterwards,
    whether it was there or not, unless the command fails. *)
Definition rmForce (name : string) (h : Host) : outcome unit * Host :=
  match rmFault h name with
  | Some e => (Err e, h)
  | None =>
      (Ok tt, mkHost (set_disk (delete name (disk (world h))) (world h))
                     (driverFiles h ∖ {[name]}) (constructed h) (rmFault h))
  end.

(** [GetBlockStoreDriver] called with a config: the constructor of the
    kind, when there is one, runs on the local root. *)
Definition construct (kind configFile id : string) (config : gmap string string) (h : Host)
    : outcome (BlockStoreDriver R) * Host :=
  let '(res, w) := GetBlockStoreDriver kind configFile id (Some config) (world h) in
  let files := match initializers (world h) !! kind with
               | Some _ => constructed h kind configFile (driverFiles h)
               | None => driverFiles h
               end in
  (res, mkHost w files (constructed h) (rmFault h)).

Definition removeDriverConfigFile (root kind id : string) (h : Host) : outcome unit * Host :=
  let configFile := getDriverConfigFilename root kind id in
  rmForce configFile h.

Definition removeConfigFile (root id : string) (h : Host) : outcome unit * Host :=
  let configFile := getConfigFilename root id in
  rmForce configFile h.

Definition Register (root kind id : string) (config : gmap string string) (h : Host)
    : outcome unit * Host :=
  let configFile := getDriverConfigFilename root kind id in
  if osStat configFile h then
    (Err ("BlockStore " +:+ id +:+ " is already registered"), h)
  else
    match construct kind configFile id config h with
    | (Ok driver, h) =>
        let basePath := filepath.Join [BLOCKSTORE_BASE; VOLUME_DIRECTORY] in
        match callMkDirAll driver basePath (world h) with
        | (Ok _, w) =>
            let bs := mkBlockStore kind DEFAULT_BLOCK_SIZE ∅ in
            let configFile := getConfigFilename root id in
            let '(res, w) := SaveConfig configFile bs w in
            (res, set_world w h)
        | (Err e, w) =>
            (* the result of the removal is dropped *)
            (Err e, (removeDriverConfigFile root kind id (set_world w h)).2)
        | (Panic, w) => (Panic, set_world w h)
        end
    | (Err e, h) => (Err e, h)
    | (Panic, h) => (Panic, h)
    end.

Definition Deregister (root kind id : string) (h : Host) : outcome unit * Host :=
  match removeDriverConfigFile root kind id h with
  | (Ok _, h) => removeConfigFile root id h
  | (Err e, h) => (Err e, h)
  | (Panic, h) => (Panic, h)
  end.

End LocalRoot.

(** ** A local root for the sample worlds *)

Module Testhost.

(** A local root over the world [w] with the driver config files
    [files]; constructors keep their config file, [rm -f] works. *)
Definition host (w : @World Testbed.Store unit) (files : gset string)
    : @Host Testbed.Store unit :=
  mkHost w files (λ _ configFile fs, fs ∪ {[configFile]}) (λ _, None).

(** Nothing registered under the root, nothing remote. *)
Definition emptyHost : @Host Testbed.Store unit := host (Testbed.world ∅ ∅) ∅.

End Testhost.

(** * Properties *)

(** ** The library models on known values *)

Example sha512_abc :
  hex.EncodeToString (sha512.Sum512 (bytes_of_string "abc")) =
  "ddaf35a193617abacc417349ae20413112e6fa4e89a97ea20a9eeee64b55d39a2192992a274fc1a836ba3c23a3feebbd454d4423643ce80e2a9ac94fa54ca49f"%string.
Proof. vm_compute. reflexivity. Qed.

Example sha512_empty :
  hex.EncodeToString (sha512.Sum512 []) =
  "cf83e1357eefb8bdf1542850d66d8007d620e4050b5715dc83f4a921d36ce9ce47d0d13c5d85f2b0ff8318d2877eec2f63b931bd47417a81a538327af927da3e"%string.
Proof. vm_compute. reflexivity. Qed.

Example sha512_two_blocks :
  hex.EncodeToString (sha512.Sum512 (bytes_of_string
    "abcdefghbcdefghicdefghijdefghijkefghijklfghijklmghijklmnhijklmnoijklmnopjklmnopqklmnopqrlmnopqrsmnopqrstnopqrstu")) =
  "8e959b75dae313da8cf4f72814fc143f8f7779c6eb9f7fa17299aeadb6889018501d289e4900f7e4331b99dec4b5433ac7d329eeb6dd26545e96e55b874be909"%string.
Proof. vm_compute. reflexivity. Qed.

Example Clean_examples :
  filepath.Clean "a//b/./c/.." = "a/b" ∧ filepath.Clean "/../a" = "/a" ∧
  filepath.Clean "../../x" = "../../x" ∧ filepath.Clean EmptyString = "." ∧
  filepath.Clean "/" = "/" ∧ filepath.Clean "a/.." = "." ∧
  filepath.Join ["a"; EmptyString; "b/"] = "a/b" ∧ filepath.Join [EmptyString; EmptyString] = EmptyString.
Proof. repeat split; reflexivity. Qed.

(** ** The merge loop as a function on the two remaining lists *)
Lemma mergeRest_nil_r ds : mergeRest ds [] = [].
Proof. by destruct ds. Qed.

Lemma mergeRest_nil_l ls : mergeRest [] ls = [].
Proof. by destruct ls. Qed.

Lemma mergeLoop_mergeRest fuel : ∀ ds ls d l acc,
  (length ds - d + (length ls - l) ≤ fuel)%nat →
  mergeLoop fuel ds ls d l acc = acc ++ mergeRest (drop d ds) (drop l ls).
Proof.
  induction fuel as [|fuel IH]; intros ds ls d l acc Hfuel.
  - simpl. rewrite (drop_ge ds d) by lia. by rewrite mergeRest_nil_l, app_nil_r.
  - simpl. destruct (ds !! d) as [dB|] eqn:Hd.
    + destruct (ls !! l) as [lB|] eqn:Hl.
      * pose proof (lookup_lt_Some _ _ _ Hd). pose proof (lookup_lt_Some _ _ _ Hl).
        rewrite (drop_S ds dB d Hd), (drop_S ls lB l Hl). simpl.
        destruct (Offset dB =? Offset lB); [|destruct (Offset dB <? Offset lB)].
        -- rewrite IH by (simpl; lia). by rewrite <- app_assoc.
        -- rewrite IH by (simpl; lia). rewrite <- app_assoc. simpl.
           by rewrite (drop_S ls lB l Hl).
        -- rewrite IH by (simpl; lia). rewrite <- app_assoc. simpl.
           by rewrite (drop_S ds dB d Hd).
      * apply lookup_ge_None in Hl. rewrite (drop_ge ls l) by lia.
        by rewrite mergeRest_nil_r, app_nil_r.
    + apply lookup_ge_None in Hd. rewrite (drop_ge ds d) by lia.
      by rewrite mergeRest_nil_l, app_nil_r.
Qed.

(** The loop leaves through its guard, never through the iteration bound:
    more fuel changes nothing. *)
Lemma mergeLoop_fuel ds ls extra :
  mergeLoop (length ds + length ls + extra) ds ls 0 0 [] =
  mergeLoop (length ds + length ls) ds ls 0 0 [].
Proof. rewrite !mergeLoop_mergeRest by lia. done. Qed.

Lemma mergeSnapshotMap_blocks id delta last :
  Blocks (mergeSnapshotMap id delta last) =
  match Blocks last with
  | [] => Blocks delta
  | _ :: _ => mergeRest (Blocks delta) (Blocks last)
  end.
Proof.
  unfold mergeSnapshotMap. destruct (Blocks last) as [|lB ls] eqn:Hl.
  - by rewrite decide_True.
  - rewrite decide_False by (simpl; lia). simpl Blocks.
    rewrite mergeLoop_mergeRest by (simpl; lia). by rewrite !drop_0.
Qed.

Lemma mergeSnapshotMap_id id delta last : Id (mergeSnapshotMap id delta last) = id.
Proof. unfold mergeSnapshotMap. by case_decide. Qed.

Lemma ascending_cons b bs :
  ascending (b :: bs) ↔ ascending bs ∧ ∀ x, x ∈ bs → Offset b < Offset x.
Proof.
  unfold ascending. rewrite fmap_cons. split.
  - intros H. apply StronglySorted_inv in H as [Hs Hall]. split; [done|].
    intros x Hx. rewrite Forall_forall in Hall. apply Hall.
    apply list_elem_of_fmap. eauto.
  - intros [Hs Hall]. constructor; [done|]. rewrite Forall_forall.
    intros o Ho. apply list_elem_of_fmap in Ho as (x & -> & Hx). auto.
Qed.

Lemma mergeRest_elem ds : ∀ ls x, x ∈ mergeRest ds ls → x ∈ ds ∨ x ∈ ls.
Proof.
  induction ds as [|dB ds IHd]; intros ls; [by simpl; intros x Hx; destruct ls; inversion Hx|].
  induction ls as [|lB ls IHl]; intros x Hx; [inversion Hx|].
  simpl in Hx. destruct (Offset dB =? Offset lB); [|destruct (Offset dB <? Offset lB)].
  - apply elem_of_cons in Hx as [->|Hx]; [left; left|].
    destruct (IHd _ _ Hx); [left|right]; by right.
  - apply elem_of_cons in Hx as [->|Hx]; [left; left|].
    destruct (IHd _ _ Hx); [left; by right|by right].
  - apply elem_of_cons in Hx as [->|Hx]; [right; left|].
    destruct (IHl _ Hx); [by left|right; by right].
Qed.

Lemma mergeRest_ascending ds : ∀ ls,
  ascending ds → ascending ls → ascending (mergeRest ds ls).
Proof.
  induction ds as [|dB ds IHd]; intros ls; [intros; destruct ls; constructor|].
  induction ls as [|lB ls IHl]; intros Hd Hl; [constructor|].
  pose proof Hd as Hd0. pose proof Hl as Hl0.
  apply ascending_cons in Hd as [Hd Hdlt]. apply ascending_cons in Hl as [Hl Hllt].
  simpl. destruct (Offset dB =? Offset lB) eqn:He;
    [apply Z.eqb_eq in He|apply Z.eqb_neq in He; destruct (Offset dB <? Offset lB) eqn:Hlt;
       [apply Z.ltb_lt in Hlt|apply Z.ltb_ge in Hlt]].
  - apply ascending_cons. split; [by apply IHd|].
    intros x Hx. apply mergeRest_elem in Hx as [Hx|Hx]; [by apply Hdlt|].
    rewrite He. by apply Hllt.
  - apply ascending_cons. split; [by apply IHd|].
    intros x Hx. apply mergeRest_elem in Hx as [Hx|Hx]; [by apply Hdlt|].
    apply elem_of_cons in Hx as [->|Hx]; [done|]. specialize (Hllt _ Hx). lia.
  - apply ascending_cons. split; [by apply IHl|].
    intros x Hx. apply (mergeRest_elem (dB :: ds)) in Hx as [Hx|Hx]; [|by apply Hllt].
    apply elem_of_cons in Hx as [->|Hx]; [lia|]. specialize (Hdlt _ Hx). lia.
Qed.

(** An offset present on both sides is emitted, from the delta side. *)
Lemma mergeRest_common ds : ∀ ls dB0 lB0,
  ascending ds → ascending ls →
  dB0 ∈ ds → lB0 ∈ ls → Offset dB0 = Offset lB0 →
  dB0 ∈ mergeRest ds ls.
Proof.
  induction ds as [|dB ds IHd]; intros ls; [intros ? ? _ _ H; inversion H|].
  induction ls as [|lB ls IHl]; intros dB0 lB0 Hd Hl Hd0 Hl0 Heq; [inversion Hl0|].
  pose proof Hd as Hd'. pose proof Hl as Hl'.
  apply ascending_cons in Hd as [Hd Hdlt]. apply ascending_cons in Hl as [Hl Hllt].
  simpl. destruct (Offset dB =? Offset lB) eqn:He;
    [apply Z.eqb_eq in He|apply Z.eqb_neq in He; destruct (Offset dB <? Offset lB) eqn:Hlt;
       [apply Z.ltb_lt in Hlt|apply Z.ltb_ge in Hlt]].
  - apply elem_of_cons in Hd0 as [->|Hd0]; [left|].
    apply elem_of_cons in Hl0 as [->|Hl0]; [specialize (Hdlt _ Hd0); lia|].
    right. by apply (IHd ls dB0 lB0).
  - apply elem_of_cons in Hd0 as [->|Hd0]; [left|].
    right. by apply (IHd (lB :: ls) dB0 lB0).
  - apply elem_of_cons in Hl0 as [->|Hl0].
    + apply elem_of_cons in Hd0 as [->|Hd0]; [lia|]. specialize (Hdlt _ Hd0). lia.
    + right. by apply (IHl dB0 lB0).
Qed.

Lemma ascending_unique bs x y :
  ascending bs → x ∈ bs → y ∈ bs → Offset x = Offset y → x = y.
Proof.
  induction bs as [|b bs IH]; intros Hs Hx Hy Heq; [inversion Hx|].
  apply ascending_cons in Hs as [Hs Hlt].
  apply elem_of_cons in Hx as [->|Hx]; apply elem_of_cons in Hy as [->|Hy]; try done.
  - specialize (Hlt _ Hy). lia.
  - specialize (Hlt _ Hx). lia.
  - by apply IH.
Qed.

(** ** Snapshot map merge: shadowing and order (C6), the missing tail (C1) *)

(** C6. For snapshot maps [delta] and [last] whose offsets are ascending
    (strictly increasing, the order of a manifest), an offset present in
    both inputs is emitted by [mergeSnapshotMap] with the delta's entry and
    with no other entry (the last map's entry at that offset is passed
    over); every emitted entry comes from one of the inputs, and the
    emitted sequence is ascending by offset, hence without duplicate
    offsets. *)
Theorem mergeSnapshotMap_delta_shadows (id : string) (delta last : SnapshotMap) :
  ascending (Blocks delta) → ascending (Blocks last) →
  let out := Blocks (mergeSnapshotMap id delta last) in
  (∀ dB lB, dB ∈ Blocks delta → lB ∈ Blocks last → Offset dB = Offset lB →
     dB ∈ out ∧ ∀ e, e ∈ out → Offset e = Offset dB → e = dB) ∧
  (∀ e, e ∈ out → e ∈ Blocks delta ∨ e ∈ Blocks last) ∧
  ascending out ∧ NoDup (Offset <$> out).
Proof.
  intros Hd Hl out.
  assert (Hin : ∀ e, e ∈ out → e ∈ Blocks delta ∨ e ∈ Blocks last).
  { intros e. unfold out. rewrite mergeSnapshotMap_blocks.
    destruct (Blocks last); [by left|]. apply mergeRest_elem. }
  assert (Hasc : ascending out).
  { unfold out. rewrite mergeSnapshotMap_blocks.
    destruct (Blocks last) eqn:E; [done|]. rewrite <- E in *. by apply mergeRest_ascending. }
  repeat split; try done.
  - unfold out. rewrite mergeSnapshotMap_blocks.
    destruct (Blocks last) eqn:E; [by inversion H0|]. rewrite <- E in *.
    by apply (mergeRest_common _ _ dB lB).
  - intros e He Hoff. apply (ascending_unique out); try done.
    unfold out. rewrite mergeSnapshotMap_blocks.
    destruct (Blocks last) eqn:E; [by inversion H0|]. rewrite <- E in *.
    by apply (mergeRest_common _ _ dB lB).
  - clear Hin. unfold ascending in Hasc. induction Hasc as [|o os Hs IH Hall]; constructor.
    + intros Ho. rewrite Forall_forall in Hall. specialize (Hall _ Ho). lia.
    + done.
Qed.

(** The inputs of the second scenario of the specification: the block at
    2 MiB rewritten. *)
Lemma mergeSnapshotMap_delta_shadows_witness :
  let delta := mkSnapshotMap EmptyString [mkBlockMapping 2097152 "x"] in
  let last := mkSnapshotMap "s1" [mkBlockMapping 0 "z"; mkBlockMapping 2097152 "z";
                                  mkBlockMapping 4194304 "z"] in
  let out := Blocks (mergeSnapshotMap "s2" delta last) in
  (∀ dB lB, dB ∈ Blocks delta → lB ∈ Blocks last → Offset dB = Offset lB →
     dB ∈ out ∧ ∀ e, e ∈ out → Offset e = Offset dB → e = dB) ∧
  (∀ e, e ∈ out → e ∈ Blocks delta ∨ e ∈ Blocks last) ∧
  ascending out ∧ NoDup (Offset <$> out).
Proof.
  apply (mergeSnapshotMap_delta_shadows "s2"); unfold ascending; simpl;
    repeat (constructor; try lia).
Defined.

(** C1. The loop of [mergeSnapshotMap] stops as soon as one side is
    exhausted and nothing appends the remainder of the other side. On the
    merge-tail scenario of the specification, last = [(0,a); (2M,b); (4M,c)]
    and delta = [(6M,d)], the result is [(0,a); (2M,b); (4M,c)]: the delta's
    offset 6 MiB has no entry. With an empty delta, every block of a
    non-empty last map is lost; with delta = [(2M,x)] the last map's block
    at 4 MiB is lost. *)
Theorem mergeSnapshotMap_drops_tail :
  let last := mkSnapshotMap "s1" [mkBlockMapping 0 "a"; mkBlockMapping 2097152 "b";
                                  mkBlockMapping 4194304 "c"] in
  let delta := mkSnapshotMap EmptyString [mkBlockMapping 6291456 "d"] in
  ascending (Blocks delta) ∧ ascending (Blocks last) ∧
  Blocks (mergeSnapshotMap "s2" delta last) =
    [mkBlockMapping 0 "a"; mkBlockMapping 2097152 "b"; mkBlockMapping 4194304 "c"] ∧
  (6291456 ∉ Offset <$> Blocks (mergeSnapshotMap "s2" delta last)) ∧
  Blocks (mergeSnapshotMap "s2" (mkSnapshotMap EmptyString []) last) = [] ∧
  Blocks (mergeSnapshotMap "s2" (mkSnapshotMap EmptyString [mkBlockMapping 2097152 "x"])
            last) = [mkBlockMapping 0 "a"; mkBlockMapping 2097152 "x"].
Proof.
  repeat split; try reflexivity.
  - unfold ascending; simpl; repeat (constructor; try lia).
  - unfold ascending; simpl; repeat (constructor; try lia).
  - simpl. intros H. repeat (apply elem_of_cons in H as [H|H]; [discriminate H|]).
    inversion H.
Qed.

(** What the loop does emit: the merge of the two sides up to the point
    where the first of them ends. With a non-empty last map, no emitted
    offset lies beyond the largest offset of the last map or beyond the
    largest offset of the delta. *)
Lemma mergeRest_bounded ds : ∀ ls x,
  ascending ds → ascending ls → x ∈ mergeRest ds ls →
  (∃ d, d ∈ ds ∧ Offset x ≤ Offset d) ∧ (∃ l, l ∈ ls ∧ Offset x ≤ Offset l).
Proof.
  induction ds as [|dB ds IHd]; intros ls; [intros x _ _ H; destruct ls; inversion H|].
  induction ls as [|lB ls IHl]; intros x Hd Hl Hx; [inversion Hx|].
  pose proof Hd as Hd'. pose proof Hl as Hl'.
  apply ascending_cons in Hd as [Hd Hdlt]. apply ascending_cons in Hl as [Hl Hllt].
  simpl in Hx. destruct (Offset dB =? Offset lB) eqn:He;
    [apply Z.eqb_eq in He|apply Z.eqb_neq in He; destruct (Offset dB <? Offset lB) eqn:Hlt;
       [apply Z.ltb_lt in Hlt|apply Z.ltb_ge in Hlt]].
  - apply elem_of_cons in Hx as [->|Hx].
    + split; [exists dB|exists lB]; split; try left; lia.
    + destruct (IHd ls x Hd Hl Hx) as [(d & ? & ?) (l & ? & ?)].
      split; [exists d|exists l]; (split; [first [done|by right]|done]).
  - apply elem_of_cons in Hx as [->|Hx].
    + split; [exists dB|exists lB]; split; try left; lia.
    + destruct (IHd (lB :: ls) x Hd Hl' Hx) as [(d & ? & ?) (l & ? & ?)].
      split; [exists d|exists l]; (split; [first [done|by right]|done]).
  - apply elem_of_cons in Hx as [->|Hx].
    + split; [exists dB|exists lB]; split; try left; lia.
    + destruct (IHl x Hd' Hl Hx) as [(d & ? & ?) (l & ? & ?)].
      split; [exists d|exists l]; (split; [first [done|by right]|done]).
Qed.

(** ** Driver registry (C9) *)

Section Registry.

Context {R Src : Type}.

(** C9. [RegisterDriver] returns an error when the kind is already in the
    initializer map and then leaves the map, and everything else,
    unchanged; otherwise it returns success, the kind now maps to the
    given constructor and every other kind is as before. *)
Theorem RegisterDriver_spec (kind : string) (initFunc : InitFunc R) (w : @World R Src) :
  match initializers w !! kind with
  | Some _ =>
      RegisterDriver kind initFunc w = (Err (kind +:+ " has already been registered"), w)
  | None =>
      ∃ w', RegisterDriver kind initFunc w = (Ok tt, w') ∧
            initializers w' !! kind = Some initFunc ∧
            (∀ k, k ≠ kind → initializers w' !! k = initializers w !! k) ∧
            disk w' = disk w ∧ remote w' = remote w ∧ source w' = source w ∧
            calls w' = calls w
  end.
Proof.
  unfold RegisterDriver. destruct (initializers w !! kind) eqn:E; [done|].
  eexists. split; [done|]. simpl. rewrite lookup_insert_eq.
  repeat split; try done. intros k Hk. by rewrite lookup_insert_ne.
Qed.

End Registry.

(** ** Strings, slices and hexadecimal text *)

Lemma string_app_nil (b : string) : EmptyString +:+ b = b.
Proof. done. Qed.

Lemma string_app_cons (c : ascii) (a b : string) : String c a +:+ b = String c (a +:+ b).
Proof. done. Qed.

(** Unfold appends to a literal or constructor on the left. *)
Ltac str_simpl := rewrite ?string_app_cons, ?string_app_nil.

Lemma string_app_assoc (a b c : string) : (a +:+ b) +:+ c = a +:+ (b +:+ c).
Proof. induction a as [|x a IH]; str_simpl; [done|]. by rewrite IH. Qed.

Lemma string_app_length (a b : string) :
  String.length (a +:+ b) = (String.length a + String.length b)%nat.
Proof. induction a as [|x a IH]; str_simpl; simpl; [done|]. by rewrite IH. Qed.

Lemma substring_length (s : string) : ∀ n m,
  (n + m ≤ String.length s)%nat → String.length (substring n m s) = m.
Proof.
  induction s as [|c s IH]; intros n m H; simpl in *.
  - destruct n, m; simpl; lia.
  - destruct n as [|n]; [destruct m as [|m]; simpl; [done|]|]; rewrite IH; lia.
Qed.

Lemma all_chars_substring (p : ascii → bool) (s : string) : ∀ n m,
  all_chars p s = true → all_chars p (substring n m s) = true.
Proof.
  induction s as [|c s IH]; intros n m H; simpl in *.
  - by destruct n, m.
  - apply andb_true_iff in H as [Hc Hs].
    destruct n as [|n]; [destruct m as [|m]; simpl; [done|]|]; [rewrite Hc; simpl|]; by apply IH.
Qed.

Lemma all_chars_app (p : ascii → bool) (a b : string) :
  all_chars p (a +:+ b) = all_chars p a && all_chars p b.
Proof. induction a as [|x a IH]; str_simpl; simpl; [done|]. by rewrite IH, andb_assoc. Qed.

Lemma all_chars_impl (p q : ascii → bool) (s : string) :
  (∀ c, p c = true → q c = true) → all_chars p s = true → all_chars q s = true.
Proof.
  intros Hpq. induction s as [|c s IH]; simpl; [done|].
  intros [Hc Hs]%andb_true_iff. rewrite (Hpq _ Hc). simpl. auto.
Qed.

Lemma slice_is_Some (s : string) (lo hi : nat) :
  is_Some (slice s lo hi) ↔ (lo ≤ hi ≤ String.length s)%nat.
Proof.
  unfold slice. case_decide; split; intros H'; try done; try by eexists.
Qed.

Lemma slice_length (s t : string) (lo hi : nat) :
  slice s lo hi = Some t → String.length t = (hi - lo)%nat.
Proof.
  unfold slice. case_decide; [|done]. intros [= <-]. apply substring_length. lia.
Qed.

Lemma slice_all_chars (p : ascii → bool) (s t : string) (lo hi : nat) :
  all_chars p s = true → slice s lo hi = Some t → all_chars p t = true.
Proof.
  unfold slice. case_decide; [|done]. intros Hs [= <-]. by apply all_chars_substring.
Qed.

Lemma be_bytes_length (n : nat) (x : Z) : length (sha512.be_bytes n x) = n.
Proof. induction n as [|n IH]; simpl; [done|]. by rewrite IH. Qed.

(** SHA-512 yields 64 bytes on every input. *)
Lemma Sum512_length (data : list byte) : length (sha512.Sum512 data) = 64%nat.
Proof. unfold sha512.Sum512. rewrite !length_app, !be_bytes_length. done. Qed.

Lemma EncodeToString_length (src : list byte) :
  String.length (hex.EncodeToString src) = (2 * length src)%nat.
Proof. induction src as [|v src IH]; simpl; [done|]. rewrite IH. lia. Qed.

Lemma hex_digits_of_byte (v : byte) :
  hex.digit (Z.shiftr (byte_to_Z v) 4) = lower_hex_digit (Byte.to_N v / 16) ∧
  hex.digit (Z.land (byte_to_Z v) 0x0f) = lower_hex_digit (Byte.to_N v mod 16) ∧
  is_lower_hex (lower_hex_digit (Byte.to_N v / 16)) = true ∧
  is_lower_hex (lower_hex_digit (Byte.to_N v mod 16)) = true.
Proof. destruct v; vm_compute; done. Qed.

(** The table-driven encoder of [encoding/hex] writes lower-case
    hexadecimal text. *)
Lemma EncodeToString_lower_hex (src : list byte) :
  hex.EncodeToString src = lower_hex src.
Proof.
  induction src as [|v src IH]; simpl; [done|].
  destruct (hex_digits_of_byte v) as (-> & -> & _). by rewrite IH.
Qed.

Lemma lower_hex_all_chars (bs : list byte) : all_chars is_lower_hex (lower_hex bs) = true.
Proof.
  induction bs as [|v bs IH]; simpl; [done|].
  destruct (hex_digits_of_byte v) as (_ & _ & -> & ->). done.
Qed.

(** Cutting the text after [2k] characters is rendering the first [k]
    bytes. *)
Lemma lower_hex_prefix (bs : list byte) : ∀ k,
  substring 0 (2 * k) (lower_hex bs) = lower_hex (take k bs).
Proof.
  induction bs as [|v bs IH]; intros k.
  - rewrite take_nil. by destruct k.
  - destruct k as [|k]; [done|].
    replace (2 * S k)%nat with (S (S (2 * k))) by lia.
    simpl take. simpl lower_hex. simpl substring. by rewrite <- IH.
Qed.

Lemma lower_hex_not_separator (c : ascii) :
  is_lower_hex c = true → not_separator c = true.
Proof.
  unfold is_lower_hex, not_separator, filepath.Separator. intros H.
  destruct (Ascii.eqb_spec c "/") as [->|]; [|done]. vm_compute in H. done.
Qed.

Lemma lower_hex_plain (s : string) :
  s ≠ EmptyString → all_chars is_lower_hex s = true → plain s.
Proof.
  intros Hne Hs. repeat split; try done.
  - intros ->. vm_compute in Hs. done.
  - intros ->. vm_compute in Hs. done.
  - eapply all_chars_impl; [apply lower_hex_not_separator|done].
Qed.

(** The digest computed in the backup loop: always defined, 64 lower-case
    hexadecimal characters, the text of SHA-512 cut to 64 characters. *)
Lemma blockChecksum_spec (block : list byte) :
  blockChecksum block = Some (spec_digest block) ∧
  spec_digest block = spec_digest_256 block ∧
  String.length (spec_digest block) = 64%nat ∧
  all_chars is_lower_hex (spec_digest block) = true.
Proof.
  assert (Hlen : String.length (lower_hex (sha512.Sum512 block)) = 128%nat).
  { rewrite <- EncodeToString_lower_hex, EncodeToString_length, Sum512_length. done. }
  split; [|split; [|split]].
  - unfold blockChecksum, spec_digest, slice, PRESERVED_CHECKSUM_LENGTH.
    rewrite EncodeToString_lower_hex, Hlen. rewrite decide_True by lia. done.
  - unfold spec_digest, spec_digest_256. apply (lower_hex_prefix _ 32).
  - unfold spec_digest. apply substring_length. rewrite Hlen. lia.
  - unfold spec_digest. apply all_chars_substring, lower_hex_all_chars.
Qed.

(** ** Paths built from plain elements *)

Lemma split_identifier (s : string) : identifier s → filepath.split s = [s].
Proof.
  unfold identifier. induction s as [|c s IH]; simpl; [done|].
  intros [Hc Hs]%andb_true_iff. unfold not_separator in Hc.
  destruct (Ascii.eqb c filepath.Separator); [done|]. by rewrite IH.
Qed.

Lemma split_app (a b : string) :
  identifier a → filepath.split (a +:+ String "/" b) = a :: filepath.split b.
Proof.
  unfold identifier. induction a as [|c a IH]; str_simpl; simpl; [done|].
  intros [Hc Ha]%andb_true_iff. unfold not_separator in Hc.
  destruct (Ascii.eqb c filepath.Separator); [done|]. by rewrite IH.
Qed.

Lemma split_join (elems : list string) :
  elems ≠ [] → Forall identifier elems → filepath.split (filepath.join elems) = elems.
Proof.
  induction elems as [|e rest IH]; [done|]. intros _ Hall.
  apply Forall_cons in Hall as [He Hrest]. destruct rest as [|e' rest].
  - by apply split_identifier.
  - change (filepath.join (e :: e' :: rest))
      with (e +:+ String "/" (filepath.join (e' :: rest))).
    rewrite split_app by done. by rewrite IH.
Qed.

Lemma join_app (xs ys : list string) :
  xs ≠ [] → ys ≠ [] →
  filepath.join (xs ++ ys) = filepath.join xs +:+ "/" +:+ filepath.join ys.
Proof.
  induction xs as [|x xs IH]; [done|]. intros _ Hys. destruct xs as [|x' xs].
  - destruct ys; done.
  - change (filepath.join ((x :: x' :: xs) ++ ys))
      with (x +:+ "/" +:+ filepath.join ((x' :: xs) ++ ys)).
    rewrite IH by done.
    change (filepath.join (x :: x' :: xs)) with (x +:+ "/" +:+ filepath.join (x' :: xs)).
    by rewrite !string_app_assoc.
Qed.

Lemma plain_identifier (e : string) : plain e → identifier e.
Proof. by intros (_ & _ & _ & H). Qed.

Lemma cleanStep_plain (isRooted : bool) (kept : list string) (e : string) :
  plain e → filepath.cleanStep isRooted kept e = e :: kept.
Proof.
  intros (H1 & H2 & H3 & _). unfold filepath.cleanStep.
  rewrite decide_False by (intros [?|?]; done). by rewrite decide_False.
Qed.

Lemma fold_cleanStep_plain (isRooted : bool) (elems : list string) : ∀ kept,
  Forall plain elems →
  fold_left (filepath.cleanStep isRooted) elems kept = rev elems ++ kept.
Proof.
  induction elems as [|e elems IH]; intros kept Hall; [done|].
  apply Forall_cons in Hall as [He Hall]. simpl.
  rewrite cleanStep_plain by done. rewrite IH by done. by rewrite <- app_assoc.
Qed.

Lemma join_not_rooted (elems : list string) :
  elems ≠ [] → Forall plain elems → filepath.rooted (filepath.join elems) = false.
Proof.
  destruct elems as [|e rest]; [done|]. intros _ [He _]%Forall_cons.
  destruct He as (Hne & _ & _ & Hid). destruct e as [|c e]; [done|].
  simpl in Hid. apply andb_true_iff in Hid as [Hc _]. unfold not_separator in Hc.
  destruct rest; simpl; [|str_simpl; simpl]; by destruct (Ascii.eqb c filepath.Separator).
Qed.

Lemma join_not_empty (elems : list string) :
  elems ≠ [] → Forall plain elems → filepath.join elems ≠ EmptyString.
Proof.
  destruct elems as [|e rest]; [done|]. intros _ [He _]%Forall_cons.
  destruct He as (Hne & _). destruct e as [|c e]; [done|].
  destruct rest; simpl; [|str_simpl]; done.
Qed.

(** A path made of plain elements is already clean. *)
Lemma Clean_join_plain (elems : list string) :
  elems ≠ [] → Forall plain elems → filepath.Clean (filepath.join elems) = filepath.join elems.
Proof.
  intros Hne Hall. unfold filepath.Clean.
  assert (Hids : Forall identifier elems).
  { eapply Forall_impl; [done|apply plain_identifier]. }
  rewrite join_not_rooted by done.
  rewrite split_join by done.
  rewrite fold_cleanStep_plain by done. rewrite app_nil_r, rev_involutive.
  by destruct elems.
Qed.

Lemma Join_plain (elems : list string) :
  elems ≠ [] → Forall plain elems → filepath.Join elems = filepath.join elems.
Proof.
  destruct elems as [|e rest]; [done|]. intros _ Hall.
  pose proof Hall as [(Hne & _) _]%Forall_cons.
  change (filepath.Join (e :: rest))
    with (if decide (e = EmptyString) then filepath.Join rest
          else filepath.Clean (filepath.join (e :: rest))).
  rewrite decide_False by done. by apply Clean_join_plain.
Qed.

(** Joining onto a path that is itself a clean run of plain elements. *)
Lemma Join_onto_plain (dir : list string) (rest : list string) :
  dir ≠ [] → rest ≠ [] → Forall plain dir → Forall plain rest →
  filepath.Join (filepath.join dir :: rest) =
  filepath.join dir +:+ "/" +:+ filepath.join rest.
Proof.
  intros Hd Hr Hpd Hpr.
  change (filepath.Join (filepath.join dir :: rest))
    with (if decide (filepath.join dir = EmptyString) then filepath.Join rest
          else filepath.Clean (filepath.join (filepath.join dir :: rest))).
  rewrite decide_False by by apply join_not_empty.
  replace (filepath.join (filepath.join dir :: rest)) with (filepath.join (dir ++ rest)).
  - rewrite Clean_join_plain; [by apply join_app| by destruct dir |by apply Forall_app].
  - rewrite join_app by done. by destruct rest.
Qed.

Lemma plain_literals :
  plain BLOCKSTORE_BASE ∧ plain VOLUME_DIRECTORY ∧ plain BLOCKS_DIRECTORY ∧
  plain SNAPSHOTS_DIRECTORY.
Proof. repeat split; done. Qed.

(** The volume directory of an identifier: a clean run of plain elements;
    for a plain identifier it is [rancher-blockstore/volume/<id>]. *)
Lemma getVolumePath_plain (volumeId : string) :
  identifier volumeId →
  ∃ dir, dir ≠ [] ∧ Forall plain dir ∧ getVolumePath volumeId = filepath.join dir ∧
         (plain volumeId → dir = [BLOCKSTORE_BASE; VOLUME_DIRECTORY; volumeId]).
Proof.
  intros Hid. destruct plain_literals as (Hb & Hv & _).
  unfold getVolumePath. cbn [filepath.Join].
  rewrite decide_False by done.
  change (filepath.join [BLOCKSTORE_BASE; VOLUME_DIRECTORY; volumeId])
    with (BLOCKSTORE_BASE +:+ String "/" (VOLUME_DIRECTORY +:+ String "/" volumeId)).
  unfold filepath.Clean.
  assert (Hr : filepath.rooted
                 (BLOCKSTORE_BASE +:+ String "/" (VOLUME_DIRECTORY +:+ String "/" volumeId))
               = false) by done.
  rewrite Hr. rewrite !split_app by (by apply plain_identifier).
  rewrite split_identifier by done. cbn [fold_left].
  rewrite (cleanStep_plain false [] BLOCKSTORE_BASE Hb).
  rewrite (cleanStep_plain false _ VOLUME_DIRECTORY Hv).
  unfold filepath.cleanStep.
  destruct (decide (volumeId = EmptyString ∨ volumeId = ".")) as [Hd|Hd].
  { exists [BLOCKSTORE_BASE; VOLUME_DIRECTORY]. repeat split; try done.
    - by repeat constructor.
    - intros (? & ? & _). destruct Hd; done. }
  destruct (decide (volumeId = "..")) as [Hdd|Hdd].
  { rewrite decide_False by done.
    exists [BLOCKSTORE_BASE]. repeat split; try done.
    - by repeat constructor.
    - intros (? & ? & ? & _). done. }
  exists [BLOCKSTORE_BASE; VOLUME_DIRECTORY; volumeId]. repeat split; try done.
  repeat constructor; try done; intros ->; apply Hd; auto.
Qed.

(** ** Block digest and block location (C4), slice bounds (C10) *)

Lemma getBlockPathAndFileName_is_Some (volumeId checksum : string) :
  is_Some (getBlockPathAndFileName volumeId checksum) ↔ (4 ≤ String.length checksum)%nat.
Proof.
  unfold getBlockPathAndFileName, slice, BLOCK_SEPARATE_LAYER1, BLOCK_SEPARATE_LAYER2.
  split.
  - intros [pf H]. repeat case_decide; simpl in H; try done. lia.
  - intros H. rewrite !decide_True by lia. simpl. by eexists.
Qed.

Lemma getBlockPathAndFileName_layout (volumeId d l1 l2 : string) :
  identifier volumeId → plain l1 → plain l2 →
  slice d 0 2 = Some l1 → slice d 2 4 = Some l2 →
  getBlockPathAndFileName volumeId d =
    Some (getVolumePath volumeId +:+ "/blocks/" +:+ l1 +:+ "/" +:+ l2, d +:+ ".blk").
Proof.
  intros Hid Hl1 Hl2 Hs1 Hs2. unfold getBlockPathAndFileName.
  unfold BLOCK_SEPARATE_LAYER1, BLOCK_SEPARATE_LAYER2. rewrite Hs1, Hs2.
  cbn -[filepath.Join getVolumePath].
  destruct (getVolumePath_plain volumeId Hid) as (dir & Hne & Hdir & -> & _).
  destruct plain_literals as (_ & _ & Hblocks & _).
  rewrite (Join_onto_plain dir [BLOCKS_DIRECTORY; l1; l2]); [done|done|done|done|].
  repeat (apply Forall_cons; split; [done|]). by apply Forall_nil.
Qed.

(** The two directory layers cut from a digest: defined, and plain path
    elements. *)
Lemma digest_layers (block : list byte) :
  ∃ l1 l2, slice (spec_digest block) 0 2 = Some l1 ∧ slice (spec_digest block) 2 4 = Some l2 ∧
           plain l1 ∧ plain l2.
Proof.
  destruct (blockChecksum_spec block) as (_ & _ & Hlen & Hhex).
  assert (H1 : is_Some (slice (spec_digest block) 0 2)) by (apply slice_is_Some; lia).
  assert (H2 : is_Some (slice (spec_digest block) 2 4)) by (apply slice_is_Some; lia).
  destruct H1 as [l1 H1], H2 as [l2 H2]. exists l1, l2.
  assert (Hp : ∀ lo hi l, slice (spec_digest block) lo hi = Some l → (lo < hi)%nat → plain l).
  { intros lo hi l Hl Hlt. apply lower_hex_plain.
    - intros ->. apply slice_length in Hl. simpl in Hl. lia.
    - by eapply slice_all_chars. }
  split; [done|]. split; [done|]. split; eapply Hp; try done; lia.
Qed.

(** C4. For every block buffer (of any length, so in particular of exactly
    block_size bytes), the digest [BackupSnapshot] computes is defined and
    equals the first 64 characters of the lower-case hexadecimal text of
    SHA-512 of the buffer, which is the text of the first 256 bits; it has
    length 64 and only lower-case hexadecimal characters. For a volume
    identifier without path separator, the location derived from the digest
    [d] is the path [blocks/<d[0:2]>/<d[2:4]>] under the volume directory
    with file name [<d>.blk]; the volume directory of a plain identifier is
    [rancher-blockstore/volume/<id>]. *)
Theorem block_digest_and_location (volumeId : string) (block : list byte) :
  identifier volumeId →
  ∃ d l1 l2,
    blockChecksum block = Some d ∧
    d = spec_digest block ∧ d = spec_digest_256 block ∧
    String.length d = 64%nat ∧ all_chars is_lower_hex d = true ∧
    slice d 0 2 = Some l1 ∧ slice d 2 4 = Some l2 ∧
    getBlockPathAndFileName volumeId d =
      Some (getVolumePath volumeId +:+ "/blocks/" +:+ l1 +:+ "/" +:+ l2, d +:+ ".blk") ∧
    (plain volumeId → getVolumePath volumeId = "rancher-blockstore/volume/" +:+ volumeId).
Proof.
  intros Hid. destruct (blockChecksum_spec block) as (Hsum & H256 & Hlen & Hhex).
  destruct (digest_layers block) as (l1 & l2 & H1 & H2 & Hp1 & Hp2).
  exists (spec_digest block), l1, l2.
  split; [done|]. split; [done|]. split; [done|]. split; [done|]. split; [done|].
  split; [done|]. split; [done|]. split.
  - by apply getBlockPathAndFileName_layout.
  - intros Hplain. destruct (getVolumePath_plain volumeId Hid) as (dir & _ & _ & -> & Hd).
    by rewrite (Hd Hplain).
Qed.

Lemma block_digest_and_location_witness :
  ∃ d l1 l2,
    blockChecksum (replicate 4 x00) = Some d ∧
    d = spec_digest (replicate 4 x00) ∧ d = spec_digest_256 (replicate 4 x00) ∧
    String.length d = 64%nat ∧ all_chars is_lower_hex d = true ∧
    slice d 0 2 = Some l1 ∧ slice d 2 4 = Some l2 ∧
    getBlockPathAndFileName "vol1" d =
      Some (getVolumePath "vol1" +:+ "/blocks/" +:+ l1 +:+ "/" +:+ l2, d +:+ ".blk") ∧
    (plain "vol1" → getVolumePath "vol1" = "rancher-blockstore/volume/" +:+ "vol1").
Proof. apply (block_digest_and_location "vol1" (replicate 4 x00)). reflexivity. Defined.

Example block_location_of_zero_block :
  blockChecksum (replicate 4 x00) =
    Some "ec2d57691d9b2d40182ac565032054b7d784ba96b18bcb5be0bb4e70e3fb041e" ∧
  getBlockPathAndFileName "vol1"
    "ec2d57691d9b2d40182ac565032054b7d784ba96b18bcb5be0bb4e70e3fb041e" =
    Some ("rancher-blockstore/volume/vol1/blocks/ec/2d",
          "ec2d57691d9b2d40182ac565032054b7d784ba96b18bcb5be0bb4e70e3fb041e.blk").
Proof. split; vm_compute; reflexivity. Qed.

(** ** Reasoning about runs *)

Section Runs.

Context {R Src : Type} {json : JSON}.

Implicit Types w : @World R Src.

(** A run of [m ≫= f] either got a value from [m] and went on with [f],
    or stopped where [m] stopped. *)
Lemma bind_run {A B} (m : @M R Src A) (f : A → @M R Src B) w (res : outcome B) w' :
  (m ≫= f) w = (res, w') →
  (∃ a w1, m w = (Ok a, w1) ∧ f a w1 = (res, w')) ∨
  (∃ e, m w = (Err e, w') ∧ res = Err e) ∨
  (m w = (Panic, w') ∧ res = Panic).
Proof.
  unfold mbind, M_bind. destruct (m w) as [[a|e|] w1]; intros H.
  - left. eauto.
  - right. left. inversion H. eauto.
  - right. right. by inversion H.
Qed.

Lemma bind_ok {A B} (m : @M R Src A) (f : A → @M R Src B) w a w1 :
  m w = (Ok a, w1) → (m ≫= f) w = f a w1.
Proof. unfold mbind, M_bind. by intros ->. Qed.

Lemma bind_err {A B} (m : @M R Src A) (f : A → @M R Src B) w e w1 :
  m w = (Err e, w1) → (m ≫= f) w = (Err e, w1).
Proof. unfold mbind, M_bind. by intros ->. Qed.

Lemma check_world (err : option string) w : (check err w).2 = w.
Proof. by destruct err. Qed.

Lemma check_then_world {A} (err : option string) (a : A) w :
  ((check err ;; mret a) w).2 = w.
Proof. by destruct err. Qed.

Section Keeps.

Context (I : @World R Src → @World R Src → Prop) `{!Frame I}.

Lemma keeps_ret {A} (a : A) : keeps I (mret a).
Proof. intros w. apply frame_refl. Qed.

Lemma keeps_fail {A} (e : string) : keeps I (fail e : M A).
Proof. intros w. apply frame_refl. Qed.

Lemma keeps_panic {A} : keeps I (panic : M A).
Proof. intros w. apply frame_refl. Qed.

Lemma keeps_check (err : option string) : keeps I (check err).
Proof. destruct err; [apply keeps_fail|apply keeps_ret]. Qed.

Lemma keeps_orPanic {A} (o : option A) : keeps I (orPanic o).
Proof. destruct o; [apply keeps_ret|apply keeps_panic]. Qed.

Lemma keeps_bind {A B} (m : M A) (f : A → M B) :
  keeps I m → (∀ a, keeps I (f a)) → keeps I (m ≫= f).
Proof.
  intros Hm Hf w. specialize (Hm w). unfold mbind, M_bind.
  destruct (m w) as [[a|e|] w1]; simpl in *; try done.
  eapply frame_trans; [done|apply Hf].
Qed.

Lemma keeps_jsonMarshal {A} (marshal : A → string + list byte) (v : A) :
  keeps I (jsonMarshal marshal v).
Proof. unfold jsonMarshal. destruct (marshal v); [apply keeps_fail|apply keeps_ret]. Qed.

Lemma keeps_GetBlockStoreDriver kind configFile id config :
  keeps I (GetBlockStoreDriver kind configFile id config).
Proof.
  intros w. unfold GetBlockStoreDriver.
  destruct (initializers w !! kind) as [init|]; [|apply frame_refl].
  destruct (init configFile id config); apply frame_refl.
Qed.

Lemma keeps_callFileExists drv path name : keeps I (callFileExists drv path name).
Proof.
  intros w. unfold callFileExists. destruct (FileExists _ _ _ _) as [r st].
  by apply frame_remote.
Qed.

Lemma keeps_callFileSize drv path name : keeps I (callFileSize drv path name).
Proof.
  intros w. unfold callFileSize. destruct (FileSize _ _ _ _) as [r st].
  by apply frame_remote.
Qed.

Lemma keeps_callMkDirAll drv dir : keeps I (callMkDirAll drv dir).
Proof.
  intros w. unfold callMkDirAll. destruct (MkDirAll _ _ _) as [err st].
  rewrite check_world. by apply frame_remote.
Qed.

Lemma keeps_callRemoveAll drv name : keeps I (callRemoveAll drv name).
Proof.
  intros w. unfold callRemoveAll. destruct (RemoveAll _ _ _) as [err st].
  rewrite check_world. by apply frame_remote.
Qed.

Lemma keeps_callRead drv path name data : keeps I (callRead drv path name data).
Proof.
  intros w. unfold callRead. destruct (Read _ _ _ _ _) as [[err bytes] st].
  rewrite check_then_world. by apply frame_remote.
Qed.

Lemma keeps_callWrite drv data path name : keeps I (callWrite drv data path name).
Proof.
  intros w. unfold callWrite. destruct (Write _ _ _ _ _) as [err st].
  rewrite check_world. by apply frame_remote.
Qed.

Lemma keeps_callCompareSnapshot sDriver snapshotId lastSnapshotId volumeId :
  keeps I (callCompareSnapshot sDriver snapshotId lastSnapshotId volumeId).
Proof.
  intros w. unfold callCompareSnapshot.
  destruct (CompareSnapshot _ _ _ _ _) as [[err delta] st].
  rewrite check_then_world. by apply frame_source.
Qed.

Lemma keeps_callReadSnapshot sDriver snapshotId volumeId offset block :
  keeps I (callReadSnapshot sDriver snapshotId volumeId offset block).
Proof.
  intros w. unfold callReadSnapshot.
  destruct (ReadSnapshot _ _ _ _ _ _) as [[err bytes] st].
  rewrite check_then_world. by apply frame_source.
Qed.

Lemma keeps_LoadConfig file : keeps I (LoadConfig file).
Proof.
  intros w. unfold LoadConfig. destruct (disk w !! file); by apply frame_record.
Qed.

Lemma keeps_backupBlocks bsDriver sDriver snapshotId volumeId d deltaBlockSize n :
  ∀ i block blocks,
  keeps I (backupBlocks bsDriver sDriver snapshotId volumeId d deltaBlockSize n i block blocks).
Proof.
  induction n as [|n IH]; intros i block blocks; [apply keeps_ret|].
  cbn [backupBlocks].
  apply keeps_bind; [apply keeps_callReadSnapshot|intros block'].
  apply keeps_bind; [apply keeps_orPanic|intros checksum].
  apply keeps_bind; [apply keeps_orPanic|intros [path fileName]].
  apply keeps_bind; [apply keeps_callFileSize|intros size].
  destruct (0 <=? size); [apply IH|].
  apply keeps_bind; [apply keeps_callMkDirAll|intros _].
  apply keeps_bind; [apply keeps_callWrite|intros _]. apply IH.
Qed.

Lemma keeps_backupExtents bsDriver sDriver snapshotId volumeId blockSize deltaBlockSize
    mappings :
  ∀ blocks,
  keeps I (backupExtents bsDriver sDriver snapshotId volumeId blockSize deltaBlockSize
             mappings blocks).
Proof.
  induction mappings as [|d rest IH]; intros blocks; [apply keeps_ret|].
  cbn [backupExtents].
  apply keeps_bind; [|intros count].
  { destruct (deltaBlockSize =? 0); [apply keeps_panic|apply keeps_ret]. }
  apply keeps_bind; [apply keeps_backupBlocks|intros blocks']. apply IH.
Qed.

Lemma keeps_loadLastSnapshotMap bsDriver volumeId lastSnapshotId :
  keeps I (loadLastSnapshotMap bsDriver volumeId lastSnapshotId).
Proof.
  unfold loadLastSnapshotMap. case_decide; [|apply keeps_ret].
  apply keeps_bind; [apply keeps_callFileSize|intros fileSize].
  destruct (fileSize <? 0); [apply keeps_fail|].
  apply keeps_bind; [apply keeps_callRead|intros data].
  destruct (Unmarshal_SnapshotMap data); [apply keeps_fail|apply keeps_ret].
Qed.

End Keeps.

(** *** Relations that are frames *)

Lemma logged_frame (P : Event → Prop) :
  (∀ e, is_save e = false → P e) → Frame (@logged R Src P).
Proof.
  intros HP. split; unfold logged.
  - intros w. exists []. by rewrite app_nil_r.
  - intros w1 w2 w3 (e1 & H1 & HP1) (e2 & H2 & HP2). exists (e1 ++ e2).
    rewrite H2, H1, <- app_assoc. split; [done|]. by apply Forall_app.
  - intros w e st He. exists [e]. split; [done|]. repeat constructor. auto.
  - intros w e st He. exists [e]. split; [done|]. repeat constructor. auto.
  - intros w e He. exists [e]. split; [done|]. repeat constructor. auto.
Qed.

Global Instance saved_frame (file : string) (P : BlockStore → Prop) :
  Frame (@saved R Src file P).
Proof.
  split; unfold saved; intros; simpl; try by left.
  destruct H as [H|(b1 & Hb1 & H)], H0 as [H0|(b2 & Hb2 & H0)]; rewrite H0, H.
  - by left.
  - right. eauto.
  - right. eauto.
  - right. exists b2. by rewrite insert_insert_eq.
Qed.

Lemma follows_write_app (path name : string) (evs1 evs2 : list Event) :
  follows_write path name evs1 → follows_write path name evs2 →
  follows_write path name (evs1 ++ evs2).
Proof.
  intros H1 H2 i f b err Hi. apply lookup_app_Some in Hi as [Hi|[Hlen Hi]].
  - destruct (H1 _ _ _ _ Hi) as (i' & j & -> & Hw). exists i', j. split; [done|].
    by apply lookup_app_l_Some.
  - destruct (H2 _ _ _ _ Hi) as (i' & j & Heq & Hw).
    exists (length evs1 + i')%nat, j. split; [lia|].
    rewrite lookup_app_r by lia. by replace (length evs1 + i' - length evs1)%nat with i' by lia.
Qed.

Lemma follows_write_single (path name : string) (e : Event) :
  is_save e = false → follows_write path name [e].
Proof.
  intros He i f b err Hi. destruct i as [|i]; [|by destruct i].
  simpl in Hi. injection Hi as ->. done.
Qed.

Global Instance ordered_frame (path name : string) : Frame (@ordered R Src path name).
Proof.
  split; unfold ordered.
  - intros w. exists []. rewrite app_nil_r. split; [done|]. by intros i f b err Hi.
  - intros w1 w2 w3 (e1 & H1 & HP1) (e2 & H2 & HP2). exists (e1 ++ e2).
    rewrite H2, H1, <- app_assoc. split; [done|]. by apply follows_write_app.
  - intros w e st He. exists [e]. split; [done|]. by apply follows_write_single.
  - intros w e st He. exists [e]. split; [done|]. by apply follows_write_single.
  - intros w e He. exists [e]. split; [done|]. by apply follows_write_single.
Qed.

Global Instance both_frame (I1 I2 : @World R Src → @World R Src → Prop) :
  Frame I1 → Frame I2 → Frame (both I1 I2).
Proof.
  intros F1 F2. split; unfold both.
  - intros w. split; apply frame_refl.
  - intros w1 w2 w3 [? ?] [? ?]. split; eapply frame_trans; done.
  - intros w e st He. split; by apply frame_remote.
  - intros w e st He. split; by apply frame_source.
  - intros w e He. split; by apply frame_record.
Qed.

Lemma keeps_both {A} (I1 I2 : @World R Src → @World R Src → Prop) (m : M A) :
  keeps I1 m → keeps I2 m → keeps (both I1 I2) m.
Proof. intros H1 H2 w. split; [apply H1|apply H2]. Qed.

(** *** The save under each relation *)

Lemma keeps_SaveConfig_saved (file : string) (b : BlockStore) (P : BlockStore → Prop) :
  P b → keeps (@saved R Src file P) (SaveConfig file b).
Proof.
  intros HP w. unfold SaveConfig, saved. destruct (diskFault w file); simpl; [by left|].
  right. eauto.
Qed.

Lemma keeps_SaveConfig_logged (file : string) (b : BlockStore) (P : Event → Prop) :
  (∀ err, P (ESaveConfig file b err)) → keeps (@logged R Src P) (SaveConfig file b).
Proof.
  intros HP w. unfold SaveConfig, logged.
  destruct (diskFault w file); simpl; eexists [_]; (split; [done|]); repeat constructor; auto.
Qed.

(** The manifest write with the save behind it: the save happens only
    when the write succeeded, directly after it. *)
Lemma keeps_commit_ordered drv (j : list byte) (path name file : string) (b : BlockStore) :
  keeps (@ordered R Src path name) (callWrite drv j path name ≫= λ _, SaveConfig file b).
Proof.
  intros w. unfold ordered, mbind, M_bind, callWrite.
  destruct (Write drv j path name (remote w)) as [[e|] st]; simpl.
  - exists [EWrite j path name (Some e)]. split; [done|]. by apply follows_write_single.
  - unfold SaveConfig. simpl.
    destruct (diskFault w file) as [e|]; simpl.
    + exists [EWrite j path name None; ESaveConfig file b (Some e)].
      split; [by rewrite <- app_assoc|].
      intros i f b' err Hi. destruct i as [|[|i]]; simpl in Hi; try done.
      exists 0%nat, j. done.
    + exists [EWrite j path name None; ESaveConfig file b None].
      split; [by rewrite <- app_assoc|].
      intros i f b' err Hi. destruct i as [|[|i]]; simpl in Hi; try done.
      exists 0%nat, j. done.
Qed.

End Runs.

(** Decompose a goal [keeps I m] along the structure of [m]; what is left
    are the saves. *)
Ltac keeps_leaf :=
  first
    [ apply keeps_ret | apply keeps_fail | apply keeps_panic | apply keeps_check
    | apply keeps_orPanic | apply keeps_jsonMarshal | apply keeps_GetBlockStoreDriver
    | apply keeps_callFileExists | apply keeps_callFileSize | apply keeps_callMkDirAll
    | apply keeps_callRemoveAll | apply keeps_callRead | apply keeps_callWrite
    | apply keeps_callCompareSnapshot | apply keeps_callReadSnapshot
    | apply keeps_LoadConfig | apply keeps_backupExtents | apply keeps_loadLastSnapshotMap ];
  exact _.

Ltac keeps_step :=
  first
    [ apply keeps_commit_ordered
    | keeps_leaf
    | (apply keeps_bind; [exact _| |intros ?])
    | match goal with
      | |- keeps _ (match ?x with _ => _ end) => destruct x
      end ].

Ltac keeps_tac := repeat keeps_step.

(** ** The backup: commit order (C5), broken chain (C7); block size (C8) *)

Section Backup.

Context {R Src : Type} {json : JSON}.

Implicit Types w : @World R Src.

Lemma LoadConfig_bind {B} (file : string) (f : BlockStore → @M R Src B) w :
  (LoadConfig file ≫= f) w =
  match disk w !! file with
  | Some b => f b (record (ELoadConfig file) w)
  | None => (Err ("open " +:+ file +:+ ": no such file or directory"),
             record (ELoadConfig file) w)
  end.
Proof. unfold mbind, M_bind, LoadConfig. by destruct (disk w !! file). Qed.

Lemma GetBlockStoreDriver_ok kind configFile id config w (init : InitFunc R) drv :
  initializers w !! kind = Some init → init configFile id config = inr drv →
  GetBlockStoreDriver kind configFile id config w = (Ok drv, w).
Proof. intros H1 H2. unfold GetBlockStoreDriver. by rewrite H1, H2. Qed.

Lemma callFileSize_run (drv : BlockStoreDriver R) path name w (n : Z) (st : R) :
  FileSize drv path name (remote w) = (n, st) →
  callFileSize drv path name w = (Ok n, record (EFileSize path name n) (set_remote st w)).
Proof. intros H. unfold callFileSize. by rewrite H. Qed.

Lemma loadLastSnapshotMap_missing (drv : BlockStoreDriver R) volumeId lastSnapshotId w
    (n : Z) (st : R) :
  lastSnapshotId ≠ EmptyString →
  FileSize drv (getSnapshotsPath volumeId) (getSnapshotConfigName lastSnapshotId) (remote w)
    = (n, st) →
  n < 0 →
  loadLastSnapshotMap drv volumeId lastSnapshotId w =
    (Err ("Last snapshot " +:+ lastSnapshotId +:+ " doesn't existed in blockstore"),
     record (EFileSize (getSnapshotsPath volumeId) (getSnapshotConfigName lastSnapshotId) n)
            (set_remote st w)).
Proof.
  intros Hne Hsize Hn. unfold loadLastSnapshotMap. rewrite decide_True by done.
  erewrite bind_ok by (by apply callFileSize_run).
  apply Z.ltb_lt in Hn. by rewrite Hn.
Qed.

Lemma persistedLastSnapshotId_same (d d' : gmap string BlockStore) :
  d' = d → ∀ file vol, persistedLastSnapshotId d' file vol = persistedLastSnapshotId d file vol.
Proof. by intros ->. Qed.

(** [BackupSnapshot] re-persists the record exactly as it loaded it: the
    local disk after the call is the local disk before it. *)
Lemma BackupSnapshot_disk root snapshotId volumeId blockstoreId sDriver w :
  disk (BackupSnapshot root snapshotId volumeId blockstoreId sDriver w).2 = disk w.
Proof.
  unfold BackupSnapshot. rewrite LoadConfig_bind.
  destruct (disk w !! getConfigFilename root blockstoreId) as [b|] eqn:Hb; [|done].
  match goal with
  | |- disk (?t ?w1).2 = _ =>
      assert (K : keeps (saved (getConfigFilename root blockstoreId) (λ b', b' = b)) t)
  end.
  { keeps_tac. by apply keeps_SaveConfig_saved. }
  destruct (K (record (ELoadConfig (getConfigFilename root blockstoreId)) w))
    as [->|(b' & -> & ->)]; [done|].
  simpl. by apply insert_id.
Qed.

Lemma BackupSnapshot_ordered root snapshotId volumeId blockstoreId sDriver :
  keeps (@ordered R Src (getSnapshotsPath volumeId) (getSnapshotConfigName snapshotId))
        (BackupSnapshot root snapshotId volumeId blockstoreId sDriver).
Proof. unfold BackupSnapshot. keeps_tac. Qed.

(** C5. In every execution of [BackupSnapshot], a save of the local
    blockstore record happens only directly after the successful remote
    write of the new snapshot manifest, so the persisted last snapshot id
    cannot be advanced before the manifest is written; and whatever the
    call returns, an error in particular, the local disk and with it
    every persisted last snapshot id is as before the call. *)
Theorem BackupSnapshot_commit_order root snapshotId volumeId blockstoreId
    (sDriver : Driver Src) w :
  let res := (BackupSnapshot root snapshotId volumeId blockstoreId sDriver w).1 in
  let w' := (BackupSnapshot root snapshotId volumeId blockstoreId sDriver w).2 in
  (∃ evs, calls w' = calls w ++ evs ∧
     follows_write (getSnapshotsPath volumeId) (getSnapshotConfigName snapshotId) evs ∧
     (Forall (λ e, is_save e = false) evs → disk w' = disk w)) ∧
  (∀ e, res = Err e →
     ∀ file vol, persistedLastSnapshotId (disk w') file vol =
                 persistedLastSnapshotId (disk w) file vol) ∧
  disk w' = disk w.
Proof.
  intros res w'.
  pose proof (BackupSnapshot_disk root snapshotId volumeId blockstoreId sDriver w) as Hd.
  destruct (BackupSnapshot_ordered root snapshotId volumeId blockstoreId sDriver w)
    as (evs & Hevs & Hfw).
  fold w' in Hd, Hevs.
  split; [|split; [|done]].
  - exists evs. auto.
  - intros _ _. by apply persistedLastSnapshotId_same.
Qed.

(** C7. When the volume names a last snapshot and the driver reports its
    manifest absent (a negative size), [BackupSnapshot] returns the
    not-found error after two calls, the load of the local record and the
    size query: no block was read from the source, hashed or uploaded,
    the source was not called at all, and the local disk, so the
    persisted last snapshot id, is unchanged. *)
Theorem BackupSnapshot_missing_last_manifest root snapshotId volumeId blockstoreId
    (sDriver : Driver Src) w (b : BlockStore) (init : InitFunc R)
    (bsDriver : BlockStoreDriver R) (volume : Volume) (n : Z) (st : R) :
  disk w !! getConfigFilename root blockstoreId = Some b →
  initializers w !! Kind b = Some init →
  init (getDriverConfigFilename root (Kind b) blockstoreId) blockstoreId None = inr bsDriver →
  Volumes b !! volumeId = Some volume →
  LastSnapshotId volume ≠ EmptyString →
  FileSize bsDriver (getSnapshotsPath volumeId)
    (getSnapshotConfigName (LastSnapshotId volume)) (remote w) = (n, st) →
  n < 0 →
  ∃ w', BackupSnapshot root snapshotId volumeId blockstoreId sDriver w =
          (Err ("Last snapshot " +:+ LastSnapshotId volume +:+
                " doesn't existed in blockstore"), w') ∧
        calls w' = calls w ++
          [ELoadConfig (getConfigFilename root blockstoreId);
           EFileSize (getSnapshotsPath volumeId)
             (getSnapshotConfigName (LastSnapshotId volume)) n] ∧
        (∀ e, e ∈ drop (length (calls w)) (calls w') → touches_block e = false) ∧
        source w' = source w ∧ remote w' = st ∧ disk w' = disk w ∧
        persistedLastSnapshotId (disk w') (getConfigFilename root blockstoreId) volumeId =
          Some (LastSnapshotId volume).
Proof.
  intros Hb Hinit Hdrv Hvol Hlast Hsize Hn.
  eexists. split.
  - unfold BackupSnapshot. rewrite LoadConfig_bind, Hb.
    erewrite bind_ok by (by eapply GetBlockStoreDriver_ok).
    rewrite Hvol.
    erewrite bind_err by (by eapply loadLastSnapshotMap_missing). reflexivity.
  - cbn [calls disk source remote record set_remote]. rewrite <- app_assoc.
    split; [done|]. split; [|split; [done|split; [done|split; [done|]]]].
    + rewrite drop_app_length. intros e He.
      apply elem_of_cons in He as [->|He]; [done|].
      apply elem_of_cons in He as [->|He]; [done|]. inversion He.
    + unfold persistedLastSnapshotId. rewrite Hb. simpl. by rewrite Hvol.
Qed.

Lemma block_sizes_kept_refl w : block_sizes_kept w w.
Proof.
  split; [eauto|]. exists []. rewrite app_nil_r. split; [done|].
  intros f b' err H. inversion H.
Qed.

Lemma block_sizes_kept_trans w1 w2 w3 :
  block_sizes_kept w1 w2 → block_sizes_kept w2 w3 → block_sizes_kept w1 w3.
Proof.
  intros [Hd1 (e1 & He1 & Hs1)] [Hd2 (e2 & He2 & Hs2)]. split.
  - intros f b3 H3. destruct (Hd2 _ _ H3) as (b2 & H2 & Heq2).
    destruct (Hd1 _ _ H2) as (b1 & H1 & Heq1). exists b1. split; [done|]. congruence.
  - exists (e1 ++ e2). rewrite He2, He1, <- app_assoc. split; [done|].
    intros f b' err Hin. apply elem_of_app in Hin as [Hin|Hin]; [eauto|].
    destruct (Hs2 _ _ _ Hin) as (b2 & H2 & Heq2).
    destruct (Hd1 _ _ H2) as (b1 & H1 & Heq1). exists b1. split; [done|]. congruence.
Qed.

(** What holds after the record [b] was loaded from [file], for the rest
    of an operation that saves only records with the block size of [b]. *)
Lemma block_sizes_kept_after_load (file : string) (b : BlockStore) w w' :
  disk w !! file = Some b →
  both (saved file (λ b', BlockSize b' = BlockSize b))
       (logged (λ e, ∀ f b' err, e = ESaveConfig f b' err →
                       f = file ∧ BlockSize b' = BlockSize b))
       (record (ELoadConfig file) w) w' →
  block_sizes_kept w w'.
Proof.
  intros Hb [Hsaved (evs & Hevs & Hall)]. simpl in *. split.
  - intros f b' Hf. destruct Hsaved as [Hs|(b1 & Hb1 & Hs)]; rewrite Hs in Hf; [eauto|].
    destruct (decide (f = file)) as [->|Hne].
    + rewrite lookup_insert_eq in Hf. injection Hf as <-. eauto.
    + rewrite lookup_insert_ne in Hf by done. eauto.
  - exists (ELoadConfig file :: evs). rewrite Hevs, <- app_assoc. split; [done|].
    intros f b' err Hin. apply elem_of_cons in Hin as [Hin|Hin]; [done|].
    rewrite Forall_forall in Hall. destruct (Hall _ Hin f b' err eq_refl) as [-> Heq]. eauto.
Qed.

Lemma block_sizes_kept_load_failed (file : string) w :
  block_sizes_kept w (record (ELoadConfig file) w).
Proof.
  split; [eauto|]. exists [ELoadConfig file]. split; [done|].
  intros f b' err Hin. apply elem_of_cons in Hin as [Hin|Hin]; [done|]. inversion Hin.
Qed.

Lemma exec_block_sizes_kept (op : Op) w : block_sizes_kept w (exec op w).2.
Proof.
  assert (HF : ∀ file b, Frame (both (@saved R Src file (λ b', BlockSize b' = BlockSize b))
               (logged (λ e, ∀ f b' err, e = ESaveConfig f b' err →
                               f = file ∧ BlockSize b' = BlockSize b)))).
  { intros file b. apply both_frame; [apply _|]. apply logged_frame.
    intros e He f b' err ->. done. }
  assert (HS : ∀ file b b1, BlockSize b1 = BlockSize b →
            keeps (both (@saved R Src file (λ b', BlockSize b' = BlockSize b))
               (logged (λ e, ∀ f b' err, e = ESaveConfig f b' err →
                               f = file ∧ BlockSize b' = BlockSize b)))
              (SaveConfig file b1)).
  { intros file b b1 Hb1. apply keeps_both.
    - by apply keeps_SaveConfig_saved.
    - apply keeps_SaveConfig_logged. intros err f b' err' [= <- <- _]. done. }
  destruct op as [root id volumeId base size|root id volumeId
                 |root snapshotId volumeId blockstoreId sDriver]; simpl.
  - unfold AddVolume. rewrite LoadConfig_bind.
    destruct (disk w !! getConfigFilename root id) as [b|] eqn:Hb;
      [|apply block_sizes_kept_load_failed].
    apply (block_sizes_kept_after_load (getConfigFilename root id) b); [done|].
    match goal with |- both ?I1 ?I2 ?w1 (?t ?w1).2 => assert (K : keeps (both I1 I2) t) end.
    { specialize (HF (getConfigFilename root id) b). keeps_tac. by apply HS. }
    apply K.
  - unfold RemoveVolume. rewrite LoadConfig_bind.
    destruct (disk w !! getConfigFilename root id) as [b|] eqn:Hb;
      [|apply block_sizes_kept_load_failed].
    apply (block_sizes_kept_after_load (getConfigFilename root id) b); [done|].
    match goal with |- both ?I1 ?I2 ?w1 (?t ?w1).2 => assert (K : keeps (both I1 I2) t) end.
    { specialize (HF (getConfigFilename root id) b). keeps_tac. by apply HS. }
    apply K.
  - unfold BackupSnapshot. rewrite LoadConfig_bind.
    destruct (disk w !! getConfigFilename root blockstoreId) as [b|] eqn:Hb;
      [|apply block_sizes_kept_load_failed].
    apply (block_sizes_kept_after_load (getConfigFilename root blockstoreId) b); [done|].
    match goal with |- both ?I1 ?I2 ?w1 (?t ?w1).2 => assert (K : keeps (both I1 I2) t) end.
    { specialize (HF (getConfigFilename root blockstoreId) b). keeps_tac. by apply HS. }
    apply K.
Qed.

Lemma execAll_block_sizes_kept (ops : list Op) : ∀ w, block_sizes_kept w (execAll ops w).
Proof.
  induction ops as [|op ops IH]; intros w; [apply block_sizes_kept_refl|].
  simpl. eapply block_sizes_kept_trans; [apply exec_block_sizes_kept|apply IH].
Qed.

(** C8. Through any sequence of [AddVolume], [RemoveVolume] and
    [BackupSnapshot] calls, whatever each returns, a blockstore record
    found on the local disk afterwards was there before with the same
    [BlockSize]; and every save these calls made wrote, into a file that
    held a record, a record with the [BlockSize] of the one it held. *)
Theorem BlockSize_never_modified (ops : list Op) w (file : string) (b' : BlockStore) :
  disk (execAll ops w) !! file = Some b' →
  (∃ b, disk w !! file = Some b ∧ BlockSize b' = BlockSize b) ∧
  ∃ evs, calls (execAll ops w) = calls w ++ evs ∧
    ∀ f b1 err, ESaveConfig f b1 err ∈ evs →
      ∃ b, disk w !! f = Some b ∧ BlockSize b1 = BlockSize b.
Proof.
  intros H. destruct (execAll_block_sizes_kept ops w) as [Hd Hl]. split; [eauto|done].
Qed.

End Backup.

(** ** The backup loop on a dedup hit and on a miss (C2) *)

Section Dedup.

Context {R Src : Type} {json : JSON}.

Implicit Types w : @World R Src.

Lemma ret_bind {A B} (a : A) (f : A → @M R Src B) w : (mret a ≫= f) w = f a w.
Proof. done. Qed.

Lemma callFileExists_run (drv : BlockStoreDriver R) path name w (r : bool) (st : R) :
  FileExists drv path name (remote w) = (r, st) →
  callFileExists drv path name w = (Ok r, record (EFileExists path name r) (set_remote st w)).
Proof. intros H. unfold callFileExists. by rewrite H. Qed.

Lemma callMkDirAll_run (drv : BlockStoreDriver R) dir w (st : R) :
  MkDirAll drv dir (remote w) = (None, st) →
  callMkDirAll drv dir w = (Ok tt, record (EMkDirAll dir None) (set_remote st w)).
Proof. intros H. unfold callMkDirAll. by rewrite H. Qed.

Lemma callWrite_run (drv : BlockStoreDriver R) data path name w (st : R) :
  Write drv data path name (remote w) = (None, st) →
  callWrite drv data path name w =
    (Ok tt, record (EWrite data path name None) (set_remote st w)).
Proof. intros H. unfold callWrite. by rewrite H. Qed.

Lemma callCompareSnapshot_run (sDriver : Driver Src) snapshotId lastSnapshotId volumeId w
    (delta : metadata.Mappings) (st : Src) :
  CompareSnapshot sDriver snapshotId lastSnapshotId volumeId (source w) = ((None, delta), st) →
  callCompareSnapshot sDriver snapshotId lastSnapshotId volumeId w =
    (Ok delta, record (ECompareSnapshot snapshotId lastSnapshotId volumeId None)
                      (set_source st w)).
Proof. intros H. unfold callCompareSnapshot. by rewrite H. Qed.

Lemma callReadSnapshot_run (sDriver : Driver Src) snapshotId volumeId offset block w
    (bytes : list byte) (st : Src) :
  ReadSnapshot sDriver snapshotId volumeId offset block (source w) = ((None, bytes), st) →
  callReadSnapshot sDriver snapshotId volumeId offset block w =
    (Ok (fill block bytes), record (EReadSnapshot snapshotId volumeId offset None)
                                   (set_source st w)).
Proof. intros H. unfold callReadSnapshot. by rewrite H. Qed.

Lemma SaveConfig_run (file : string) (b : BlockStore) w :
  diskFault w file = None →
  SaveConfig file b w =
    (Ok tt, record (ESaveConfig file b None) (set_disk (<[file := b]> (disk w)) w)).
Proof. intros H. unfold SaveConfig. by rewrite H. Qed.

(** A buffer read in full holds what was read. *)
Lemma fill_full (buf data : list byte) : length data = length buf → fill buf data = data.
Proof.
  intros H. unfold fill. rewrite H, drop_all, app_nil_r. rewrite <- H. apply firstn_all.
Qed.

Lemma fill_length (buf data : list byte) : length (fill buf data) = length buf.
Proof.
  unfold fill. rewrite length_take, length_app, length_drop. lia.
Qed.

(** One iteration of the inner loop whose block is already in the
    blockstore: the loop goes on with the same list of mappings. The
    block's offset gets no entry. *)
Lemma backupBlocks_hit (bsDriver : BlockStoreDriver R) (sDriver : Driver Src)
    snapshotId volumeId (d : metadata.Mapping) (deltaBlockSize : Z) (n : nat) (i : Z)
    (block : list byte) (blocks : list BlockMapping) w
    (bytes : list byte) (s1 : Src) (checksum path fileName : string) (size : Z) (r1 : R) :
  let offset := wrap64 (metadata.Offset d + i * deltaBlockSize) in
  ReadSnapshot sDriver snapshotId volumeId offset block (source w) = ((None, bytes), s1) →
  blockChecksum (fill block bytes) = Some checksum →
  getBlockPathAndFileName volumeId checksum = Some (path, fileName) →
  FileSize bsDriver path fileName (remote w) = (size, r1) →
  0 ≤ size →
  backupBlocks bsDriver sDriver snapshotId volumeId d deltaBlockSize (S n) i block blocks w =
  backupBlocks bsDriver sDriver snapshotId volumeId d deltaBlockSize n (i + 1)
    (fill block bytes) blocks
    (record (EFileSize path fileName size)
       (set_remote r1 (record (EReadSnapshot snapshotId volumeId offset None)
                         (set_source s1 w)))).
Proof.
  intros offset Hread Hsum Hloc Hsize Hpos. cbn [backupBlocks]. fold offset.
  erewrite bind_ok by (by apply callReadSnapshot_run).
  rewrite Hsum. cbn [orPanic]. rewrite ret_bind, Hloc. cbn [orPanic]. rewrite ret_bind.
  cbv beta iota.
  erewrite bind_ok by (by apply callFileSize_run).
  apply Z.leb_le in Hpos. by rewrite Hpos.
Qed.

(** One iteration whose block is not yet in the blockstore: directory,
    upload, and an entry for the block's offset. *)
Lemma backupBlocks_miss (bsDriver : BlockStoreDriver R) (sDriver : Driver Src)
    snapshotId volumeId (d : metadata.Mapping) (deltaBlockSize : Z) (n : nat) (i : Z)
    (block : list byte) (blocks : list BlockMapping) w
    (bytes : list byte) (s1 : Src) (checksum path fileName : string) (size : Z)
    (r1 r2 r3 : R) :
  let offset := wrap64 (metadata.Offset d + i * deltaBlockSize) in
  ReadSnapshot sDriver snapshotId volumeId offset block (source w) = ((None, bytes), s1) →
  blockChecksum (fill block bytes) = Some checksum →
  getBlockPathAndFileName volumeId checksum = Some (path, fileName) →
  FileSize bsDriver path fileName (remote w) = (size, r1) →
  size < 0 →
  MkDirAll bsDriver path r1 = (None, r2) →
  Write bsDriver (fill block bytes) path fileName r2 = (None, r3) →
  backupBlocks bsDriver sDriver snapshotId volumeId d deltaBlockSize (S n) i block blocks w =
  backupBlocks bsDriver sDriver snapshotId volumeId d deltaBlockSize n (i + 1)
    (fill block bytes) (blocks ++ [mkBlockMapping offset checksum])
    (record (EWrite (fill block bytes) path fileName None)
       (set_remote r3
          (record (EMkDirAll path None)
             (set_remote r2
                (record (EFileSize path fileName size)
                   (set_remote r1 (record (EReadSnapshot snapshotId volumeId offset None)
                                     (set_source s1 w)))))))).
Proof.
  intros offset Hread Hsum Hloc Hsize Hneg Hmk Hwr. cbn [backupBlocks]. fold offset.
  erewrite bind_ok by (by apply callReadSnapshot_run).
  rewrite Hsum. cbn [orPanic]. rewrite ret_bind, Hloc. cbn [orPanic]. rewrite ret_bind.
  cbv beta iota.
  erewrite bind_ok by (by apply callFileSize_run).
  apply Z.leb_gt in Hneg. rewrite Hneg.
  erewrite bind_ok by (by apply callMkDirAll_run).
  erewrite bind_ok by (by apply callWrite_run). done.
Qed.

End Dedup.

(** ** Run-time panics of the backup (C10) *)

Section Safety.

Context {R Src : Type} {json : JSON}.

Implicit Types w : @World R Src.

Lemma np_ret {A} (a : A) : never_panics (mret a : @M R Src A).
Proof. by intros w. Qed.

Lemma np_fail {A} (e : string) : never_panics (fail e : @M R Src A).
Proof. by intros w. Qed.

Lemma np_check (err : option string) : never_panics (check err : @M R Src unit).
Proof. by destruct err. Qed.

Lemma np_bind {A B} (m : @M R Src A) (f : A → @M R Src B) :
  never_panics m → (∀ a, never_panics (f a)) → never_panics (m ≫= f).
Proof.
  intros Hm Hf w. specialize (Hm w). unfold mbind, M_bind.
  destruct (m w) as [[a|e|] w1]; simpl in *; try done. apply Hf.
Qed.

Lemma np_jsonMarshal {A} (marshal : A → string + list byte) (v : A) :
  never_panics (jsonMarshal marshal v : @M R Src (list byte)).
Proof. unfold jsonMarshal. destruct (marshal v); [apply np_fail|apply np_ret]. Qed.

Lemma np_GetBlockStoreDriver kind configFile id config :
  never_panics (@GetBlockStoreDriver R Src kind configFile id config).
Proof.
  intros w. unfold GetBlockStoreDriver.
  destruct (initializers w !! kind) as [init|]; [|done].
  by destruct (init configFile id config).
Qed.

Lemma np_callFileExists (drv : BlockStoreDriver R) path name :
  never_panics (@callFileExists R Src drv path name).
Proof. intros w. unfold callFileExists. by destruct (FileExists _ _ _ _). Qed.

Lemma np_callFileSize (drv : BlockStoreDriver R) path name :
  never_panics (@callFileSize R Src drv path name).
Proof. intros w. unfold callFileSize. by destruct (FileSize _ _ _ _). Qed.

Lemma np_callMkDirAll (drv : BlockStoreDriver R) dir :
  never_panics (@callMkDirAll R Src drv dir).
Proof. intros w. unfold callMkDirAll. by destruct (MkDirAll _ _ _) as [[e|] st]. Qed.

Lemma np_callRemoveAll (drv : BlockStoreDriver R) name :
  never_panics (@callRemoveAll R Src drv name).
Proof. intros w. unfold callRemoveAll. by destruct (RemoveAll _ _ _) as [[e|] st]. Qed.

Lemma np_callRead (drv : BlockStoreDriver R) path name data :
  never_panics (@callRead R Src drv path name data).
Proof. intros w. unfold callRead. by destruct (Read _ _ _ _ _) as [[[e|] bytes] st]. Qed.

Lemma np_callWrite (drv : BlockStoreDriver R) data path name :
  never_panics (@callWrite R Src drv data path name).
Proof. intros w. unfold callWrite. by destruct (Write _ _ _ _ _) as [[e|] st]. Qed.

Lemma np_callCompareSnapshot (sDriver : Driver Src) snapshotId lastSnapshotId volumeId :
  never_panics (@callCompareSnapshot R Src sDriver snapshotId lastSnapshotId volumeId).
Proof.
  intros w. unfold callCompareSnapshot.
  by destruct (CompareSnapshot _ _ _ _ _) as [[[e|] delta] st].
Qed.

Lemma np_callReadSnapshot (sDriver : Driver Src) snapshotId volumeId offset block :
  never_panics (@callReadSnapshot R Src sDriver snapshotId volumeId offset block).
Proof.
  intros w. unfold callReadSnapshot.
  by destruct (ReadSnapshot _ _ _ _ _ _) as [[[e|] bytes] st].
Qed.

Lemma np_SaveConfig file b : never_panics (@SaveConfig R Src file b).
Proof. intros w. unfold SaveConfig. by destruct (diskFault w file). Qed.

Lemma np_loadLastSnapshotMap (bsDriver : BlockStoreDriver R) volumeId lastSnapshotId :
  never_panics (@loadLastSnapshotMap R Src json bsDriver volumeId lastSnapshotId).
Proof.
  unfold loadLastSnapshotMap. case_decide; [|apply np_ret].
  apply np_bind; [apply np_callFileSize|intros fileSize].
  destruct (fileSize <? 0); [apply np_fail|].
  apply np_bind; [apply np_callRead|intros data].
  destruct (Unmarshal_SnapshotMap data); [apply np_fail|apply np_ret].
Qed.

Lemma np_ret_bind {A B} (a : A) (f : A → @M R Src B) :
  never_panics (f a) → never_panics (mret a ≫= f).
Proof. intros H w. exact (H w). Qed.

(** The inner loop never panics: the checksum it slices is always the
    64-character digest. *)
Lemma np_backupBlocks (bsDriver : BlockStoreDriver R) (sDriver : Driver Src)
    snapshotId volumeId d deltaBlockSize n :
  ∀ i block blocks,
  never_panics (backupBlocks bsDriver sDriver snapshotId volumeId d deltaBlockSize
                  n i block blocks).
Proof.
  induction n as [|n IH]; intros i block blocks; [apply np_ret|].
  cbn [backupBlocks].
  apply np_bind; [apply np_callReadSnapshot|intros block'].
  destruct (blockChecksum_spec block') as (Hsum & _ & Hlen & _).
  rewrite Hsum. cbn [orPanic]. apply np_ret_bind.
  destruct (proj2 (getBlockPathAndFileName_is_Some volumeId (spec_digest block')))
    as [[path fileName] Hloc]; [lia|].
  rewrite Hloc. cbn [orPanic]. apply np_ret_bind.
  apply np_bind; [apply np_callFileSize|intros size].
  destruct (0 <=? size); [apply IH|].
  apply np_bind; [apply np_callMkDirAll|intros _].
  apply np_bind; [apply np_callWrite|intros _]. apply IH.
Qed.

(** The outer loop panics only through the division by a zero block size. *)
Lemma np_backupExtents (bsDriver : BlockStoreDriver R) (sDriver : Driver Src)
    snapshotId volumeId blockSize deltaBlockSize mappings :
  deltaBlockSize ≠ 0 →
  ∀ blocks,
  never_panics (backupExtents bsDriver sDriver snapshotId volumeId blockSize deltaBlockSize
                  mappings blocks).
Proof.
  intros Hnz. apply Z.eqb_neq in Hnz.
  induction mappings as [|d rest IH]; intros blocks; [apply np_ret|].
  cbn [backupExtents]. rewrite Hnz. apply np_ret_bind.
  apply np_bind; [apply np_backupBlocks|intros blocks']. apply IH.
Qed.

(** [BackupSnapshot] panics only when the loaded record has block size 0
    (the loop bound divides by it); no slice expression ever panics. *)
Lemma BackupSnapshot_panic root snapshotId volumeId blockstoreId (sDriver : Driver Src) w :
  (BackupSnapshot root snapshotId volumeId blockstoreId sDriver w).1 = Panic →
  ∃ b, disk w !! getConfigFilename root blockstoreId = Some b ∧ BlockSize b = 0.
Proof.
  unfold BackupSnapshot. rewrite LoadConfig_bind.
  destruct (disk w !! getConfigFilename root blockstoreId) as [b|] eqn:Hb; [|done].
  destruct (decide (BlockSize b = 0)) as [Hz|Hnz]; [eauto|].
  intros Hpanic. exfalso. revert Hpanic.
  match goal with |- (?t ?w1).1 = Panic → False => assert (K : never_panics t) end; [|apply K].
  apply np_bind; [apply np_GetBlockStoreDriver|intros bsDriver].
  destruct (Volumes b !! volumeId) as [volume|]; [|apply np_fail].
  apply np_bind; [apply np_loadLastSnapshotMap|intros lastSnapshotMap].
  apply np_bind; [apply np_callCompareSnapshot|intros delta].
  case_decide as Hbs; [apply np_fail|].
  assert (metadata.BlockSize delta ≠ 0).
  { intros H0. apply Hnz. congruence. }
  apply np_bind; [by apply np_backupExtents|intros blocks].
  apply np_bind; [apply np_callFileExists|intros existed].
  apply np_bind; [destruct existed; [apply np_callRemoveAll|apply np_ret]|intros _].
  apply np_bind; [apply np_jsonMarshal|intros j].
  apply np_bind; [apply np_callWrite|intros _].
  apply np_SaveConfig.
Qed.

End Safety.

(** C10. The two slice expressions of [getBlockPathAndFileName] are in
    bounds exactly for checksums of length at least 4 (shorter ones make it
    panic); the checksum [BackupSnapshot] passes is always defined and 64
    characters long, so with it the slicing is in bounds for every block
    and every volume identifier; and [BackupSnapshot] as a whole, with
    any drivers, panics only on a blockstore record whose block size is 0
    (the division in the loop bound), never in a slice expression. *)
Theorem getBlockPathAndFileName_in_bounds :
  (∀ volumeId checksum,
     is_Some (getBlockPathAndFileName volumeId checksum) ↔ (4 ≤ String.length checksum)%nat) ∧
  (∀ volumeId checksum,
     getBlockPathAndFileName volumeId checksum = None ↔ (String.length checksum < 4)%nat) ∧
  (∀ volumeId block, ∃ checksum,
     blockChecksum block = Some checksum ∧ String.length checksum = 64%nat ∧
     is_Some (getBlockPathAndFileName volumeId checksum)) ∧
  (∀ (R Src : Type) (json : JSON) root snapshotId volumeId blockstoreId
     (sDriver : Driver Src) (w : @World R Src),
     (BackupSnapshot root snapshotId volumeId blockstoreId sDriver w).1 = Panic →
     ∃ b, disk w !! getConfigFilename root blockstoreId = Some b ∧ BlockSize b = 0).
Proof.
  split; [apply getBlockPathAndFileName_is_Some|]. split; [|split].
  3:{ intros R Src json root snapshotId volumeId blockstoreId sDriver w H.
      by eapply BackupSnapshot_panic. }
  - intros volumeId checksum.
    pose proof (getBlockPathAndFileName_is_Some volumeId checksum) as H.
    rewrite eq_None_not_Some, H. lia.
  - intros volumeId block. destruct (blockChecksum_spec block) as (Hsum & _ & Hlen & _).
    exists (spec_digest block). split; [done|]. split; [done|].
    apply getBlockPathAndFileName_is_Some. lia.
Qed.

(** ** The first scenario of the specification on the in-memory blockstore *)

Lemma mergeSnapshotMap_empty_last (id : string) (delta last : SnapshotMap) :
  Blocks last = [] → mergeSnapshotMap id delta last = mkSnapshotMap id (Blocks delta).
Proof. intros H. unfold mergeSnapshotMap. by rewrite decide_True by by rewrite H. Qed.

(** Bring a world built by the setters into constructor form. *)
Ltac world_norm :=
  cbv beta iota delta [record set_remote set_source set_disk set_initializers
                       initializers disk diskFault remote source calls].

Section ThreeEqualBlocks.

Import Testbed.

Lemma mem_key_not_manifest (l1 l2 f : string) :
  filepath.join [BLOCKSTORE_BASE; VOLUME_DIRECTORY; "vol1"; BLOCKS_DIRECTORY; l1; l2]
    +:+ "/" +:+ f ≠
  "rancher-blockstore/volume/vol1/snapshots/snapshot-snap1.cfg".
Proof.
  cbv [filepath.join BLOCKSTORE_BASE VOLUME_DIRECTORY BLOCKS_DIRECTORY].
  rewrite !string_app_cons, !string_app_nil. discriminate.
Qed.

Lemma digest_file_plain (d : string) :
  String.length d = 64%nat → all_chars is_lower_hex d = true → plain (d +:+ ".blk").
Proof.
  intros Hlen Hhex. destruct d as [|c d]; [done|].
  simpl in Hhex. apply andb_true_iff in Hhex as [Hc Hd].
  rewrite string_app_cons. repeat split.
  - done.
  - intros [= -> _]. done.
  - intros [= -> _]. done.
  - simpl. rewrite (lower_hex_not_separator c Hc). simpl.
    rewrite all_chars_app. rewrite (all_chars_impl _ _ d lower_hex_not_separator Hd). done.
Qed.

(** Where the in-memory blockstore keeps the block with digest [d] of
    volume [vol1], and that this is not where it keeps the manifest. *)
Lemma mem_block_key (block : list byte) :
  ∃ path fileName,
    getBlockPathAndFileName "vol1" (spec_digest block) = Some (path, fileName) ∧
    fullName path fileName ≠ "rancher-blockstore/volume/vol1/snapshots/snapshot-snap1.cfg".
Proof.
  destruct (blockChecksum_spec block) as (_ & _ & Hlen & Hhex).
  destruct (digest_layers block) as (l1 & l2 & Hl1 & Hl2 & Hpl1 & Hpl2).
  pose proof (getBlockPathAndFileName_layout "vol1" _ l1 l2 eq_refl Hpl1 Hpl2 Hl1 Hl2) as Hloc.
  eexists _, _. split; [exact Hloc|].
  assert (Hvol : plain "vol1") by done.
  destruct (getVolumePath_plain "vol1" eq_refl) as (dir & _ & _ & Hgvp & Hd).
  rewrite (Hd Hvol) in Hgvp. rewrite Hgvp.
  change (filepath.join [BLOCKSTORE_BASE; VOLUME_DIRECTORY; "vol1"] +:+
            "/blocks/" +:+ l1 +:+ "/" +:+ l2)
    with (filepath.join [BLOCKSTORE_BASE; VOLUME_DIRECTORY; "vol1"; BLOCKS_DIRECTORY; l1; l2]).
  unfold fullName.
  rewrite (Join_onto_plain
             [BLOCKSTORE_BASE; VOLUME_DIRECTORY; "vol1"; BLOCKS_DIRECTORY; l1; l2]
             [spec_digest block +:+ ".blk"]);
    [apply mem_key_not_manifest|done|done| |].
  - repeat (apply Forall_cons; split; [done|]). by apply Forall_nil.
  - apply Forall_cons. split; [by apply digest_file_plain|]. by apply Forall_nil.
Qed.

Lemma fill_zeros (len : nat) :
  fill (replicate len x00) (zeros 0 (length (replicate len x00))) = replicate len x00.
Proof. unfold zeros. rewrite length_replicate. apply fill_full. by rewrite !length_replicate. Qed.

(** The loop on a zero block that the store does not hold yet ... *)
Lemma mem_zero_block_miss (delta : metadata.Mappings) snapshotId (d : metadata.Mapping)
    (deltaBlockSize : Z) (n : nat) (i : Z) (len : nat) (blocks : list BlockMapping)
    inits dsk fault (st : Store) (log : list Event) (path fileName : string) :
  let block := replicate len x00 in
  let offset := wrap64 (metadata.Offset d + i * deltaBlockSize) in
  getBlockPathAndFileName "vol1" (spec_digest block) = Some (path, fileName) →
  st !! fullName path fileName = None →
  backupBlocks memDriver (tableSource delta zeros) snapshotId "vol1" d deltaBlockSize
    (S n) i block blocks (mkWorld inits dsk fault st tt log) =
  backupBlocks memDriver (tableSource delta zeros) snapshotId "vol1" d deltaBlockSize
    n (i + 1) block (blocks ++ [mkBlockMapping offset (spec_digest block)])
    (mkWorld inits dsk fault (<[fullName path fileName := block]> st) tt
       (log ++ [EReadSnapshot snapshotId "vol1" offset None;
                EFileSize path fileName (-1);
                EMkDirAll path None;
                EWrite block path fileName None])).
Proof.
  intros block offset Hloc Hst.
  erewrite (backupBlocks_miss memDriver (tableSource delta zeros) snapshotId "vol1" d
              deltaBlockSize n i block blocks _
              (zeros 0 (length block)) tt (spec_digest block) path fileName (-1)
              st st (<[fullName path fileName := block]> st)).
  - unfold block at 1 2 3 4. rewrite !fill_zeros. fold block. fold offset.
    world_norm. by rewrite <- !app_assoc.
  - done.
  - unfold block. rewrite fill_zeros. apply blockChecksum_spec.
  - done.
  - cbn [remote FileSize memDriver]. by rewrite Hst.
  - done.
  - done.
  - unfold block. by rewrite fill_zeros.
Qed.

(** ... and on a zero block that it holds already. *)
Lemma mem_zero_block_hit (delta : metadata.Mappings) snapshotId (d : metadata.Mapping)
    (deltaBlockSize : Z) (n : nat) (i : Z) (len : nat) (blocks : list BlockMapping)
    inits dsk fault (st : Store) (log : list Event) (path fileName : string)
    (data : list byte) :
  let block := replicate len x00 in
  let offset := wrap64 (metadata.Offset d + i * deltaBlockSize) in
  getBlockPathAndFileName "vol1" (spec_digest block) = Some (path, fileName) →
  st !! fullName path fileName = Some data →
  backupBlocks memDriver (tableSource delta zeros) snapshotId "vol1" d deltaBlockSize
    (S n) i block blocks (mkWorld inits dsk fault st tt log) =
  backupBlocks memDriver (tableSource delta zeros) snapshotId "vol1" d deltaBlockSize
    n (i + 1) block blocks
    (mkWorld inits dsk fault st tt
       (log ++ [EReadSnapshot snapshotId "vol1" offset None;
                EFileSize path fileName (Z.of_nat (length data))])).
Proof.
  intros block offset Hloc Hst.
  erewrite (backupBlocks_hit memDriver (tableSource delta zeros) snapshotId "vol1" d
              deltaBlockSize n i block blocks _
              (zeros 0 (length block)) tt (spec_digest block) path fileName
              (Z.of_nat (length data)) st).
  - unfold block at 1 2. rewrite !fill_zeros. fold block. fold offset.
    world_norm. by rewrite <- !app_assoc.
  - done.
  - unfold block. rewrite fill_zeros. apply blockChecksum_spec.
  - done.
  - cbn [remote FileSize memDriver]. by rewrite Hst.
  - lia.
Qed.

(** Three equal blocks, first backup: one upload, and a manifest with
    one entry. *)
Lemma backup_three_equal_blocks (bs : Z) :
  0 < bs →
  let block := replicate (Z.to_nat bs) x00 in
  let cfg := getConfigFilename "/root" "bs1" in
  let b0 := mkBlockStore "mem" bs
              {[ "vol1" := mkVolume (3 * bs) EmptyString EmptyString ]} in
  let src := tableSource (metadata.mkMappings [metadata.mkMapping 0 (3 * bs)] bs) zeros in
  let manifest := mkSnapshotMap "snap1" [mkBlockMapping 0 (spec_digest block)] in
  ∃ w' path fileName,
    BackupSnapshot "/root" "snap1" "vol1" "bs1" src (world {[ cfg := b0 ]} ∅) = (Ok tt, w') ∧
    getBlockPathAndFileName "vol1" (spec_digest block) = Some (path, fileName) ∧
    remote w' =
      <[ "rancher-blockstore/volume/vol1/snapshots/snapshot-snap1.cfg" :=
           list_byte_of_string (encodeSnapshotMap manifest) ]>
        {[ fullName path fileName := block ]} ∧
    disk w' = {[ cfg := b0 ]} ∧
    (persistedLastSnapshotId (disk w') cfg "vol1" = Some EmptyString).
Proof.
  intros Hbs block cfg b0 src manifest.
  destruct (mem_block_key block) as (path & fileName & Hloc & Hkey).
  eexists _, path, fileName. split; [|split; [exact Hloc|]].
  - unfold BackupSnapshot. rewrite LoadConfig_bind.
    fold cfg. unfold world at 1. cbn [disk].
    rewrite lookup_singleton_eq.
    erewrite bind_ok;
      [|eapply GetBlockStoreDriver_ok;
        [cbn [initializers record world]; apply lookup_singleton_eq|reflexivity]].
    cbn [b0 Volumes Kind BlockSize]. rewrite lookup_singleton_eq.
    cbn [LastSnapshotId].
    unfold loadLastSnapshotMap. rewrite decide_False by (intros H; by apply H).
    rewrite ret_bind.
    erewrite bind_ok by (apply callCompareSnapshot_run; reflexivity).
    cbn [src metadata.BlockSize metadata.Mappings_].
    rewrite decide_False by (intros H; by apply H).
    erewrite bind_ok.
    2:{ cbn [backupExtents].
        assert ((bs =? 0) = false) as -> by (apply Z.eqb_neq; lia).
        rewrite ret_bind. cbn [metadata.Size]. rewrite Z.div_mul by lia.
        change (Z.to_nat 3) with 3%nat.
        erewrite bind_ok.
        2:{ unfold world. world_norm. unfold src, block.
            erewrite (mem_zero_block_miss _ _ _ _ _ _ (Z.to_nat bs));
              [|exact Hloc|apply lookup_empty].
            erewrite (mem_zero_block_hit _ _ _ _ _ _ (Z.to_nat bs));
              [|exact Hloc|apply lookup_insert_eq].
            erewrite (mem_zero_block_hit _ _ _ _ _ _ (Z.to_nat bs));
              [|exact Hloc|apply lookup_insert_eq].
            cbn [backupBlocks]. reflexivity. }
        reflexivity. }
    erewrite bind_ok.
    2:{ apply callFileExists_run. world_norm. cbn [FileExists memDriver].
        rewrite lookup_insert_ne by exact Hkey. rewrite lookup_empty.
        rewrite bool_decide_false by (intros [? ?]; done). reflexivity. }
    cbv beta iota. rewrite ret_bind.
    rewrite mergeSnapshotMap_empty_last by done.
    unfold jsonMarshal. cbn [Marshal_SnapshotMap textJSON]. rewrite ret_bind.
    erewrite bind_ok by (apply callWrite_run; reflexivity).
    rewrite SaveConfig_run by reflexivity. reflexivity.
  - world_norm. cbn [Write memDriver fst snd]. fold block.
    change (wrap64 (metadata.Offset (metadata.mkMapping 0 (3 * bs)) + 0 * bs)) with 0.
    split; [reflexivity|]. split.
    + apply insert_id, lookup_singleton_eq.
    + unfold persistedLastSnapshotId. rewrite lookup_insert_eq. simpl.
      by rewrite lookup_singleton_eq.
Qed.

End ThreeEqualBlocks.

(** ** Dedup hits leave no entry (C2); AddVolume saves before it checks (C3) *)

(** C2. First backup of a 6 MiB volume of zeros with 2 MiB blocks, on the
    in-memory blockstore: the call succeeds, one block object is uploaded,
    and the manifest written has a single entry, for offset 0. The blocks
    at 2 MiB and 4 MiB are dedup hits; the loop [continue]s before the
    append, so they get no entry. (The persisted last snapshot id is still
    empty afterwards.) *)
Theorem BackupSnapshot_dedup_hit_no_entry :
  let block := replicate (Z.to_nat DEFAULT_BLOCK_SIZE) x00 in
  let cfg := getConfigFilename "/root" "bs1" in
  let b0 := mkBlockStore "mem" DEFAULT_BLOCK_SIZE
              {[ "vol1" := mkVolume (3 * DEFAULT_BLOCK_SIZE) EmptyString EmptyString ]} in
  let src := Testbed.tableSource
               (metadata.mkMappings [metadata.mkMapping 0 (3 * DEFAULT_BLOCK_SIZE)]
                                    DEFAULT_BLOCK_SIZE) Testbed.zeros in
  let manifest := mkSnapshotMap "snap1" [mkBlockMapping 0 (spec_digest block)] in
  ∃ w' path fileName,
    BackupSnapshot "/root" "snap1" "vol1" "bs1" src (Testbed.world {[ cfg := b0 ]} ∅)
      = (Ok tt, w') ∧
    getBlockPathAndFileName "vol1" (spec_digest block) = Some (path, fileName) ∧
    remote w' =
      <[ "rancher-blockstore/volume/vol1/snapshots/snapshot-snap1.cfg" :=
           list_byte_of_string (Testbed.encodeSnapshotMap manifest) ]>
        {[ Testbed.fullName path fileName := block ]} ∧
    disk w' = {[ cfg := b0 ]} ∧
    (persistedLastSnapshotId (disk w') cfg "vol1" = Some EmptyString).
Proof. exact (backup_three_equal_blocks DEFAULT_BLOCK_SIZE eq_refl). Qed.

(** The same run on 4-byte blocks, computed: three reads, one upload, and
    a manifest that decodes to one entry. *)
Example BackupSnapshot_small_run :
  let r := BackupSnapshot "/root" "snap1" "vol1" "bs1" Testbed.smallSource Testbed.smallWorld in
  let d := "ec2d57691d9b2d40182ac565032054b7d784ba96b18bcb5be0bb4e70e3fb041e" in
  r.1 = Ok tt ∧
  filter (λ e, touches_block e = true) (calls r.2) =
    [EReadSnapshot "snap1" "vol1" 0 None;
     EMkDirAll "rancher-blockstore/volume/vol1/blocks/ec/2d" None;
     EWrite (replicate 4 x00) "rancher-blockstore/volume/vol1/blocks/ec/2d" (d +:+ ".blk") None;
     EReadSnapshot "snap1" "vol1" 4 None;
     EReadSnapshot "snap1" "vol1" 8 None;
     EWrite (list_byte_of_string
               (Testbed.encodeSnapshotMap (mkSnapshotMap "snap1" [mkBlockMapping 0 d])))
            "rancher-blockstore/volume/vol1/snapshots" "snapshot-snap1.cfg" None] ∧
  (data ← remote r.2 !! "rancher-blockstore/volume/vol1/snapshots/snapshot-snap1.cfg";
   Some (Unmarshal_SnapshotMap data)) =
    Some (inr (mkSnapshotMap "snap1" [mkBlockMapping 0 d])).
Proof. vm_compute. repeat split; reflexivity. Qed.

(** C3. [AddVolume] on a registered blockstore whose remote side already
    holds [volume/vol1/volume.cfg]: the call fails with the already-existed
    error and writes nothing remotely, but by then it has saved the local
    record with the new volume in it; the local disk differs from the one
    before the call, and a second attempt is refused because the volume is
    now in the record. *)
Theorem AddVolume_saves_before_remote_check :
  let r := AddVolume "/root" "bs1" "vol1" EmptyString 6291456 Testbed.occupiedWorld in
  r.1 = Err "volume config file already existed in blockstore" ∧
  disk r.2 !! Testbed.configFile =
    Some (mkBlockStore "mem" DEFAULT_BLOCK_SIZE
            {[ "vol1" := mkVolume 6291456 EmptyString EmptyString ]}) ∧
  disk r.2 ≠ disk Testbed.occupiedWorld ∧
  remote r.2 = remote Testbed.occupiedWorld ∧
  (∀ e, e ∈ calls r.2 → ∀ data path name err, e ≠ EWrite data path name err) ∧
  (AddVolume "/root" "bs1" "vol1" EmptyString 6291456 r.2).1 =
    Err "volume vol1 already exists in blockstore bs1".
Proof.
  intros r. split; [vm_compute; reflexivity|]. split; [vm_compute; reflexivity|].
  split; [|split; [vm_compute; reflexivity|split; [|vm_compute; reflexivity]]].
  - intros H. apply (f_equal (λ d, Volumes <$> d !! Testbed.configFile)) in H.
    vm_compute in H. discriminate H.
  - intros e He data path name err ->. vm_compute in He.
    repeat (apply elem_of_cons in He as [He|He]; [discriminate He|]). inversion He.
Qed.

(** ** Instances of the conditional theorems *)

(** The broken chain on the in-memory blockstore: volume [vol1] points at
    snapshot [snap0], which has no manifest. *)
Lemma BackupSnapshot_missing_last_manifest_witness :
  ∃ w', BackupSnapshot "/root" "snap1" "vol1" "bs1" Testbed.idleSource
          Testbed.brokenChainWorld =
          (Err ("Last snapshot " +:+ "snap0" +:+ " doesn't existed in blockstore"), w') ∧
        calls w' = calls Testbed.brokenChainWorld ++
          [ELoadConfig (getConfigFilename "/root" "bs1");
           EFileSize (getSnapshotsPath "vol1") (getSnapshotConfigName "snap0") (-1)] ∧
        (∀ e, e ∈ drop (length (calls Testbed.brokenChainWorld)) (calls w') →
              touches_block e = false) ∧
        source w' = source Testbed.brokenChainWorld ∧ remote w' = ∅ ∧
        disk w' = disk Testbed.brokenChainWorld ∧
        persistedLastSnapshotId (disk w') (getConfigFilename "/root" "bs1") "vol1" =
          Some "snap0".
Proof.
  apply (BackupSnapshot_missing_last_manifest "/root" "snap1" "vol1" "bs1" Testbed.idleSource
           Testbed.brokenChainWorld
           (mkBlockStore "mem" DEFAULT_BLOCK_SIZE
              {[ "vol1" := mkVolume 6291456 EmptyString "snap0" ]})
           Testbed.memInit Testbed.memDriver
           (mkVolume 6291456 EmptyString "snap0") (-1) ∅).
  - vm_compute; reflexivity.
  - reflexivity.
  - reflexivity.
  - vm_compute; reflexivity.
  - simpl. discriminate.
  - vm_compute; reflexivity.
  - lia.
Defined.

(** A freshly registered blockstore: two volumes added, one backed up,
    one removed. *)
Lemma BlockSize_never_modified_witness :
  let ops := [OpAddVolume "/root" "bs1" "vol1" EmptyString 6291456;
              OpAddVolume "/root" "bs1" "vol2" EmptyString 4194304;
              OpBackupSnapshot "/root" "snap1" "vol1" "bs1" Testbed.idleSource;
              OpRemoveVolume "/root" "bs1" "vol2"] in
  let b' := mkBlockStore "mem" DEFAULT_BLOCK_SIZE
              {[ "vol1" := mkVolume 6291456 EmptyString EmptyString ]} in
  disk (execAll ops Testbed.registeredWorld) !! Testbed.configFile = Some b' ∧
  ((∃ b, disk Testbed.registeredWorld !! Testbed.configFile = Some b ∧
         BlockSize b' = BlockSize b) ∧
   ∃ evs, calls (execAll ops Testbed.registeredWorld) = calls Testbed.registeredWorld ++ evs ∧
     ∀ f b1 err, ESaveConfig f b1 err ∈ evs →
       ∃ b, disk Testbed.registeredWorld !! f = Some b ∧ BlockSize b1 = BlockSize b).
Proof.
  intros ops b'. split; [vm_compute; reflexivity|].
  apply (BlockSize_never_modified ops Testbed.registeredWorld Testbed.configFile b').
  vm_compute; reflexivity.
Defined.

(** ** Snapshot map merge: what the loop covers *)

(** Every offset of either side that does not lie beyond the end of the
    other side is emitted. *)
Lemma mergeRest_covers ds : ∀ ls o,
  ascending ds → ascending ls →
  o ∈ (Offset <$> ds) ∨ o ∈ (Offset <$> ls) →
  (∃ d, d ∈ ds ∧ o ≤ Offset d) → (∃ l, l ∈ ls ∧ o ≤ Offset l) →
  o ∈ (Offset <$> mergeRest ds ls).
Proof.
  induction ds as [|dB ds IHd]; intros ls; [by intros o _ _ _ (d & Hd & _); inversion Hd|].
  induction ls as [|lB ls IHl]; intros o Hd Hl Ho Hdb Hlb;
    [by destruct Hlb as (l & Hl' & _); inversion Hl'|].
  pose proof Hd as Hd'. pose proof Hl as Hl'.
  apply ascending_cons in Hd as [Hd Hdlt]. apply ascending_cons in Hl as [Hl Hllt].
  destruct Hdb as (d & Hdin & Hdle). destruct Hlb as (l & Hlin & Hlle).
  assert (Hlow : Z.min (Offset dB) (Offset lB) ≤ o).
  { destruct Ho as [Ho|Ho]; apply list_elem_of_fmap in Ho as (x & -> & Hx);
      apply elem_of_cons in Hx as [->|Hx]; try lia.
    - specialize (Hdlt _ Hx). lia.
    - specialize (Hllt _ Hx). lia. }
  simpl. destruct (Offset dB =? Offset lB) eqn:He;
    [apply Z.eqb_eq in He|apply Z.eqb_neq in He; destruct (Offset dB <? Offset lB) eqn:Hlt;
       [apply Z.ltb_lt in Hlt|apply Z.ltb_ge in Hlt]].
  - rewrite fmap_cons. destruct (decide (o = Offset dB)) as [->|Hne]; [left|right].
    apply IHd; try done.
    + destruct Ho as [Ho|Ho]; rewrite fmap_cons in Ho;
        apply elem_of_cons in Ho as [Ho|Ho]; try lia; auto.
    + exists d. split; [|done]. apply elem_of_cons in Hdin as [->|?]; [lia|done].
    + exists l. split; [|done]. apply elem_of_cons in Hlin as [->|?]; [lia|done].
  - rewrite fmap_cons. destruct (decide (o = Offset dB)) as [->|Hne]; [left|right].
    apply (IHd (lB :: ls)); try done.
    + destruct Ho as [Ho|Ho]; [|by right]. rewrite fmap_cons in Ho.
      apply elem_of_cons in Ho as [Ho|Ho]; [done|by left].
    + exists d. split; [|done]. apply elem_of_cons in Hdin as [->|?]; [lia|done].
    + by exists l.
  - rewrite fmap_cons. destruct (decide (o = Offset lB)) as [->|Hne]; [left|right].
    apply IHl; try done.
    + destruct Ho as [Ho|Ho]; [by left|]. rewrite fmap_cons in Ho.
      apply elem_of_cons in Ho as [Ho|Ho]; [done|by right].
    + by exists d.
    + exists l. split; [|done]. apply elem_of_cons in Hlin as [->|?]; [lia|done].
Qed.

Lemma mergeRest_aligned ds : ∀ ls,
  Forall2 (λ d l, Offset d = Offset l) ds ls → mergeRest ds ls = ds.
Proof.
  induction ds as [|dB ds IH]; intros ls H; [by rewrite mergeRest_nil_l|].
  inversion H as [|? lB ? ls' Heq Hrest]; subst. simpl.
  rewrite Heq, Z.eqb_refl. by rewrite IH.
Qed.

(** X1. For ascending inputs and a non-empty last map, the offsets of the
    merged map are exactly the offsets of either input that lie beyond
    neither the largest offset of the delta nor the largest offset of the
    last map: the merge is complete up to the end of the shorter side and
    holds nothing after it. *)
Theorem mergeSnapshotMap_offsets (id : string) (delta last : SnapshotMap) (o : Z) :
  ascending (Blocks delta) → ascending (Blocks last) → Blocks last ≠ [] →
  o ∈ (Offset <$> Blocks (mergeSnapshotMap id delta last)) ↔
  (o ∈ (Offset <$> Blocks delta) ∨ o ∈ (Offset <$> Blocks last)) ∧
  (∃ d, d ∈ Blocks delta ∧ o ≤ Offset d) ∧ (∃ l, l ∈ Blocks last ∧ o ≤ Offset l).
Proof.
  intros Hd Hl Hne. rewrite mergeSnapshotMap_blocks.
  destruct (Blocks last) as [|lB ls] eqn:E; [done|]. rewrite <- E in *. clear E lB ls Hne.
  split.
  - intros Ho. apply list_elem_of_fmap in Ho as (x & -> & Hx). split.
    + destruct (mergeRest_elem _ _ _ Hx); [left|right]; apply list_elem_of_fmap; eauto.
    + by apply (mergeRest_bounded (Blocks delta) (Blocks last) x).
  - intros (Ho & Hdb & Hlb). by apply mergeRest_covers.
Qed.

Lemma mergeSnapshotMap_offsets_witness :
  let delta := mkSnapshotMap EmptyString [mkBlockMapping 2097152 "x"; mkBlockMapping 6291456 "y"] in
  let last := mkSnapshotMap "s1" [mkBlockMapping 0 "z"; mkBlockMapping 2097152 "z";
                                  mkBlockMapping 4194304 "z"] in
  4194304 ∈ (Offset <$> Blocks (mergeSnapshotMap "s2" delta last)) ↔
  (4194304 ∈ (Offset <$> Blocks delta) ∨ 4194304 ∈ (Offset <$> Blocks last)) ∧
  (∃ d, d ∈ Blocks delta ∧ 4194304 ≤ Offset d) ∧ (∃ l, l ∈ Blocks last ∧ 4194304 ≤ Offset l).
Proof.
  apply (mergeSnapshotMap_offsets "s2"); [| |done]; unfold ascending; simpl;
    repeat (constructor; try lia).
Defined.

(** X2. A delta whose entries sit, one for one and in the same order, at
    the offsets of the last map's entries replaces the last map wholesale:
    [mergeSnapshotMap] returns the snapshot id with exactly the delta's
    entries, whether or not the offsets are ascending. *)
Theorem mergeSnapshotMap_full_delta (id : string) (delta last : SnapshotMap) :
  Forall2 (λ d l, Offset d = Offset l) (Blocks delta) (Blocks last) →
  mergeSnapshotMap id delta last = mkSnapshotMap id (Blocks delta).
Proof.
  intros H. unfold mergeSnapshotMap. case_decide as Hlen; [done|]. f_equal.
  rewrite mergeLoop_mergeRest by lia. rewrite !drop_0. by apply mergeRest_aligned.
Qed.

Lemma mergeSnapshotMap_full_delta_witness :
  mergeSnapshotMap "s2"
    (mkSnapshotMap EmptyString [mkBlockMapping 0 "x"; mkBlockMapping 2097152 "y"])
    (mkSnapshotMap "s1" [mkBlockMapping 0 "a"; mkBlockMapping 2097152 "b"]) =
  mkSnapshotMap "s2" [mkBlockMapping 0 "x"; mkBlockMapping 2097152 "y"].
Proof.
  apply (mergeSnapshotMap_full_delta "s2"
           (mkSnapshotMap EmptyString [mkBlockMapping 0 "x"; mkBlockMapping 2097152 "y"])
           (mkSnapshotMap "s1" [mkBlockMapping 0 "a"; mkBlockMapping 2097152 "b"])).
  repeat constructor.
Defined.

Lemma mergeRest_cons dB ds lB ls :
  mergeRest (dB :: ds) (lB :: ls) =
  if Offset dB =? Offset lB then dB :: mergeRest ds ls
  else if Offset dB <? Offset lB then dB :: mergeRest ds (lB :: ls)
  else lB :: mergeRest (dB :: ds) ls.
Proof. done. Qed.

Lemma mergeRest_length ds : ∀ ls,
  (Nat.min (length ds) (length ls) ≤ length (mergeRest ds ls) ≤ length ds + length ls)%nat.
Proof.
  induction ds as [|dB ds IHd]; intros ls; [rewrite mergeRest_nil_l; simpl; lia|].
  induction ls as [|lB ls IHl]; [rewrite mergeRest_nil_r; simpl; lia|].
  rewrite mergeRest_cons.
  destruct (Offset dB =? Offset lB); [|destruct (Offset dB <? Offset lB)]; cbn [length] in *.
  - specialize (IHd ls). lia.
  - specialize (IHd (lB :: ls)). cbn [length] in IHd. lia.
  - lia.
Qed.

(** X3. The merge loop leaves through its guard: with any iteration bound
    of at least [len(delta) + len(last)] it returns what it returns with
    exactly that bound, after at least as many iterations as the shorter
    side has entries and at most as many as both sides have together
    (each iteration appends one entry). *)
Theorem mergeLoop_exits_by_guard (ds ls : list BlockMapping) (fuel : nat) :
  (length ds + length ls ≤ fuel)%nat →
  mergeLoop fuel ds ls 0 0 [] = mergeLoop (length ds + length ls) ds ls 0 0 [] ∧
  (Nat.min (length ds) (length ls) ≤ length (mergeLoop fuel ds ls 0 0 [])
     ≤ length ds + length ls)%nat.
Proof.
  intros Hfuel. rewrite !mergeLoop_mergeRest by lia. rewrite !drop_0. split; [done|].
  apply mergeRest_length.
Qed.

Lemma mergeLoop_exits_by_guard_witness :
  let ds := [mkBlockMapping 2097152 "x"] in
  let ls := [mkBlockMapping 0 "z"; mkBlockMapping 2097152 "z"; mkBlockMapping 4194304 "z"] in
  mergeLoop 10 ds ls 0 0 [] = mergeLoop (length ds + length ls) ds ls 0 0 [] ∧
  (Nat.min (length ds) (length ls) ≤ length (mergeLoop 10 ds ls 0 0 [])
     ≤ length ds + length ls)%nat.
Proof.
  apply (mergeLoop_exits_by_guard [mkBlockMapping 2097152 "x"]
           [mkBlockMapping 0 "z"; mkBlockMapping 2097152 "z"; mkBlockMapping 4194304 "z"] 10).
  simpl. lia.
Defined.

(** ** Driver registry and volume registry: what each call leaves behind *)

Section Volumes.

Context {R Src : Type} {json : JSON}.

Implicit Types w : @World R Src.

Local Arguments filepath.Join : simpl never.

(** Name the result and the final world of the run [m], then go through
    the paths of the straight-line code that produced them. *)
Ltac run_cases m :=
  let E := fresh "Hrun" in
  remember m as r eqn:E; destruct r as [? ?]; symmetry in E; simpl in *;
  unfold AddVolume, RemoveVolume, GetBlockStoreDriver, LoadConfig, SaveConfig,
    callMkDirAll, callRemoveAll, callFileExists, callWrite, jsonMarshal, check, fail,
    mbind, M_bind, mret, M_ret in E;
  repeat case_match; simplify_eq/=.

(** X4. [GetBlockStoreDriver] after [RegisterDriver kind initFunc]: the
    driver of [kind] is built by the constructor that was registered
    first for it (the given one when the kind was free), applied to the
    config file, id and config handed in; every other kind is served as
    before the registration, an unknown one refused. The lookup changes
    nothing. *)
Theorem GetBlockStoreDriver_after_RegisterDriver (kind other configFile id : string)
    (config : option (gmap string string)) (initFunc : InitFunc R) w :
  let w1 := (RegisterDriver kind initFunc w).2 in
  let built (init : InitFunc R) : outcome (BlockStoreDriver R) :=
    match init configFile id config with inl e => Err e | inr drv => Ok drv end in
  GetBlockStoreDriver kind configFile id config w1 =
    (built (default initFunc (initializers w !! kind)), w1) ∧
  (other ≠ kind →
   GetBlockStoreDriver other configFile id config w1 =
     (match initializers w !! other with
      | Some init => built init
      | None => Err ("Driver " +:+ other +:+ " is not supported!")
      end, w1)).
Proof.
  intros w1 built. subst w1 built. unfold RegisterDriver, GetBlockStoreDriver.
  destruct (initializers w !! kind) as [first|] eqn:Hk; simpl.
  - rewrite Hk. simpl. split; [by destruct (first configFile id config)|].
    intros _. destruct (initializers w !! other) as [init|]; [|done].
    by destruct (init configFile id config).
  - rewrite lookup_insert_eq. simpl. split; [by destruct (initFunc configFile id config)|].
    intros Hne. rewrite lookup_insert_ne by done.
    destruct (initializers w !! other) as [init|]; [|done].
    by destruct (init configFile id config).
Qed.

(** The paths of [AddVolume], side by side. *)
Lemma AddVolume_cases (root id volumeId base : string) (size : Z) w :
  let cfg := getConfigFilename root id in
  let vol := mkVolume size base EmptyString in
  let res := (AddVolume root id volumeId base size w).1 in
  let w' := (AddVolume root id volumeId base size w).2 in
  (res = Ok tt →
     ∃ b j, disk w !! cfg = Some b ∧ Volumes b !! volumeId = None ∧
       Marshal_Volume vol = inr j ∧
       let b' := mkBlockStore (Kind b) (BlockSize b) (<[volumeId := vol]> (Volumes b)) in
       disk w' = <[cfg := b']> (disk w) ∧
       calls w' = calls w ++
         [ELoadConfig cfg;
          EMkDirAll (getVolumePath volumeId) None;
          ESaveConfig cfg b' None;
          EFileExists (getVolumePath volumeId) VOLUME_CONFIG_FILE false;
          EWrite j (getVolumePath volumeId) VOLUME_CONFIG_FILE None]) ∧
  (∀ b, disk w !! cfg = Some b → is_Some (Volumes b !! volumeId) →
     res = Err ("volume " +:+ volumeId +:+ " already exists in blockstore " +:+ id) ∧
     disk w' = disk w ∧ remote w' = remote w ∧ calls w' = calls w ++ [ELoadConfig cfg]) ∧
  (disk w !! cfg = None →
     res = Err ("open " +:+ cfg +:+ ": no such file or directory") ∧
     disk w' = disk w ∧ remote w' = remote w ∧ calls w' = calls w ++ [ELoadConfig cfg]) ∧
  (disk w' = disk w ∨
   ∃ b, disk w !! cfg = Some b ∧ Volumes b !! volumeId = None ∧
     disk w' = <[cfg := mkBlockStore (Kind b) (BlockSize b) (<[volumeId := vol]> (Volumes b))]>
                 (disk w)).
Proof.
  intros cfg vol res w'. subst res w' cfg vol.
  run_cases (AddVolume root id volumeId base size w);
    (split; [intros H; simplify_eq|split; [intros b' Hb' [v' Hv']; simplify_eq|split;
      [intros Hb'; simplify_eq|]]]); try done; eauto.
  eexists _, _. split; [done|]. split; [done|]. split; [done|].
  simpl. split; [done|]. by rewrite <- !app_assoc.
Qed.

(** The paths of [RemoveVolume], side by side. *)
Lemma RemoveVolume_cases (root id volumeId : string) w :
  let cfg := getConfigFilename root id in
  let res := (RemoveVolume root id volumeId w).1 in
  let w' := (RemoveVolume root id volumeId w).2 in
  (res = Ok tt →
     ∃ b v, disk w !! cfg = Some b ∧ Volumes b !! volumeId = Some v ∧
       let b' := mkBlockStore (Kind b) (BlockSize b) (delete volumeId (Volumes b)) in
       disk w' = <[cfg := b']> (disk w) ∧
       calls w' = calls w ++
         [ELoadConfig cfg; ERemoveAll (getVolumePath volumeId) None; ESaveConfig cfg b' None]) ∧
  (res ≠ Ok tt → disk w' = disk w) ∧
  (∀ b, disk w !! cfg = Some b → Volumes b !! volumeId = None →
     res = Err ("volume " +:+ volumeId +:+ " doesn't exist in blockstore " +:+ id) ∧
     remote w' = remote w ∧ calls w' = calls w ++ [ELoadConfig cfg]) ∧
  (disk w !! cfg = None → disk w' = disk w).
Proof.
  intros cfg res w'. subst res w' cfg.
  run_cases (RemoveVolume root id volumeId w);
    (split; [intros H; simplify_eq|split; [intros H; try done|split;
      [intros b' Hb' Hv'; simplify_eq|intros Hb'; simplify_eq]]]); try done.
  eexists _, _. split; [done|]. split; [done|]. simpl. split; [done|].
  by rewrite <- !app_assoc.
Qed.

(** One operation: only the record it names can change, it is neither
    created nor removed, it keeps its kind, and only the entry of the
    volume the operation names can differ. *)
Lemma exec_frame (op : @Op Src) w :
  (∀ f, f ≠ op_record op → disk (exec op w).2 !! f = disk w !! f) ∧
  (disk w !! op_record op = None → disk (exec op w).2 = disk w) ∧
  (∀ b, disk w !! op_record op = Some b →
     ∃ b', disk (exec op w).2 !! op_record op = Some b' ∧
       Kind b' = Kind b ∧
       ∀ v, v ≠ op_volume op → Volumes b' !! v = Volumes b !! v).
Proof.
  destruct op as [root id volumeId base size|root id volumeId|root sid volumeId bsid sDriver];
    simpl.
  - destruct (AddVolume_cases root id volumeId base size w) as (_ & _ & Hnone & [->|Hsave]).
    { split; [done|]. split; [done|]. eauto. }
    destruct Hsave as (b & Hb & Hv & ->). split; [|split].
    + intros f Hf. by rewrite lookup_insert_ne.
    + intros Hb'. by rewrite Hb' in Hb.
    + intros b0 Hb0. rewrite Hb in Hb0. injection Hb0 as <-.
      rewrite lookup_insert_eq. eexists. split; [done|]. simpl. split; [done|].
      intros v' Hv'. by rewrite lookup_insert_ne.
  - destruct (RemoveVolume_cases root id volumeId w) as (Hok & Herr & _ & Hnone).
    destruct ((RemoveVolume root id volumeId w).1) as [[]|e|];
      [|rewrite Herr by done; split; [done|]; split; [done|]; eauto..].
    destruct (Hok eq_refl) as (b & v & Hb & Hv & -> & _). split; [|split].
    + intros f Hf. by rewrite lookup_insert_ne.
    + intros Hb'. by rewrite Hb' in Hb.
    + intros b0 Hb0. rewrite Hb in Hb0. injection Hb0 as <-.
      rewrite lookup_insert_eq. eexists. split; [done|]. simpl. split; [done|].
      intros v' Hv'. by rewrite lookup_delete_ne.
  - rewrite BackupSnapshot_disk. split; [done|]. split; [done|]. eauto.
Qed.

(** X5. The outcomes of [AddVolume]. When it returns success, the record
    was there without the volume, the record saved is the loaded one with
    the volume added under an empty last snapshot id, and the calls made
    are, in this order: load, remote directory of the volume, save,
    existence test of [volume.cfg], write of the marshalled volume. When
    the volume is already in the record, or the record cannot be loaded,
    the call fails with the error of that case after the load alone:
    nothing is saved and the remote side is not called. *)
Theorem AddVolume_outcomes (root id volumeId base : string) (size : Z) w :
  let cfg := getConfigFilename root id in
  let vol := mkVolume size base EmptyString in
  let res := (AddVolume root id volumeId base size w).1 in
  let w' := (AddVolume root id volumeId base size w).2 in
  (res = Ok tt →
     ∃ b j, disk w !! cfg = Some b ∧ Volumes b !! volumeId = None ∧
       Marshal_Volume vol = inr j ∧
       let b' := mkBlockStore (Kind b) (BlockSize b) (<[volumeId := vol]> (Volumes b)) in
       disk w' = <[cfg := b']> (disk w) ∧
       calls w' = calls w ++
         [ELoadConfig cfg;
          EMkDirAll (getVolumePath volumeId) None;
          ESaveConfig cfg b' None;
          EFileExists (getVolumePath volumeId) VOLUME_CONFIG_FILE false;
          EWrite j (getVolumePath volumeId) VOLUME_CONFIG_FILE None]) ∧
  (∀ b, disk w !! cfg = Some b → is_Some (Volumes b !! volumeId) →
     res = Err ("volume " +:+ volumeId +:+ " already exists in blockstore " +:+ id) ∧
     disk w' = disk w ∧ remote w' = remote w ∧ calls w' = calls w ++ [ELoadConfig cfg]) ∧
  (disk w !! cfg = None →
     res = Err ("open " +:+ cfg +:+ ": no such file or directory") ∧
     disk w' = disk w ∧ remote w' = remote w ∧ calls w' = calls w ++ [ELoadConfig cfg]).
Proof.
  intros cfg vol res w'.
  destruct (AddVolume_cases root id volumeId base size w) as (H1 & H2 & H3 & _). auto.
Qed.

(** X6. [RemoveVolume] is all or nothing on the local record. When it
    returns success, the volume was in the record, the record saved is
    the loaded one without it, and the calls made are load, removal of
    the remote volume directory, save. Whenever it does not return
    success the local disk is as before the call; for a volume that is
    not in the record the error says so and the remote side is not
    called. *)
Theorem RemoveVolume_all_or_nothing (root id volumeId : string) w :
  let cfg := getConfigFilename root id in
  let res := (RemoveVolume root id volumeId w).1 in
  let w' := (RemoveVolume root id volumeId w).2 in
  (res = Ok tt →
     ∃ b v, disk w !! cfg = Some b ∧ Volumes b !! volumeId = Some v ∧
       let b' := mkBlockStore (Kind b) (BlockSize b) (delete volumeId (Volumes b)) in
       disk w' = <[cfg := b']> (disk w) ∧
       calls w' = calls w ++
         [ELoadConfig cfg; ERemoveAll (getVolumePath volumeId) None; ESaveConfig cfg b' None]) ∧
  (res ≠ Ok tt → disk w' = disk w) ∧
  (∀ b, disk w !! cfg = Some b → Volumes b !! volumeId = None →
     res = Err ("volume " +:+ volumeId +:+ " doesn't exist in blockstore " +:+ id) ∧
     remote w' = remote w ∧ calls w' = calls w ++ [ELoadConfig cfg]).
Proof.
  intros cfg res w'.
  destruct (RemoveVolume_cases root id volumeId w) as (H1 & H2 & H3 & _). auto.
Qed.

(** X7. [AddVolume] followed by [RemoveVolume] of the same volume, both
    successful, leaves the local disk as it was before the two calls. *)
Theorem AddVolume_RemoveVolume_round_trip (root id volumeId base : string) (size : Z) w :
  (AddVolume root id volumeId base size w).1 = Ok tt →
  (RemoveVolume root id volumeId (AddVolume root id volumeId base size w).2).1 = Ok tt →
  disk (RemoveVolume root id volumeId (AddVolume root id volumeId base size w).2).2 = disk w.
Proof.
  intros H1 H2.
  destruct (AddVolume_cases root id volumeId base size w) as (Hadd & _).
  destruct (Hadd H1) as (b & j & Hb & Hv & _ & Hd1 & _).
  destruct (RemoveVolume_cases root id volumeId (AddVolume root id volumeId base size w).2)
    as (Hrm & _).
  destruct (Hrm H2) as (b1 & v & Hb1 & _ & Hd2 & _).
  rewrite Hd2. rewrite Hd1 in Hb1 |- *. rewrite lookup_insert_eq in Hb1.
  injection Hb1 as <-. simpl. rewrite insert_insert_eq.
  rewrite delete_insert_eq. rewrite delete_id by done.
  destruct b. by apply insert_id.
Qed.

(** X8. Whatever sequence of [AddVolume], [RemoveVolume] and
    [BackupSnapshot] calls is issued and whatever each of them returns: no
    record file appears or disappears, every record keeps its kind, and
    the entry of a volume in a record is untouched unless a call of the
    sequence names that record and that volume. *)
Theorem execAll_frame (ops : list (@Op Src)) w (f : string) :
  (is_Some (disk (execAll ops w) !! f) ↔ is_Some (disk w !! f)) ∧
  ∀ b b', disk w !! f = Some b → disk (execAll ops w) !! f = Some b' →
    Kind b' = Kind b ∧
    ∀ v, Forall (λ op, ¬ (op_record op = f ∧ op_volume op = v)) ops →
         Volumes b' !! v = Volumes b !! v.
Proof.
  revert w. induction ops as [|op ops IH]; intros w; simpl.
  { split; [done|]. intros b b' Hb Hb'. rewrite Hb in Hb'. by injection Hb' as <-. }
  destruct (IH (exec op w).2) as [IH1 IH2].
  destruct (exec_frame op w) as (Hother & Hnone & Hsome).
  destruct (decide (f = op_record op)) as [->|Hf].
  - destruct (disk w !! op_record op) as [b|] eqn:Hb.
    + destruct (Hsome b eq_refl) as (b1 & Hb1 & Hk & Hvols). split.
      * rewrite IH1, Hb1. split; eauto.
      * intros b0 b' Hb0 Hb'. injection Hb0 as <-.
        destruct (IH2 b1 b' Hb1 Hb') as [Hk' Hv']. split; [congruence|].
        intros v Hall. apply Forall_cons in Hall as [Hop Hall].
        rewrite (Hv' v Hall). apply Hvols. intros ->. by apply Hop.
    + rewrite (Hnone eq_refl) in IH1, IH2. rewrite IH1, Hb. split; [done|]. done.
  - rewrite (Hother f Hf) in IH1, IH2. split; [done|].
    intros b b' Hb Hb'. destruct (IH2 b b' Hb Hb') as [Hk Hv]. split; [done|].
    intros v Hall. apply Forall_cons in Hall as [_ Hall]. auto.
Qed.

End Volumes.

Lemma AddVolume_RemoveVolume_round_trip_witness :
  disk (RemoveVolume "/root" "bs1" "vol1"
          (AddVolume "/root" "bs1" "vol1" EmptyString 6291456 Testbed.registeredWorld).2).2 =
  disk Testbed.registeredWorld.
Proof.
  apply (AddVolume_RemoveVolume_round_trip "/root" "bs1" "vol1" EmptyString 6291456
           Testbed.registeredWorld); vm_compute; reflexivity.
Defined.

(** ** The backup loops and the call log *)

Section BackupLog.

Context {R Src : Type} {json : JSON}.

Implicit Types w : @World R Src.

Lemma logged_refl (P : Event → Prop) w : logged P w w.
Proof. exists []. by rewrite app_nil_r. Qed.

Lemma logged_trans (P : Event → Prop) w1 w2 w3 :
  logged P w1 w2 → logged P w2 w3 → logged P w1 w3.
Proof.
  intros (e1 & H1 & HP1) (e2 & H2 & HP2). exists (e1 ++ e2).
  rewrite H2, H1, <- app_assoc. split; [done|]. by apply Forall_app.
Qed.

Lemma logged_bind {A B} (P : Event → Prop) (m : @M R Src A) (f : A → @M R Src B) :
  keeps (logged P) m → (∀ a, keeps (logged P) (f a)) → keeps (logged P) (m ≫= f).
Proof.
  intros Hm Hf w. unfold mbind, M_bind. specialize (Hm w).
  destruct (m w) as [[a|e|] w1]; simpl in *; [|done..].
  eapply logged_trans; [done|]. apply Hf.
Qed.

Local Arguments blockChecksum : simpl never.
Local Arguments getBlockPathAndFileName : simpl never.
Local Arguments wrap64 : simpl never.
Local Arguments filepath.Join : simpl never.

(** One iteration of the inner loop up to the test of the block's size on
    the remote side. *)
Lemma backupBlocks_step (bsDriver : BlockStoreDriver R) (sDriver : Driver Src)
    snapshotId volumeId (d : metadata.Mapping) (deltaBlockSize : Z) (n : nat) (i : Z)
    (block : list byte) (blocks : list BlockMapping) w
    (bytes : list byte) (s1 : Src) (checksum path fileName : string) (size : Z) (r1 : R) :
  let offset := wrap64 (metadata.Offset d + i * deltaBlockSize) in
  ReadSnapshot sDriver snapshotId volumeId offset block (source w) = ((None, bytes), s1) →
  blockChecksum (fill block bytes) = Some checksum →
  getBlockPathAndFileName volumeId checksum = Some (path, fileName) →
  FileSize bsDriver path fileName (remote w) = (size, r1) →
  backupBlocks bsDriver sDriver snapshotId volumeId d deltaBlockSize (S n) i block blocks w =
  (if 0 <=? size then
     backupBlocks bsDriver sDriver snapshotId volumeId d deltaBlockSize n (i + 1)
       (fill block bytes) blocks
   else
     callMkDirAll bsDriver path ;;
     callWrite bsDriver (fill block bytes) path fileName ;;
     backupBlocks bsDriver sDriver snapshotId volumeId d deltaBlockSize n (i + 1)
       (fill block bytes) (blocks ++ [mkBlockMapping offset checksum]))
    (record (EFileSize path fileName size)
       (set_remote r1 (record (EReadSnapshot snapshotId volumeId offset None)
                         (set_source s1 w)))).
Proof.
  intros offset Hread Hsum Hloc Hsize. cbn [backupBlocks]. fold offset.
  erewrite bind_ok by (by apply callReadSnapshot_run).
  rewrite Hsum. cbn [orPanic]. rewrite ret_bind, Hloc. cbn [orPanic]. rewrite ret_bind.
  cbv beta iota.
  erewrite bind_ok by (by apply callFileSize_run). done.
Qed.

(** The calls of one iteration are within the footprint. *)
Ltac footprint :=
  repeat (apply Forall_cons; split); try done;
  first [exact I | by eexists _, _ | (right; split; [done|]; by eexists)].

(** One extent. The block buffer keeps its length; what is written is the
    buffer, at the location of its digest; the entries appended are those
    of the blocks written. *)
Lemma backupBlocks_log (bsDriver : BlockStoreDriver R) (sDriver : Driver Src)
    (snapshotId volumeId : string) (d : metadata.Mapping) (deltaBlockSize blockSize : Z)
    (n : nat) : ∀ (i : Z) (block : list byte) (blocks : list BlockMapping) w,
  length block = Z.to_nat blockSize →
  ∃ evs,
    calls (backupBlocks bsDriver sDriver snapshotId volumeId d deltaBlockSize n i block
             blocks w).2 = calls w ++ evs ∧
    Forall (backup_footprint blockSize snapshotId volumeId) evs ∧
    ∀ blocks',
      (backupBlocks bsDriver sDriver snapshotId volumeId d deltaBlockSize n i block
         blocks w).1 = Ok blocks' →
      ∀ o, blocks' = blocks ++ uploaded o evs.
Proof.
  induction n as [|n IH]; intros i block blocks w Hlen.
  { exists []. simpl. rewrite !app_nil_r. split; [done|]. split; [done|].
    by intros blocks' [= <-] o. }
  set (offset := wrap64 (metadata.Offset d + i * deltaBlockSize)).
  destruct (ReadSnapshot sDriver snapshotId volumeId offset block (source w))
    as [[[e|] bytes] s1] eqn:Hread.
  { cbn [backupBlocks]. fold offset. erewrite bind_err
      by (unfold callReadSnapshot; rewrite Hread; reflexivity).
    eexists [_]. split; [done|]. split; [footprint|done]. }
  assert (Hlen1 : length (fill block bytes) = Z.to_nat blockSize) by by rewrite fill_length.
  destruct (blockChecksum (fill block bytes)) as [c|] eqn:Hc.
  2: { cbn [backupBlocks]. fold offset.
       erewrite bind_ok by (by apply callReadSnapshot_run). rewrite Hc.
       eexists [_]. split; [done|]. split; [footprint|done]. }
  destruct (getBlockPathAndFileName volumeId c) as [[path fileName]|] eqn:Hloc.
  2: { cbn [backupBlocks]. fold offset.
       erewrite bind_ok by (by apply callReadSnapshot_run). rewrite Hc.
       cbn [orPanic]. rewrite ret_bind, Hloc.
       eexists [_]. split; [done|]. split; [footprint|done]. }
  destruct (FileSize bsDriver path fileName (remote w)) as [size r1] eqn:Hsize.
  rewrite (backupBlocks_step _ _ _ _ _ _ _ _ _ _ _ _ _ _ _ _ _ _ Hread Hc Hloc Hsize).
  fold offset. set (w2 := record (EFileSize _ _ _) _).
  destruct (0 <=? size).
  { destruct (IH (i + 1) (fill block bytes) blocks w2 Hlen1) as (evs & Hcalls & HP & Hres).
    eexists (_ :: _ :: evs). split; [rewrite Hcalls; simpl; by rewrite <- !app_assoc|].
    split; [footprint|]. intros blocks' Hb o. cbn [uploaded]. by apply Hres. }
  destruct (MkDirAll bsDriver path (remote w2)) as [[e|] r2] eqn:Hmk.
  { erewrite bind_err by (unfold callMkDirAll; rewrite Hmk; reflexivity).
    eexists [_; _; _]. split; [simpl; by rewrite <- !app_assoc|].
    split; [footprint|done]. }
  erewrite bind_ok by (by apply callMkDirAll_run).
  set (w3 := record (EMkDirAll _ _) _).
  destruct (Write bsDriver (fill block bytes) path fileName (remote w3)) as [[e|] r3] eqn:Hwr.
  { erewrite bind_err by (unfold callWrite; rewrite Hwr; reflexivity).
    eexists [_; _; _; _]. split; [simpl; by rewrite <- !app_assoc|].
    split; [footprint|done]. }
  erewrite bind_ok by (by apply callWrite_run).
  set (w4 := record (EWrite _ _ _ _) _).
  destruct (IH (i + 1) (fill block bytes) (blocks ++ [mkBlockMapping offset c]) w4 Hlen1)
    as (evs & Hcalls & HP & Hres).
  eexists (_ :: _ :: _ :: _ :: evs).
  split; [rewrite Hcalls; simpl; by rewrite <- !app_assoc|].
  split; [footprint|].
  intros blocks' Hb o. cbn [uploaded]. rewrite Hc. rewrite (Hres blocks' Hb offset).
  by rewrite <- app_assoc.
Qed.

Lemma uploaded_app (evs1 evs2 : list Event) : ∀ o,
  ∃ o1, uploaded o (evs1 ++ evs2) = uploaded o evs1 ++ uploaded o1 evs2.
Proof.
  induction evs1 as [|e evs1 IH]; intros o; [by exists o|].
  destruct e; cbn [app uploaded]; try apply IH.
  destruct err; [apply IH|]. destruct (blockChecksum data); [|apply IH].
  destruct (IH o) as [o1 ->]. by exists o1.
Qed.

(** All extents. *)
Lemma backupExtents_log (bsDriver : BlockStoreDriver R) (sDriver : Driver Src)
    (snapshotId volumeId : string) (blockSize deltaBlockSize : Z)
    (mappings : list metadata.Mapping) : ∀ (blocks : list BlockMapping) w,
  ∃ evs,
    calls (backupExtents bsDriver sDriver snapshotId volumeId blockSize deltaBlockSize
             mappings blocks w).2 = calls w ++ evs ∧
    Forall (backup_footprint blockSize snapshotId volumeId) evs ∧
    ∀ blocks',
      (backupExtents bsDriver sDriver snapshotId volumeId blockSize deltaBlockSize
         mappings blocks w).1 = Ok blocks' →
      ∀ o, blocks' = blocks ++ uploaded o evs.
Proof.
  induction mappings as [|d rest IH]; intros blocks w.
  { exists []. simpl. rewrite !app_nil_r. split; [done|]. split; [done|].
    by intros blocks' [= <-] o. }
  cbn [backupExtents]. destruct (deltaBlockSize =? 0).
  { exists []. simpl. rewrite !app_nil_r. done. }
  rewrite ret_bind.
  destruct (backupBlocks_log bsDriver sDriver snapshotId volumeId d deltaBlockSize blockSize
              (Z.to_nat (metadata.Size d / deltaBlockSize)) 0
              (replicate (Z.to_nat blockSize) x00) blocks w)
    as (evs1 & Hcalls1 & HP1 & Hres1); [by rewrite length_replicate|].
  unfold mbind, M_bind.
  destruct (backupBlocks bsDriver sDriver snapshotId volumeId d deltaBlockSize
              (Z.to_nat (metadata.Size d / deltaBlockSize)) 0
              (replicate (Z.to_nat blockSize) x00) blocks w) as [[blocks1|e|] w1];
    [|by exists evs1..].
  destruct (IH blocks1 w1) as (evs2 & Hcalls2 & HP2 & Hres2).
  exists (evs1 ++ evs2). simpl in Hcalls1, Hres1.
  split; [by rewrite Hcalls2, Hcalls1, <- app_assoc|]. split; [by apply Forall_app|].
  intros blocks' Hb o. destruct (uploaded_app evs1 evs2 o) as [o1 ->].
  rewrite (Hres2 blocks' Hb o1), (Hres1 blocks1 eq_refl o). by rewrite <- app_assoc.
Qed.

(** A run of one call: the call is logged, nothing else. *)
Ltac logged_call :=
  let w := fresh "w" in
  intros w;
  unfold callFileExists, callFileSize, callMkDirAll, callRemoveAll, callRead, callWrite,
    callCompareSnapshot, callReadSnapshot, LoadConfig, SaveConfig;
  cbv beta;
  repeat match goal with
         | |- context [match ?x with (_, _) => _ end] =>
             lazymatch x with (_, _) => fail | _ => destruct x end
         end;
  repeat match goal with
         | |- context [check ?e] => is_var e; destruct e
         | |- context [match ?x with Some _ => _ | None => _ end] =>
             lazymatch x with Some _ => fail | None => fail | _ => destruct x end
         end;
  simpl; eexists [_]; (split; [done|]); apply Forall_cons;
  (split; [first [exact I | done | by left]|done]).

Ltac logged_quiet :=
  let w := fresh "w" in
  intros w; unfold GetBlockStoreDriver, jsonMarshal; repeat case_match; apply logged_refl.

Ltac logged_step :=
  first
    [ (apply logged_bind; [|intros ?])
    | match goal with
      | |- keeps _ (backupExtents _ _ _ _ _ _ _ _) =>
          let w := fresh "w" in
          intros w;
          match goal with
          | |- logged _ _ (backupExtents ?a ?b ?c ?d ?e ?f ?g ?h _).2 =>
              destruct (backupExtents_log a b c d e f g h w) as (? & ? & ? & _); by eexists
          end
      | |- keeps _ (match ?x with _ => _ end) => destruct x
      | |- keeps _ (loadLastSnapshotMap _ _ _) => unfold loadLastSnapshotMap
      end
    | logged_quiet
    | logged_call ].

(** X11. The remote footprint of [BackupSnapshot], in every execution
    and whatever it returns: each object it writes is the manifest of the
    snapshot or a block of exactly the blockstore's block size stored at
    the location derived from the digest of its own bytes; each directory
    it creates is the directory of a block location of the volume; the
    only thing it removes is the manifest of the snapshot. *)
Theorem BackupSnapshot_footprint (root snapshotId volumeId blockstoreId : string)
    (sDriver : Driver Src) w (b : BlockStore) :
  disk w !! getConfigFilename root blockstoreId = Some b →
  ∃ evs,
    calls (BackupSnapshot root snapshotId volumeId blockstoreId sDriver w).2 = calls w ++ evs ∧
    Forall (backup_footprint (BlockSize b) snapshotId volumeId) evs.
Proof.
  intros Hb. unfold BackupSnapshot. rewrite LoadConfig_bind, Hb.
  match goal with
  | |- ∃ _, calls (?t ?w1).2 = _ ∧ _ =>
      assert (K : keeps (logged (backup_footprint (BlockSize b) snapshotId volumeId)) t)
  end.
  { repeat logged_step. }
  destruct (K (record (ELoadConfig (getConfigFilename root blockstoreId)) w))
    as (evs & Hcalls & HP).
  exists (ELoadConfig (getConfigFilename root blockstoreId) :: evs).
  split; [rewrite Hcalls; simpl; by rewrite <- app_assoc|]. by apply Forall_cons.
Qed.

(** X12. When the block loop of [BackupSnapshot] completes, the entries
    it has appended to the delta map are exactly those of the blocks it
    uploaded, in order: one entry per successful block write, holding the
    offset the block was read at and the digest of the bytes written. A
    block read but not written (found on the remote side) gets no
    entry. *)
Theorem backupExtents_entries_are_uploads (bsDriver : BlockStoreDriver R)
    (sDriver : Driver Src) (snapshotId volumeId : string) (blockSize deltaBlockSize : Z)
    (mappings : list metadata.Mapping) (blocks blocks' : list BlockMapping) w :
  (backupExtents bsDriver sDriver snapshotId volumeId blockSize deltaBlockSize
     mappings blocks w).1 = Ok blocks' →
  ∃ evs,
    calls (backupExtents bsDriver sDriver snapshotId volumeId blockSize deltaBlockSize
             mappings blocks w).2 = calls w ++ evs ∧
    ∀ o, blocks' = blocks ++ uploaded o evs.
Proof.
  intros H.
  destruct (backupExtents_log bsDriver sDriver snapshotId volumeId blockSize deltaBlockSize
              mappings blocks w) as (evs & Hcalls & _ & Hres).
  exists evs. split; [done|]. by apply Hres.
Qed.

End BackupLog.

(** ** The backup: what stops it before the first block *)

Section BackupGuards.

Context {R Src : Type} {json : JSON}.

Implicit Types w : @World R Src.

Lemma bind_panic {A B} (m : @M R Src A) (f : A → @M R Src B) w w1 :
  m w = (Panic, w1) → (m ≫= f) w = (Panic, w1).
Proof. unfold mbind, M_bind. by intros ->. Qed.

(** Loading the last manifest asks the remote side and nothing else. *)
Lemma loadLastSnapshotMap_quiet (drv : BlockStoreDriver R) (volumeId lastSnapshotId : string) w :
  let w1 := (loadLastSnapshotMap drv volumeId lastSnapshotId w).2 in
  source w1 = source w ∧ disk w1 = disk w ∧
  ∃ evs, calls w1 = calls w ++ evs ∧
    Forall (λ e, touches_block e = false ∧ is_save e = false) evs.
Proof.
  unfold loadLastSnapshotMap. case_decide.
  2: { simpl. split; [done|]. split; [done|]. exists []. by rewrite app_nil_r. }
  unfold mbind, M_bind, callFileSize, callRead.
  destruct (FileSize drv _ _ (remote w)) as [size st]. cbv beta iota zeta.
  destruct (size <? 0).
  { simpl. split; [done|]. split; [done|]. eexists [_]. split; [done|]. by repeat constructor. }
  cbn [remote record set_remote].
  destruct (Read drv _ _ _ st) as [[[e|] bytes] st1]; simpl.
  - split; [done|]. split; [done|]. eexists [_; _]. split; [by rewrite <- app_assoc|].
    by repeat constructor.
  - destruct (Unmarshal_SnapshotMap _); simpl; (split; [done|]); (split; [done|]);
      eexists [_; _]; (split; [by rewrite <- app_assoc|]); by repeat constructor.
Qed.

(** X9. [BackupSnapshot] of a volume that is not in the record fails,
    once the driver of the blockstore is built, with the
    cannot-find-volume error; the only call made is the load of the
    record, so neither side is asked anything. *)
Theorem BackupSnapshot_unknown_volume (root snapshotId volumeId blockstoreId : string)
    (sDriver : Driver Src) w (b : BlockStore) (init : InitFunc R) (drv : BlockStoreDriver R) :
  disk w !! getConfigFilename root blockstoreId = Some b →
  initializers w !! Kind b = Some init →
  init (getDriverConfigFilename root (Kind b) blockstoreId) blockstoreId None = inr drv →
  Volumes b !! volumeId = None →
  BackupSnapshot root snapshotId volumeId blockstoreId sDriver w =
    (Err ("cannot find volume " +:+ volumeId +:+ " in blockstore " +:+ blockstoreId),
     record (ELoadConfig (getConfigFilename root blockstoreId)) w).
Proof.
  intros Hb Hinit Hdrv Hv. unfold BackupSnapshot. rewrite LoadConfig_bind, Hb.
  erewrite bind_ok by (by eapply GetBlockStoreDriver_ok). by rewrite Hv.
Qed.

(** X10. When the snapshot source reports a delta whose block size
    differs from the blockstore's, [BackupSnapshot] fails: with the
    error of loading the last manifest when that fails first, with the
    different-block-sizes error otherwise. No block is read, no
    directory or object is created remotely, nothing is saved, and the
    local disk is as before. *)
Theorem BackupSnapshot_block_size_mismatch (root snapshotId volumeId blockstoreId : string)
    (sDriver : Driver Src) w (b : BlockStore) (init : InitFunc R) (drv : BlockStoreDriver R)
    (volume : Volume) (delta : metadata.Mappings) (st : Src) :
  disk w !! getConfigFilename root blockstoreId = Some b →
  initializers w !! Kind b = Some init →
  init (getDriverConfigFilename root (Kind b) blockstoreId) blockstoreId None = inr drv →
  Volumes b !! volumeId = Some volume →
  CompareSnapshot sDriver snapshotId (LastSnapshotId volume) volumeId (source w)
    = ((None, delta), st) →
  metadata.BlockSize delta ≠ BlockSize b →
  let res := (BackupSnapshot root snapshotId volumeId blockstoreId sDriver w).1 in
  let w' := (BackupSnapshot root snapshotId volumeId blockstoreId sDriver w).2 in
  res = match (loadLastSnapshotMap drv volumeId (LastSnapshotId volume)
                 (record (ELoadConfig (getConfigFilename root blockstoreId)) w)).1 with
        | Ok _ =>
            Err "Currently doesn't support different block sizes between blockstore and driver"
        | Err e => Err e
        | Panic => Panic
        end ∧
  disk w' = disk w ∧
  ∃ evs, calls w' = calls w ++ evs ∧
    Forall (λ e, touches_block e = false ∧ is_save e = false) evs.
Proof.
  intros Hb Hinit Hdrv Hv Hcmp Hsize res w'. subst res w'.
  unfold BackupSnapshot. rewrite LoadConfig_bind, Hb.
  erewrite bind_ok by (by eapply GetBlockStoreDriver_ok). rewrite Hv.
  set (w0 := record (ELoadConfig (getConfigFilename root blockstoreId)) w).
  destruct (loadLastSnapshotMap_quiet drv volumeId (LastSnapshotId volume) w0)
    as (Hsrc & Hdisk & evs & Hcalls & Hquiet).
  destruct (loadLastSnapshotMap drv volumeId (LastSnapshotId volume) w0)
    as [[lastMap|e|] w1] eqn:Hload; simpl in Hsrc, Hdisk, Hcalls.
  - erewrite bind_ok by done.
    erewrite bind_ok by (apply callCompareSnapshot_run; rewrite Hsrc; exact Hcmp).
    rewrite decide_True by done. simpl. split; [done|]. split; [done|].
    exists (ELoadConfig (getConfigFilename root blockstoreId) :: evs ++
            [ECompareSnapshot snapshotId (LastSnapshotId volume) volumeId None]).
    split; [rewrite Hcalls; simpl; by rewrite <- !app_assoc|].
    apply Forall_cons. split; [done|]. apply Forall_app. split; [done|]. by repeat constructor.
  - erewrite bind_err by done. simpl. split; [done|]. split; [done|].
    exists (ELoadConfig (getConfigFilename root blockstoreId) :: evs).
    split; [rewrite Hcalls; simpl; by rewrite <- !app_assoc|]. by apply Forall_cons.
  - erewrite bind_panic by done. simpl. split; [done|]. split; [done|].
    exists (ELoadConfig (getConfigFilename root blockstoreId) :: evs).
    split; [rewrite Hcalls; simpl; by rewrite <- !app_assoc|]. by apply Forall_cons.
Qed.

End BackupGuards.

(** ** Block locations: one per volume and digest *)

Lemma string_app_inj (a b c d : string) :
  String.length a = String.length b → a +:+ c = b +:+ d → a = b ∧ c = d.
Proof.
  revert b. induction a as [|x a IH]; intros [|y b] Hlen; try done.
  rewrite !string_app_cons. intros [= -> H]. simpl in Hlen.
  destruct (IH b) as [-> ->]; [lia|done|done].
Qed.

(** The location of a digest under a plain volume identifier, element by
    element. *)
Lemma block_location_elements (volumeId : string) (block : list byte) :
  plain volumeId →
  ∃ l1 l2,
    getBlockPathAndFileName volumeId (spec_digest block) =
      Some (filepath.join [BLOCKSTORE_BASE; VOLUME_DIRECTORY; volumeId; BLOCKS_DIRECTORY;
                           l1; l2],
            spec_digest block +:+ ".blk") ∧
    plain l1 ∧ plain l2.
Proof.
  intros Hv. destruct (digest_layers block) as (l1 & l2 & Hl1 & Hl2 & Hpl1 & Hpl2).
  exists l1, l2. split; [|done].
  rewrite (getBlockPathAndFileName_layout volumeId _ l1 l2 (plain_identifier _ Hv)
             Hpl1 Hpl2 Hl1 Hl2).
  destruct (getVolumePath_plain volumeId (plain_identifier _ Hv)) as (dir & _ & _ & -> & Hd).
  rewrite (Hd Hv).
  change [BLOCKSTORE_BASE; VOLUME_DIRECTORY; volumeId; BLOCKS_DIRECTORY; l1; l2]
    with ([BLOCKSTORE_BASE; VOLUME_DIRECTORY; volumeId] ++ [BLOCKS_DIRECTORY; l1; l2]).
  rewrite join_app by done. reflexivity.
Qed.

(** X13. Block locations are per volume and per digest: for plain volume
    identifiers, two blocks are stored at the same place only if the
    volumes are the same and the digests are equal. *)
Theorem block_location_injective (volumeId1 volumeId2 : string) (block1 block2 : list byte)
    (loc : string * string) :
  plain volumeId1 → plain volumeId2 →
  getBlockPathAndFileName volumeId1 (spec_digest block1) = Some loc →
  getBlockPathAndFileName volumeId2 (spec_digest block2) = Some loc →
  volumeId1 = volumeId2 ∧ spec_digest block1 = spec_digest block2.
Proof.
  intros Hv1 Hv2 H1 H2.
  destruct (block_location_elements volumeId1 block1 Hv1) as (l1 & l2 & E1 & Hl1 & Hl2).
  destruct (block_location_elements volumeId2 block2 Hv2) as (k1 & k2 & E2 & Hk1 & Hk2).
  rewrite E1 in H1. rewrite E2 in H2. rewrite <- H2 in H1. apply (inj Some) in H1.
  pose proof (f_equal fst H1) as Hpath. pose proof (f_equal snd H1) as Hname.
  cbn [fst snd] in Hpath, Hname. clear H1 H2 E1 E2.
  destruct plain_literals as (Hb & Hvd & Hbl & _).
  split.
  - apply (f_equal filepath.split) in Hpath.
    rewrite !split_join in Hpath; try done.
    + by apply (f_equal (λ l, default EmptyString (l !! 2%nat))) in Hpath.
    + repeat (apply Forall_cons; split; [by apply plain_identifier|]). by apply Forall_nil.
    + repeat (apply Forall_cons; split; [by apply plain_identifier|]). by apply Forall_nil.
  - destruct (blockChecksum_spec block1) as (_ & _ & Hlen1 & _).
    destruct (blockChecksum_spec block2) as (_ & _ & Hlen2 & _).
    assert (Hlen : String.length (spec_digest block1) = String.length (spec_digest block2))
      by (rewrite Hlen1, Hlen2; reflexivity).
    exact (proj1 (string_app_inj _ _ _ _ Hlen Hname)).
Qed.

Lemma block_location_injective_witness :
  "vol1" = "vol1" ∧ spec_digest (replicate 4 x00) = spec_digest (replicate 4 x00).
Proof.
  apply (block_location_injective "vol1" "vol1" (replicate 4 x00) (replicate 4 x00)
           ("rancher-blockstore/volume/vol1/blocks/ec/2d",
            "ec2d57691d9b2d40182ac565032054b7d784ba96b18bcb5be0bb4e70e3fb041e.blk"));
    [done|done|vm_compute; reflexivity..].
Defined.

(** ** Registration: what [Register] and [Deregister] leave behind *)

Section Registration.

Context {R Src : Type} {json : JSON}.

Implicit Types h : @Host R Src.

Local Arguments filepath.Join : simpl never.

(** Name the result and the final root of the run [m], then go through
    the paths of the code that produced them. *)
Ltac host_cases m :=
  let E := fresh "Hrun" in
  remember m as r eqn:E; destruct r as [? ?]; symmetry in E; simpl in *;
  unfold Register, Deregister, construct, removeDriverConfigFile, removeConfigFile, rmForce,
    GetBlockStoreDriver, callMkDirAll, SaveConfig, check, fail, mret, M_ret in E;
  repeat case_match; simplify_eq/=.

(** The paths of [Register], side by side. *)
Lemma Register_cases (root kind id : string) (config : gmap string string) h :
  let driverFile := getDriverConfigFilename root kind id in
  let recordFile := getConfigFilename root id in
  let bs := mkBlockStore kind DEFAULT_BLOCK_SIZE ∅ in
  let basePath := filepath.Join [BLOCKSTORE_BASE; VOLUME_DIRECTORY] in
  let res := (Register root kind id config h).1 in
  let h' := (Register root kind id config h).2 in
  (res = Ok tt →
     osStat driverFile h = false ∧ is_Some (initializers (world h) !! kind) ∧
     driverFiles h' = constructed h kind driverFile (driverFiles h) ∧
     disk (world h') = <[recordFile := bs]> (disk (world h)) ∧
     calls (world h') = calls (world h) ++
       [EMkDirAll basePath None; ESaveConfig recordFile bs None]) ∧
  (osStat driverFile h = true →
     res = Err ("BlockStore " +:+ id +:+ " is already registered") ∧ h' = h) ∧
  (res ≠ Ok tt →
     (∀ f b err, ESaveConfig f b err ∈ calls (world h') → err = None →
        ESaveConfig f b err ∈ calls (world h)) ∧
     ∀ f, f ≠ driverFile → disk (world h') !! f = disk (world h) !! f) ∧
  (∀ e, EMkDirAll basePath (Some e) ∈ drop (length (calls (world h))) (calls (world h')) →
     res = Err e ∧
     (rmFault h driverFile = None → osStat driverFile h' = false)) ∧
  constructed h' = constructed h ∧ rmFault h' = rmFault h ∧
  initializers (world h') = initializers (world h).
Proof.
  intros driverFile recordFile bs basePath res h'.
  subst res h' driverFile recordFile bs basePath.
  host_cases (Register root kind id config h).
  all: split; [intros Hres; simplify_eq|split; [intros Hst; simplify_eq|split;
         [intros Hne|split; [intros e0 He0|done]]]].
  all: try done.
  all: try (rewrite <- ?app_assoc, ?drop_app_length, ?drop_all in He0;
            repeat (apply elem_of_cons in He0 as [He0|He0]; simplify_eq);
            try (by inversion He0)).
  all: try (split; [|by intros f Hf; rewrite ?lookup_delete_ne]; intros f b err Hin Herr;
            subst err; rewrite ?elem_of_app in Hin; destruct_or?; try done;
            by apply list_elem_of_singleton in Hin).
  all: try (split; [done|]; intros Hrm; simplify_eq).
  - repeat split; eauto. by rewrite <- app_assoc.
  - unfold osStat. simpl. apply bool_decide_eq_false. intros [Hin|[b Hb]].
    + apply elem_of_difference in Hin as [_ Hin]. apply Hin. by apply elem_of_singleton.
    + by rewrite lookup_delete_eq in Hb.
Qed.

(** The paths of [Deregister], side by side. *)
Lemma Deregister_cases (root kind id : string) h :
  let driverFile := getDriverConfigFilename root kind id in
  let recordFile := getConfigFilename root id in
  let res := (Deregister root kind id h).1 in
  let h' := (Deregister root kind id h).2 in
  (res = Ok tt →
     disk (world h') = delete recordFile (delete driverFile (disk (world h))) ∧
     driverFiles h' = driverFiles h ∖ {[driverFile]} ∖ {[recordFile]}) ∧
  (∀ e, rmFault h driverFile = Some e → res = Err e ∧ h' = h) ∧
  (∀ e, rmFault h driverFile = None → rmFault h recordFile = Some e →
     res = Err e ∧ disk (world h') = delete driverFile (disk (world h)) ∧
     driverFiles h' = driverFiles h ∖ {[driverFile]}) ∧
  initializers (world h') = initializers (world h) ∧ remote (world h') = remote (world h) ∧
  source (world h') = source (world h) ∧ calls (world h') = calls (world h) ∧
  constructed h' = constructed h ∧ rmFault h' = rmFault h.
Proof.
  intros driverFile recordFile res h'. subst res h' driverFile recordFile.
  host_cases (Deregister root kind id h).
  all: split; [intros Hres; simplify_eq|split; [intros e0 He0; simplify_eq|split;
         [intros e0 He0 He1; simplify_eq|done]]]; done.
Qed.

(** X14. A successful [Register]: nothing was at the name of the driver
    config file, the kind has a constructor, the local record
    [<root>/<id>.cfg] now holds the kind, the default block size and no
    volume (whatever it held before), and the calls made are the creation
    of the remote base directory and the save of that record. What is in
    the driver files afterwards is what the constructor left there. *)
Theorem Register_success (root kind id : string) (config : gmap string string) h :
  (Register root kind id config h).1 = Ok tt →
  let driverFile := getDriverConfigFilename root kind id in
  let recordFile := getConfigFilename root id in
  let bs := mkBlockStore kind DEFAULT_BLOCK_SIZE ∅ in
  let h' := (Register root kind id config h).2 in
  osStat driverFile h = false ∧ is_Some (initializers (world h) !! kind) ∧
  driverFiles h' = constructed h kind driverFile (driverFiles h) ∧
  disk (world h') = <[recordFile := bs]> (disk (world h)) ∧
  calls (world h') = calls (world h) ++
    [EMkDirAll (filepath.Join [BLOCKSTORE_BASE; VOLUME_DIRECTORY]) None;
     ESaveConfig recordFile bs None].
Proof.
  intros H. destruct (Register_cases root kind id config h) as (Hok & _). by apply Hok.
Qed.

(** X15. The failures of [Register]. When a file exists at the name of
    the driver config file the call fails with the already-registered
    error and changes nothing at all. Whenever the call does not return
    success, it has made no successful save and every local record other
    than a file at the driver config name is as before. When the
    creation of the remote base directory fails, the call returns that
    error and, unless [rm -f] itself fails, nothing is left at the name
    of the driver config file. *)
Theorem Register_failures (root kind id : string) (config : gmap string string) h :
  let driverFile := getDriverConfigFilename root kind id in
  let basePath := filepath.Join [BLOCKSTORE_BASE; VOLUME_DIRECTORY] in
  let res := (Register root kind id config h).1 in
  let h' := (Register root kind id config h).2 in
  (osStat driverFile h = true →
     res = Err ("BlockStore " +:+ id +:+ " is already registered") ∧ h' = h) ∧
  (res ≠ Ok tt →
     (∀ f b err, ESaveConfig f b err ∈ calls (world h') → err = None →
        ESaveConfig f b err ∈ calls (world h)) ∧
     ∀ f, f ≠ driverFile → disk (world h') !! f = disk (world h) !! f) ∧
  (∀ e, EMkDirAll basePath (Some e) ∈ drop (length (calls (world h))) (calls (world h')) →
     res = Err e ∧
     (rmFault h driverFile = None → osStat driverFile h' = false)).
Proof.
  intros driverFile basePath res h'.
  destruct (Register_cases root kind id config h) as (_ & H1 & H2 & H3 & _). auto.
Qed.

(** X16. Registering twice: after a successful [Register] whose
    constructor left its config file in place, a second [Register] of the
    same kind and id, with any config, fails with the already-registered
    error and changes nothing. *)
Theorem Register_twice (root kind id : string) (config config' : gmap string string) h :
  (Register root kind id config h).1 = Ok tt →
  getDriverConfigFilename root kind id ∈
    constructed h kind (getDriverConfigFilename root kind id) (driverFiles h) →
  Register root kind id config' (Register root kind id config h).2 =
    (Err ("BlockStore " +:+ id +:+ " is already registered"),
     (Register root kind id config h).2).
Proof.
  intros H Hkeeps.
  destruct (Register_cases root kind id config h) as (Hok & _).
  destruct (Hok H) as (_ & _ & Hfiles & _).
  destruct (Register_cases root kind id config' (Register root kind id config h).2)
    as (_ & Hdup & _).
  destruct Hdup as [Hres Hsame].
  { unfold osStat. apply bool_decide_eq_true. left. by rewrite Hfiles. }
  rewrite (surjective_pairing (Register root kind id config' _)). by f_equal.
Qed.

(** X17. The outcomes of [Deregister]. On success nothing is left at
    the names of the driver config file and of the record, every other
    record is as before, and a volume operation or backup issued next on
    that blockstore fails at loading the record. When the first removal
    fails nothing is changed; when the second fails only the driver
    config name is gone. The remote side is never called. *)
Theorem Deregister_outcomes (root kind id : string) h :
  let driverFile := getDriverConfigFilename root kind id in
  let recordFile := getConfigFilename root id in
  let res := (Deregister root kind id h).1 in
  let h' := (Deregister root kind id h).2 in
  (res = Ok tt →
     osStat driverFile h' = false ∧ osStat recordFile h' = false ∧
     (∀ f, f ≠ driverFile → f ≠ recordFile →
        disk (world h') !! f = disk (world h) !! f) ∧
     ∀ op : @Op Src, op_record op = recordFile →
       (exec op (world h')).1 =
         Err ("open " +:+ recordFile +:+ ": no such file or directory")) ∧
  (∀ e, rmFault h driverFile = Some e → res = Err e ∧ h' = h) ∧
  (∀ e, rmFault h driverFile = None → rmFault h recordFile = Some e →
     res = Err e ∧ ∀ f, f ≠ driverFile → disk (world h') !! f = disk (world h) !! f) ∧
  remote (world h') = remote (world h) ∧ calls (world h') = calls (world h).
Proof.
  intros driverFile recordFile res h'.
  destruct (Deregister_cases root kind id h) as (Hok & H1 & H2 & _ & Hrem & _ & Hcalls & _).
  split; [|split; [done|split; [|done]]].
  - intros H. destruct (Hok H) as [Hdisk Hfiles].
    assert (Hnone : disk (world h') !! recordFile = None).
    { fold h' in Hdisk. rewrite Hdisk. apply lookup_delete_eq. }
    split; [|split; [|split]].
    + unfold osStat. apply bool_decide_eq_false. fold h' in Hdisk, Hfiles.
      rewrite Hdisk, Hfiles. intros [Hin|[b Hb]].
      * apply elem_of_difference in Hin as [Hin _].
        apply elem_of_difference in Hin as [_ Hin]. apply Hin. by apply elem_of_singleton.
      * apply lookup_delete_Some in Hb as [_ Hb]. by rewrite lookup_delete_eq in Hb.
    + unfold osStat. apply bool_decide_eq_false. fold h' in Hfiles.
      rewrite Hnone, Hfiles. intros [Hin|[b Hb]]; [|done].
      apply elem_of_difference in Hin as [_ Hin]. apply Hin. by apply elem_of_singleton.
    + intros f Hf1 Hf2. fold h' in Hdisk. rewrite Hdisk. by rewrite !lookup_delete_ne.
    + intros op Hop. destruct op; simpl in Hop |- *; subst recordFile;
        unfold AddVolume, RemoveVolume, BackupSnapshot; rewrite LoadConfig_bind, Hop, Hnone;
        by rewrite <- Hop.
  - intros e He1 He2. destruct (H2 e He1 He2) as (Hres & Hdisk & _). split; [done|].
    intros f Hf. fold h' in Hdisk. rewrite Hdisk. by rewrite lookup_delete_ne.
Qed.

(** X18. [Register] followed by [Deregister], both successful, on a
    root that held no record of that id: the local disk is as before the
    two calls, while the remote base directory created by [Register]
    stays (the only calls logged are those of [Register], and
    [Deregister] leaves the remote state as it found it). *)
Theorem Register_Deregister_round_trip (root kind id : string) (config : gmap string string) h :
  (Register root kind id config h).1 = Ok tt →
  (Deregister root kind id (Register root kind id config h).2).1 = Ok tt →
  disk (world h) !! getConfigFilename root id = None →
  let h1 := (Register root kind id config h).2 in
  let h2 := (Deregister root kind id h1).2 in
  disk (world h2) = disk (world h) ∧
  calls (world h2) = calls (world h) ++
    [EMkDirAll (filepath.Join [BLOCKSTORE_BASE; VOLUME_DIRECTORY]) None;
     ESaveConfig (getConfigFilename root id) (mkBlockStore kind DEFAULT_BLOCK_SIZE ∅) None] ∧
  remote (world h2) = remote (world h1).
Proof.
  intros H1 H2 Hfree h1 h2. subst h1 h2.
  destruct (Register_cases root kind id config h) as (Hok & _).
  destruct (Hok H1) as (Hstat & _ & _ & Hdisk & Hcalls).
  destruct (Deregister_cases root kind id (Register root kind id config h).2)
    as (Hok2 & _ & _ & _ & Hrem & _ & Hcalls2 & _).
  destruct (Hok2 H2) as [Hdisk2 _].
  split; [|split; [by rewrite Hcalls2|done]].
  rewrite Hdisk2, Hdisk.
  apply bool_decide_eq_false in Hstat.
  assert (Hd : disk (world h) !! getDriverConfigFilename root kind id = None).
  { destruct (disk (world h) !! getDriverConfigFilename root kind id) eqn:E; [|done].
    exfalso. apply Hstat. right. by eexists. }
  rewrite delete_delete, delete_insert_eq.
  rewrite (delete_id (disk (world h)) (getConfigFilename root id)) by done.
  by rewrite delete_id.
Qed.

(** X19. A blockstore that was registered successfully works with the
    default block size of 2 MiB from then on: after any sequence of
    volume operations and backups, its record, if it can be loaded, has
    that block size. *)
Theorem Register_then_operations_block_size (root kind id : string)
    (config : gmap string string) h (ops : list (@Op Src)) (b : BlockStore) :
  (Register root kind id config h).1 = Ok tt →
  disk (execAll ops (world (Register root kind id config h).2)) !! getConfigFilename root id
    = Some b →
  BlockSize b = DEFAULT_BLOCK_SIZE.
Proof.
  intros H Hb.
  destruct (Register_cases root kind id config h) as (Hok & _).
  destruct (Hok H) as (_ & _ & _ & Hdisk & _).
  destruct (execAll_block_sizes_kept ops (world (Register root kind id config h).2))
    as [Hkept _].
  destruct (Hkept _ _ Hb) as (b0 & Hb0 & ->).
  rewrite Hdisk, lookup_insert_eq in Hb0. by injection Hb0 as <-.
Qed.

End Registration.

Lemma Register_success_witness :
  let h := Testhost.emptyHost in
  let driverFile := getDriverConfigFilename "/root" "mem" "bs1" in
  let recordFile := getConfigFilename "/root" "bs1" in
  let bs := mkBlockStore "mem" DEFAULT_BLOCK_SIZE ∅ in
  let h' := (Register "/root" "mem" "bs1" ∅ h).2 in
  osStat driverFile h = false ∧ is_Some (initializers (world h) !! "mem") ∧
  driverFiles h' = constructed h "mem" driverFile (driverFiles h) ∧
  disk (world h') = <[recordFile := bs]> (disk (world h)) ∧
  calls (world h') = calls (world h) ++
    [EMkDirAll (filepath.Join [BLOCKSTORE_BASE; VOLUME_DIRECTORY]) None;
     ESaveConfig recordFile bs None].
Proof.
  apply (Register_success "/root" "mem" "bs1" ∅ Testhost.emptyHost). vm_compute; reflexivity.
Defined.

Lemma Register_twice_witness :
  Register "/root" "mem" "bs1" ∅ (Register "/root" "mem" "bs1" ∅ Testhost.emptyHost).2 =
    (Err ("BlockStore " +:+ "bs1" +:+ " is already registered"),
     (Register "/root" "mem" "bs1" ∅ Testhost.emptyHost).2).
Proof.
  apply (Register_twice "/root" "mem" "bs1" ∅ ∅ Testhost.emptyHost).
  - vm_compute; reflexivity.
  - apply elem_of_union_r. by apply elem_of_singleton.
Defined.

Lemma Register_Deregister_round_trip_witness :
  let h1 := (Register "/root" "mem" "bs1" ∅ Testhost.emptyHost).2 in
  let h2 := (Deregister "/root" "mem" "bs1" h1).2 in
  disk (world h2) = disk (world Testhost.emptyHost) ∧
  calls (world h2) = calls (world Testhost.emptyHost) ++
    [EMkDirAll (filepath.Join [BLOCKSTORE_BASE; VOLUME_DIRECTORY]) None;
     ESaveConfig (getConfigFilename "/root" "bs1")
       (mkBlockStore "mem" DEFAULT_BLOCK_SIZE ∅) None] ∧
  remote (world h2) = remote (world h1).
Proof.
  apply (Register_Deregister_round_trip "/root" "mem" "bs1" ∅ Testhost.emptyHost).
  - vm_compute; reflexivity.
  - vm_compute; reflexivity.
  - reflexivity.
Defined.

Lemma Register_then_operations_block_size_witness :
  let h1 := (Register "/root" "mem" "bs1" ∅ Testhost.emptyHost).2 in
  let ops := [OpAddVolume "/root" "bs1" "vol1" EmptyString 6291456;
              OpBackupSnapshot "/root" "snap1" "vol1" "bs1" Testbed.idleSource] in
  let b := mkBlockStore "mem" DEFAULT_BLOCK_SIZE
             {[ "vol1" := mkVolume 6291456 EmptyString EmptyString ]} in
  disk (execAll ops (world h1)) !! getConfigFilename "/root" "bs1" = Some b ∧
  BlockSize b = DEFAULT_BLOCK_SIZE.
Proof.
  intros h1 ops b. split; [vm_compute; reflexivity|].
  apply (Register_then_operations_block_size "/root" "mem" "bs1" ∅ Testhost.emptyHost ops b).
  - vm_compute; reflexivity.
  - vm_compute; reflexivity.
Defined.

(** ** Instances of the conditional properties *)

(** A backup of a volume that the freshly registered blockstore does not
    hold. *)
Lemma BackupSnapshot_unknown_volume_witness :
  BackupSnapshot "/root" "snap1" "vol1" "bs1" Testbed.idleSource Testbed.registeredWorld =
    (Err ("cannot find volume " +:+ "vol1" +:+ " in blockstore " +:+ "bs1"),
     record (ELoadConfig (getConfigFilename "/root" "bs1")) Testbed.registeredWorld).
Proof.
  apply (BackupSnapshot_unknown_volume "/root" "snap1" "vol1" "bs1" Testbed.idleSource
           Testbed.registeredWorld (mkBlockStore "mem" DEFAULT_BLOCK_SIZE ∅)
           Testbed.memInit Testbed.memDriver).
  - vm_compute; reflexivity.
  - reflexivity.
  - reflexivity.
  - reflexivity.
Defined.

(** A blockstore with 4-byte blocks and a source that reports 2 MiB
    blocks. *)
Lemma BackupSnapshot_block_size_mismatch_witness :
  let run := BackupSnapshot "/root" "snap1" "vol1" "bs1" Testbed.idleSource
               Testbed.smallWorld in
  run.1 = match (loadLastSnapshotMap Testbed.memDriver "vol1"
                   (LastSnapshotId (mkVolume 12 EmptyString EmptyString))
                   (record (ELoadConfig (getConfigFilename "/root" "bs1"))
                      Testbed.smallWorld)).1 with
          | Ok _ =>
              Err "Currently doesn't support different block sizes between blockstore and driver"
          | Err e => Err e
          | Panic => Panic
          end ∧
  disk run.2 = disk Testbed.smallWorld ∧
  ∃ evs, calls run.2 = calls Testbed.smallWorld ++ evs ∧
    Forall (λ e, touches_block e = false ∧ is_save e = false) evs.
Proof.
  apply (BackupSnapshot_block_size_mismatch "/root" "snap1" "vol1" "bs1" Testbed.idleSource
           Testbed.smallWorld
           (mkBlockStore "mem" 4 {[ "vol1" := mkVolume 12 EmptyString EmptyString ]})
           Testbed.memInit Testbed.memDriver (mkVolume 12 EmptyString EmptyString)
           (metadata.mkMappings [] DEFAULT_BLOCK_SIZE) tt).
  - vm_compute; reflexivity.
  - reflexivity.
  - reflexivity.
  - vm_compute; reflexivity.
  - reflexivity.
  - simpl. discriminate.
Defined.

(** The backup of three 4-byte blocks of zeros. *)
Lemma BackupSnapshot_footprint_witness :
  ∃ evs,
    calls (BackupSnapshot "/root" "snap1" "vol1" "bs1" Testbed.smallSource
             Testbed.smallWorld).2 = calls Testbed.smallWorld ++ evs ∧
    Forall (backup_footprint
              (BlockSize (mkBlockStore "mem" 4
                            {[ "vol1" := mkVolume 12 EmptyString EmptyString ]}))
              "snap1" "vol1") evs.
Proof.
  apply (BackupSnapshot_footprint "/root" "snap1" "vol1" "bs1" Testbed.smallSource
           Testbed.smallWorld).
  vm_compute; reflexivity.
Defined.

Lemma backupExtents_entries_are_uploads_witness :
  let d := "ec2d57691d9b2d40182ac565032054b7d784ba96b18bcb5be0bb4e70e3fb041e" in
  ∃ evs,
    calls (backupExtents Testbed.memDriver Testbed.smallSource "snap1" "vol1" 4 4
             [metadata.mkMapping 0 12] [] Testbed.smallWorld).2 =
      calls Testbed.smallWorld ++ evs ∧
    ∀ o, [mkBlockMapping 0 d] = [] ++ uploaded o evs.
Proof.
  apply (backupExtents_entries_are_uploads Testbed.memDriver Testbed.smallSource
           "snap1" "vol1" 4 4 [metadata.mkMapping 0 12] []
           [mkBlockMapping 0 "ec2d57691d9b2d40182ac565032054b7d784ba96b18bcb5be0bb4e70e3fb041e"]
           Testbed.smallWorld).
  vm_compute; reflexivity.
Defined.
